(** * Deadlock Escape: the resource allocation and deadlock detection engine

    A shallow embedding of the engine of [deadlock_escape.py]
    ([Resource], [Process], [GameState]) and the proofs of its properties.

    Conventions of the embedding:
    - a Python [int] is a [Z];
    - a method that can mutate [self] is a function of [self] that returns
      the result of the call together with [self] after the call; a
      constructor or a method that can raise returns a [result];
    - [self.resources] and [Process.allocated_resources] are always built by
      a loop over the whole enumeration [ResourceType] and no key is ever
      added or removed: they are dictionaries keyed by every member of the
      enumeration ([EnumDict]), in the enumeration's order, so that
      [d.get(k, 0)] and [d[k]] are the same lookup and
      [Process.__post_init__], which replaces an empty dictionary, changes
      nothing;
    - [Process.required_resources] is a dictionary with some of the kinds as
      keys: an insertion-ordered list of items ([Dict]);
    - a process of [self.processes] that a method holds and mutates is the
      object at a position of the list: the mutation replaces it there;
    - the module [random] is a [RandomSource] handed to the constructor;
    - the binary64 arithmetic of [_initialize_resources] is in [Binary64]. *)

From Stdlib Require Import String ZArith List Bool Lia Permutation.
From Stdlib Require Import DecimalString QArith Qround Qminmax Lqa.
Import ListNotations.
Open Scope string_scope.
Open Scope list_scope.
Open Scope Z_scope.

(** ** Enumerations *)

Inductive ResourceType : Type := CPU | MEMORIA | DISCO | IMPRESSORA.

Definition ResourceType_value (rt : ResourceType) : string :=
  match rt with
  | CPU => "CPU"
  | MEMORIA => "Memória"
  | DISCO => "Disco"
  | IMPRESSORA => "Impressora"
  end.

Definition ResourceType_eqb (a b : ResourceType) : bool :=
  match a, b with
  | CPU, CPU | MEMORIA, MEMORIA | DISCO, DISCO | IMPRESSORA, IMPRESSORA => true
  | _, _ => false
  end.

(** [for rt in ResourceType]: the members in definition order. *)
Definition ResourceType_members : list ResourceType :=
  [CPU; MEMORIA; DISCO; IMPRESSORA].

Inductive ProcessState : Type := WAITING | RUNNING | FINISHED | BLOCKED.

Definition ProcessState_eqb (a b : ProcessState) : bool :=
  match a, b with
  | WAITING, WAITING | RUNNING, RUNNING | FINISHED, FINISHED
  | BLOCKED, BLOCKED => true
  | _, _ => false
  end.

(** ** Dictionaries *)

(** A dictionary whose keys are all the members of [ResourceType]. *)
Record EnumDict (V : Type) : Type := mkEnumDict {
  at_CPU : V;
  at_MEMORIA : V;
  at_DISCO : V;
  at_IMPRESSORA : V
}.
Arguments mkEnumDict {V}.
Arguments at_CPU {V}.
Arguments at_MEMORIA {V}.
Arguments at_DISCO {V}.
Arguments at_IMPRESSORA {V}.

Module EnumDict_ops.

Definition get {V} (d : EnumDict V) (k : ResourceType) : V :=
  match k with
  | CPU => at_CPU d
  | MEMORIA => at_MEMORIA d
  | DISCO => at_DISCO d
  | IMPRESSORA => at_IMPRESSORA d
  end.

Definition set {V} (d : EnumDict V) (k : ResourceType) (v : V) : EnumDict V :=
  match k with
  | CPU => mkEnumDict v (at_MEMORIA d) (at_DISCO d) (at_IMPRESSORA d)
  | MEMORIA => mkEnumDict (at_CPU d) v (at_DISCO d) (at_IMPRESSORA d)
  | DISCO => mkEnumDict (at_CPU d) (at_MEMORIA d) v (at_IMPRESSORA d)
  | IMPRESSORA => mkEnumDict (at_CPU d) (at_MEMORIA d) (at_DISCO d) v
  end.

(** [{rt: f(rt) for rt in ResourceType}] *)
Definition build {V} (f : ResourceType -> V) : EnumDict V :=
  mkEnumDict (f CPU) (f MEMORIA) (f DISCO) (f IMPRESSORA).

(** [d.items()] *)
Definition items {V} (d : EnumDict V) : list (ResourceType * V) :=
  map (fun k => (k, get d k)) ResourceType_members.

(** [{k: f(v) for k, v in d.items()}] *)
Definition map_values {V W} (f : V -> W) (d : EnumDict V) : EnumDict W :=
  build (fun k => f (get d k)).

End EnumDict_ops.
Import EnumDict_ops.

(** An insertion-ordered dictionary with some of the kinds as keys. *)
Definition Dict (V : Type) : Type := list (ResourceType * V).

Module Dict_ops.

Fixpoint get {V} (d : Dict V) (k : ResourceType) : option V :=
  match d with
  | [] => None
  | (k', v) :: d' => if ResourceType_eqb k' k then Some v else get d' k
  end.

(** [d[k] = v]: the value of an existing key is replaced where it stands, a
    new key is added at the end. *)
Fixpoint set {V} (d : Dict V) (k : ResourceType) (v : V) : Dict V :=
  match d with
  | [] => [(k, v)]
  | (k', v') :: d' =>
      if ResourceType_eqb k' k then (k', v) :: d' else (k', v') :: set d' k v
  end.

Definition item_eqb (a b : ResourceType * Z) : bool :=
  ResourceType_eqb (fst a) (fst b) && (snd a =? snd b).

Definition has_item (d : Dict Z) (a : ResourceType * Z) : bool :=
  existsb (item_eqb a) d.

(** [d1 == d2] on dictionaries: the same items, whatever the insertion
    orders. *)
Definition eqb (d1 d2 : Dict Z) : bool :=
  forallb (has_item d2) d1 && forallb (has_item d1) d2.

End Dict_ops.

(** ** Resource *)

Record Resource : Type := mkResource {
  type : ResourceType;
  total : Z;
  available : Z
}.

(** [Resource.allocate]: the result and the resource after the call. *)
Definition Resource_allocate (self : Resource) (amount : Z) : bool * Resource :=
  if available self >=? amount then
    (true, mkResource (type self) (total self) (available self - amount))
  else (false, self).

(** [Resource.release] *)
Definition Resource_release (self : Resource) (amount : Z) : Resource :=
  mkResource (type self) (total self)
             (Z.min (total self) (available self + amount)).

(** ** Process *)

Record Process : Type := mkProcess {
  id : string;
  name : string;
  required_resources : Dict Z;
  allocated_resources : EnumDict Z;
  state : ProcessState
}.

(** The equality a dataclass generates: field by field. [list.remove] uses
    it. *)
Definition EnumDict_Z_eqb (a b : EnumDict Z) : bool :=
  forallb (fun k => get a k =? get b k) ResourceType_members.

Definition Process_eq (p q : Process) : bool :=
  String.eqb (id p) (id q) && String.eqb (name p) (name q) &&
  Dict_ops.eqb (required_resources p) (required_resources q) &&
  EnumDict_Z_eqb (allocated_resources p) (allocated_resources q) &&
  ProcessState_eqb (state p) (state q).

(** The loop of [Process.is_satisfied] over
    [self.required_resources.items()]. *)
Fixpoint is_satisfied_loop (allocated : EnumDict Z) (items : Dict Z) : bool :=
  match items with
  | [] => true
  | (resource_type, required) :: items' =>
      if get allocated resource_type <? required then false
      else is_satisfied_loop allocated items'
  end.

Definition is_satisfied (self : Process) : bool :=
  is_satisfied_loop (allocated_resources self) (required_resources self).

(** The loop of [Process.can_finish]. *)
Fixpoint can_finish_loop (allocated available_resources : EnumDict Z)
         (items : Dict Z) : bool :=
  match items with
  | [] => true
  | (resource_type, required) :: items' =>
      let still_needed := required - get allocated resource_type in
      if still_needed >? get available_resources resource_type then false
      else can_finish_loop allocated available_resources items'
  end.

Definition can_finish (self : Process) (available_resources : EnumDict Z) : bool :=
  can_finish_loop (allocated_resources self) available_resources
                  (required_resources self).

(** ** GameState *)

Record GameState : Type := mkGameState {
  level : Z;
  resources : EnumDict Resource;
  processes : list Process;
  game_log : list string;
  moves : Z;
  max_moves : Z
}.

(** [str(n)] for an integer, as an f-string prints it. *)
Definition str (n : Z) : string := NilZero.string_of_int (Z.to_int n).

(** [GameState.get_available_resources]: a new dictionary at every call. *)
Definition get_available_resources (self : GameState) : EnumDict Z :=
  map_values available (resources self).

(** *** detect_deadlock *)

(** [l.remove(x)]: the list without its first item equal to [x]. *)
Fixpoint list_remove (x : Process) (l : list Process) : list Process :=
  match l with
  | [] => []
  | y :: l' => if Process_eq y x then l' else y :: list_remove x l'
  end.

(** [for resource_type, allocated in process.allocated_resources.items():
       available[resource_type] += allocated] *)
Fixpoint give_back_loop (items : list (ResourceType * Z))
         (available : EnumDict Z) : EnumDict Z :=
  match items with
  | [] => available
  | (resource_type, allocated) :: items' =>
      give_back_loop items'
        (set available resource_type (get available resource_type + allocated))
  end.

(** The frame of a call of [detect_deadlock]: [self] and the local variables
    [available], [unfinished_processes] and [changed]. The last two fields
    are counters the source does not have: [passes] counts the iterations
    of the [while] loop and [checks] the calls of [can_finish]. *)
Record Frame : Type := mkFrame {
  frame_self : GameState;
  frame_available : EnumDict Z;
  unfinished_processes : list Process;
  changed : bool;
  passes : nat;
  checks : nat
}.

(** The [for] loop over the copy [unfinished_processes[:]], left by [break]
    at the first process that can finish. *)
Fixpoint for_loop (copy : list Process) (fr : Frame) : Frame :=
  match copy with
  | [] => fr
  | process :: copy' =>
      let fr := mkFrame (frame_self fr) (frame_available fr)
                        (unfinished_processes fr) (changed fr) (passes fr)
                        (S (checks fr)) in
      if can_finish process (frame_available fr) then
        mkFrame (frame_self fr)
                (give_back_loop (items (allocated_resources process))
                                (frame_available fr))
                (list_remove process (unfinished_processes fr))
                true (passes fr) (checks fr)
      else for_loop copy' fr
  end.

(** The body of the [while] loop. *)
Definition while_body (fr : Frame) : Frame :=
  for_loop (unfinished_processes fr)
           (mkFrame (frame_self fr) (frame_available fr)
                    (unfinished_processes fr) false (S (passes fr))
                    (checks fr)).

Definition is_empty {A} (l : list A) : bool :=
  match l with [] => true | _ => false end.

(** [while changed and unfinished_processes:]; [None] when the loop is still
    running after [fuel] iterations. *)
Fixpoint while_loop (fuel : nat) (fr : Frame) : option Frame :=
  if changed fr && negb (is_empty (unfinished_processes fr)) then
    match fuel with
    | O => None
    | S fuel' => while_loop fuel' (while_body fr)
    end
  else Some fr.

Definition unfinished (self : GameState) : list Process :=
  filter (fun p => negb (ProcessState_eqb (state p) FINISHED)) (processes self).

Definition enter_loop (self : GameState) : Frame :=
  mkFrame self (get_available_resources self) (unfinished self) true 0 0.

(** [GameState.detect_deadlock] with a bound on the iterations of its
    loop: the frame at the [return]. *)
Definition detect_deadlock_frame (fuel : nat) (self : GameState) : option Frame :=
  if is_empty (unfinished self) then
    Some (mkFrame self (get_available_resources self) (unfinished self)
                  false 0 0)
  else while_loop fuel (enter_loop self).

Definition detect_deadlock_within (fuel : nat) (self : GameState)
  : option (bool * GameState) :=
  match detect_deadlock_frame fuel self with
  | Some fr =>
      Some ((0 <? length (unfinished_processes fr))%nat, frame_self fr)
  | None => None
  end.

(** [GameState.detect_deadlock]: the result and [self] after the call. As
    many iterations as there are processes are enough
    ([detect_deadlock_within_enough]). *)
Definition detect_deadlock (self : GameState) : bool * GameState :=
  match detect_deadlock_within (length (processes self)) self with
  | Some r => r
  | None => (true, self)
  end.

(** *** allocate_resource *)

(** [next((p for p in self.processes if p.id == process_id), None)]: the
    process found and its position in [self.processes]. *)
Fixpoint find_process (processes : list Process) (process_id : string)
  : option (nat * Process) :=
  match processes with
  | [] => None
  | p :: processes' =>
      if String.eqb (id p) process_id then Some (O, p)
      else
        match find_process processes' process_id with
        | Some (i, q) => Some (S i, q)
        | None => None
        end
  end.

Fixpoint list_set {A} (l : list A) (i : nat) (x : A) : list A :=
  match l, i with
  | [], _ => []
  | _ :: l', O => x :: l'
  | y :: l', S i' => y :: list_set l' i' x
  end.

(** The loop of [_finish_process] over
    [process.allocated_resources.items()]; an item is read before the loop
    body assigns to its key, and every key is visited once. *)
Fixpoint release_loop (items : list (ResourceType * Z))
         (resources : EnumDict Resource) (allocated_resources : EnumDict Z)
  : EnumDict Resource * EnumDict Z :=
  match items with
  | [] => (resources, allocated_resources)
  | (resource_type, allocated) :: items' =>
      if allocated >? 0 then
        release_loop items'
          (set resources resource_type
               (Resource_release (get resources resource_type) allocated))
          (set allocated_resources resource_type 0)
      else release_loop items' resources allocated_resources
  end.

(** The entries of the log:
    [f"Alocado {amount} {resource_type.value} para {process.id}"] and
    [f"Processo {process.id} ({process.name}) finalizado!"]. *)
Definition allocation_entry (process_id : string)
           (resource_type : ResourceType) (amount : Z) : string :=
  ("Alocado " ++ str amount ++ " " ++ ResourceType_value resource_type
   ++ " para " ++ process_id)%string.

Definition finish_entry (process : Process) : string :=
  ("Processo " ++ id process ++ " (" ++ name process ++ ") finalizado!")%string.

(** [GameState._finish_process]; the process is the object at position
    [i] of [self.processes]. *)
Definition _finish_process (self : GameState) (i : nat) (process : Process)
  : GameState :=
  let '(resources', allocated') :=
    release_loop (items (allocated_resources process)) (resources self)
                 (allocated_resources process) in
  let process' :=
    mkProcess (id process) (name process) (required_resources process)
              allocated' FINISHED in
  mkGameState (level self) resources'
              (list_set (processes self) i process')
              (game_log self ++ [finish_entry process])
              (moves self) (max_moves self).

(** [GameState.allocate_resource] *)
Definition allocate_resource (self : GameState) (process_id : string)
           (resource_type : ResourceType) (amount : Z) : bool * GameState :=
  match find_process (processes self) process_id with
  | None => (false, self)
  | Some (i, process) =>
      if ProcessState_eqb (state process) FINISHED then (false, self)
      else
        let resource := get (resources self) resource_type in
        let '(ok, resource) := Resource_allocate resource amount in
        if ok then
          let process :=
            mkProcess (id process) (name process)
                      (required_resources process)
                      (set (allocated_resources process) resource_type
                           (get (allocated_resources process) resource_type
                            + amount))
                      (state process) in
          let self :=
            mkGameState (level self)
                        (set (resources self) resource_type resource)
                        (list_set (processes self) i process)
                        (game_log self) (moves self + 1) (max_moves self) in
          let self :=
            if is_satisfied process then _finish_process self i process
            else self in
          let self :=
            mkGameState (level self) (resources self) (processes self)
                        (game_log self ++
                           [allocation_entry (id process) resource_type
                                             amount])
                        (moves self) (max_moves self) in
          (true, self)
        else (false, self)
  end.

(** [GameState.is_level_complete] *)
Definition is_level_complete (self : GameState) : bool * GameState :=
  (forallb (fun p => ProcessState_eqb (state p) FINISHED) (processes self),
   self).

(** [GameState.is_game_over] *)
Definition is_game_over (self : GameState) : bool * GameState :=
  let '(deadlock, self) := detect_deadlock self in
  if deadlock then (true, self) else (moves self >=? max_moves self, self).

(** ** Exceptions *)

Inductive exn : Type := OverflowError | ValueError.

Inductive result (A : Type) : Type :=
| Ok (a : A)
| Raise (e : exn).
Arguments Ok {A}.
Arguments Raise {A}.

Definition bind {A B} (r : result A) (k : A -> result B) : result B :=
  match r with
  | Ok a => k a
  | Raise e => Raise e
  end.

Notation "x <- r ;; k" := (bind r (fun x => k))
  (at level 61, r at next level, right associativity).

(** ** Binary64 arithmetic

    A Python [float] is an IEEE 754 binary64 number. A finite one is
    [mant * 2 ^ expo] with at most 53 significant bits; the operations
    compute the exact result and round it to the nearest number of 53
    significant bits, ties to the even one. The exponent is not bounded
    here: the operations are those of binary64 on results whose magnitude
    is zero or in [2^-1022, 2^1024), which is where every product and
    difference of [_initialize_resources] lies; the conversion of an [int],
    the only operation of the source that can leave that range, checks
    it. *)
Module Binary64.

Record float : Type := mkFloat { mant : Z; expo : Z }.

(** The number of significant bits of [m]. *)
Definition digits (m : Z) : Z :=
  if m =? 0 then 0 else Z.log2 (Z.abs m) + 1.

Definition round (x : float) : float :=
  let s := digits (mant x) - 53 in
  if s <=? 0 then x
  else
    let a := Z.abs (mant x) in
    let q := a / 2 ^ s in
    let r := a mod 2 ^ s in
    let half := 2 ^ (s - 1) in
    let q' := if (half <? r) || ((r =? half) && Z.odd q) then q + 1 else q in
    mkFloat (Z.sgn (mant x) * q') (expo x + s).

(** The conversion of an [int] operand of a [float] operation:
    [OverflowError] when the rounded value does not fit. *)
Definition of_int (n : Z) : result float :=
  let x := round (mkFloat n 0) in
  if 2 ^ 1024 <=? Z.abs (mant x) * 2 ^ expo x then Raise OverflowError
  else Ok x.

Definition mul (x y : float) : float :=
  round (mkFloat (mant x * mant y) (expo x + expo y)).

Definition sub (x y : float) : float :=
  let e := Z.min (expo x) (expo y) in
  round (mkFloat (mant x * 2 ^ (expo x - e) - mant y * 2 ^ (expo y - e)) e).

Definition ltb (x y : float) : bool :=
  let e := Z.min (expo x) (expo y) in
  mant x * 2 ^ (expo x - e) <? mant y * 2 ^ (expo y - e).

(** [max(a, b)]: [b] when it is greater than [a], otherwise [a]. *)
Definition max (a b : float) : float := if ltb a b then b else a.

(** [int(x)]: the integer part, towards zero. *)
Definition to_int (x : float) : Z :=
  if 0 <=? expo x then mant x * 2 ^ expo x
  else Z.quot (mant x) (2 ^ (- expo x)).

(** The literals [0.1], [1.2] and [0.7]: the binary64 numbers nearest to the
    decimal ones. *)
Definition lit_0_1 : float := mkFloat 3602879701896397 (-55).
Definition lit_1_2 : float := mkFloat 5404319552844595 (-52).
Definition lit_0_7 : float := mkFloat 3152519739159347 (-52).

End Binary64.

(** ** Level creation *)

(** [base_amounts], in the order of its literal. *)
Definition base_amounts : EnumDict Z := mkEnumDict 4 4 3 2.

(** [multiplier = max(0.7, 1.2 - (self.level * 0.1))] *)
Definition multiplier (level : Z) : result Binary64.float :=
  l <- Binary64.of_int level ;;
  Ok (Binary64.max Binary64.lit_0_7
        (Binary64.sub Binary64.lit_1_2 (Binary64.mul l Binary64.lit_0_1))).

(** The body of the loop of [_initialize_resources]:
    [total = max(2, int(base_amount * multiplier))]. *)
Definition initial_resource (multiplier : Binary64.float)
           (resource_type : ResourceType) (base_amount : Z) : result Resource :=
  b <- Binary64.of_int base_amount ;;
  let total := Z.max 2 (Binary64.to_int (Binary64.mul b multiplier)) in
  Ok (mkResource resource_type total total).

(** [GameState._initialize_resources]; the loop over the four items of
    [base_amounts] is unrolled. *)
Definition _initialize_resources (level : Z) : result (EnumDict Resource) :=
  m <- multiplier level ;;
  cpu <- initial_resource m CPU (get base_amounts CPU) ;;
  memoria <- initial_resource m MEMORIA (get base_amounts MEMORIA) ;;
  disco <- initial_resource m DISCO (get base_amounts DISCO) ;;
  impressora <- initial_resource m IMPRESSORA (get base_amounts IMPRESSORA) ;;
  Ok (mkEnumDict cpu memoria disco impressora).

(** The module [random], as the engine uses it: the positions that
    [random.sample] picks in its population, and the value of the [n]-th call
    of [random.randint(-1, 1)]. *)
Record RandomSource : Type := mkRandomSource {
  sample_positions : list nat;
  randint_values : nat -> Z
}.

(** What [random] guarantees: [k] distinct positions of a population of [n]
    items, and integers between -1 and 1. *)
Definition valid_random (rng : RandomSource) (n : nat) (k : Z) : Prop :=
  Z.of_nat (length (sample_positions rng)) = k /\
  NoDup (sample_positions rng) /\
  (forall i, In i (sample_positions rng) -> (i < n)%nat) /\
  (forall c, -1 <= randint_values rng c <= 1).

Fixpoint pick {A} (population : list A) (positions : list nat) : list A :=
  match positions with
  | [] => []
  | i :: positions' =>
      match nth_error population i with
      | Some x => x :: pick population positions'
      | None => pick population positions'
      end
  end.

(** [random.sample(population, k)] *)
Definition random_sample {A} (rng : RandomSource) (population : list A)
           (k : Z) : result (list A) :=
  if (k <? 0) || (Z.of_nat (length population) <? k) then Raise ValueError
  else Ok (pick population (sample_positions rng)).

Definition process_templates : list (string * Dict Z) :=
  [ ("Editor de Texto", [(CPU, 1); (MEMORIA, 2)]);
    ("Compilador", [(CPU, 2); (MEMORIA, 1); (DISCO, 1)]);
    ("Backup", [(DISCO, 2); (MEMORIA, 1)]);
    ("Impressão", [(IMPRESSORA, 1); (MEMORIA, 1)]);
    ("Antivírus", [(CPU, 1); (DISCO, 1); (MEMORIA, 1)]);
    ("Navegador", [(CPU, 2); (MEMORIA, 3)]);
    ("Streaming", [(CPU, 2); (MEMORIA, 2); (DISCO, 1)]);
    ("Banco de Dados", [(CPU, 1); (MEMORIA, 2); (DISCO, 2)]) ].

(** The inner loop of [_generate_processes] over [requirements.items()];
    [calls] is the number of calls of [random.randint] made so far. *)
Fixpoint vary_loop (level : Z) (rng : RandomSource) (items : Dict Z)
         (varied_requirements : Dict Z) (calls : nat) : Dict Z * nat :=
  match items with
  | [] => (varied_requirements, calls)
  | (resource_type, amount) :: items' =>
      let '(variation, calls) :=
        if level >? 2 then (randint_values rng calls, S calls)
        else (0, calls) in
      vary_loop level rng items'
        (Dict_ops.set varied_requirements resource_type
                      (Z.max 1 (amount + variation)))
        calls
  end.

(** The outer loop, over [enumerate(selected_templates)]. *)
Fixpoint generate_loop (level : Z) (rng : RandomSource) (i : Z)
         (selected_templates : list (string * Dict Z)) (calls : nat)
  : list Process :=
  match selected_templates with
  | [] => []
  | (name, requirements) :: selected_templates' =>
      let '(varied_requirements, calls) :=
        vary_loop level rng requirements [] calls in
      mkProcess ("P" ++ str (i + 1))%string name varied_requirements
                (build (fun _ => 0)) WAITING
      :: generate_loop level rng (i + 1) selected_templates' calls
  end.

(** [GameState._generate_processes] *)
Definition _generate_processes (level : Z) (rng : RandomSource)
  : result (list Process) :=
  let process_count := Z.min (2 + level) 6 in
  selected_templates <-
    random_sample rng process_templates
      (Z.min process_count (Z.of_nat (length process_templates))) ;;
  Ok (generate_loop level rng 0 selected_templates O).

(** [GameState.__init__] *)
Definition GameState_init (level : Z) (rng : RandomSource) : result GameState :=
  resources <- _initialize_resources level ;;
  processes <- _generate_processes level rng ;;
  Ok (mkGameState level resources processes [] 0 20).

(** ** Runs of the engine *)

(** The game states that calls of [allocate_resource] lead to from
    [start], when every call satisfies [allowed]. *)
Inductive reachable_by
          (allowed : GameState -> string -> ResourceType -> Z -> Prop)
          (start : GameState) : GameState -> Prop :=
| reachable_start : reachable_by allowed start start
| reachable_allocate self process_id resource_type amount :
    reachable_by allowed start self ->
    allowed self process_id resource_type amount ->
    reachable_by allowed start
      (snd (allocate_resource self process_id resource_type amount)).

(** Any call. *)
Definition any_call (self : GameState) (process_id : string)
           (resource_type : ResourceType) (amount : Z) : Prop := True.

(** A call with a non-negative amount. *)
Definition nonnegative_amount (self : GameState) (process_id : string)
           (resource_type : ResourceType) (amount : Z) : Prop := 0 <= amount.

(** A call whose amount does not exceed what the process still needs of a
    kind it requires. *)
Definition within_need (self : GameState) (process_id : string)
           (resource_type : ResourceType) (amount : Z) : Prop :=
  forall i process required,
    find_process (processes self) process_id = Some (i, process) ->
    Dict_ops.get (required_resources process) resource_type = Some required ->
    amount <= required - get (allocated_resources process) resource_type.

(** A game state as [GameState(level)] creates it, for a level from 1. *)
Definition created (self : GameState) : Prop :=
  exists level rng,
    1 <= level /\
    valid_random rng (length process_templates) (Z.min (2 + level) 6) /\
    GameState_init level rng = Ok self.

(** ** The properties in the words of the specification *)

(** What the not finished processes hold of a kind. *)
Definition held (resource_type : ResourceType) (processes : list Process) : Z :=
  fold_right Z.add 0
    (map (fun p => get (allocated_resources p) resource_type)
         (filter (fun p => negb (ProcessState_eqb (state p) FINISHED))
                 processes)).

Definition conservation (self : GameState) : Prop :=
  forall k,
    available (get (resources self) k) + held k (processes self)
    = total (get (resources self) k).

(** A process that conceptually finishes returns its full allocation to the
    working pool. *)
Definition give_back (process : Process) (available : EnumDict Z) : EnumDict Z :=
  build (fun k => get available k + get (allocated_resources process) k).

(** The processes of [order] can finish one after the other, in that
    order, from the availability [available]. *)
Fixpoint finish_in_order (available : EnumDict Z) (order : list Process)
  : bool :=
  match order with
  | [] => true
  | process :: order' =>
      can_finish process available &&
      finish_in_order (give_back process available) order'
  end.

(** There is some ordering in which all not finished processes can
    sequentially finish given the current availability. *)
Definition safe (self : GameState) : Prop :=
  exists order,
    Permutation order (unfinished self) /\
    finish_in_order (get_available_resources self) order = true.

(** No not finished process holds a negative amount. *)
Definition holds_no_negative (self : GameState) : Prop :=
  forall p k, In p (unfinished self) -> 0 <= get (allocated_resources p) k.

(** The queries of the engine. *)
Inductive Query : Type := Q_detect_deadlock | Q_is_level_complete.

Definition run_query (q : Query) (self : GameState) : bool * GameState :=
  match q with
  | Q_detect_deadlock => detect_deadlock self
  | Q_is_level_complete => is_level_complete self
  end.

(** The queries of [qs] called one after the other: their results and the
    game state after the last one. *)
Fixpoint run_queries (qs : list Query) (self : GameState)
  : list bool * GameState :=
  match qs with
  | [] => ([], self)
  | q :: qs' =>
      let '(b, self) := run_query q self in
      let '(bs, self) := run_queries qs' self in
      (b :: bs, self)
  end.

(** [max(2, floor(b * max(0.7, 1.2 - 0.1 * level)))], in exact arithmetic. *)
Definition spec_total (b level : Z) : Z :=
  Z.max 2 (Qfloor (inject_Z b *
                   Qmax (7 # 10) ((12 # 10) - (1 # 10) * inject_Z level))).

(** The process after [process.allocated_resources[resource_type] += amount]. *)
Definition granted (process : Process) (resource_type : ResourceType)
           (amount : Z) : Process :=
  mkProcess (id process) (name process) (required_resources process)
            (set (allocated_resources process) resource_type
                 (get (allocated_resources process) resource_type + amount))
            (state process).

(** The pool after [resource.allocate(amount)] succeeded. *)
Definition debited (resources : EnumDict Resource)
           (resource_type : ResourceType) (amount : Z) : EnumDict Resource :=
  set resources resource_type
      (mkResource (type (get resources resource_type))
                  (total (get resources resource_type))
                  (available (get resources resource_type) - amount)).

(** The pool and the process after the loop of [_finish_process]. *)
Definition released_pool (resources : EnumDict Resource) (process : Process)
  : EnumDict Resource :=
  build (fun k =>
           if get (allocated_resources process) k >? 0 then
             Resource_release (get resources k)
                              (get (allocated_resources process) k)
           else get resources k).

Definition finished (process : Process) : Process :=
  mkProcess (id process) (name process) (required_resources process)
            (build (fun k =>
                      if get (allocated_resources process) k >? 0 then 0
                      else get (allocated_resources process) k))
            FINISHED.

(** The game state after a successful call of [allocate_resource] for the
    process [p], between [l1] and [l2] in [self.processes]: when the process
    is not satisfied by the grant, and when it is. *)
Definition after_grant (self : GameState) (l1 : list Process) (p : Process)
           (l2 : list Process) (k : ResourceType) (amount : Z) : GameState :=
  mkGameState (level self) (debited (resources self) k amount)
              (l1 ++ granted p k amount :: l2)
              (game_log self ++ [allocation_entry (id p) k amount])
              (moves self + 1) (max_moves self).

Definition after_finish (self : GameState) (l1 : list Process) (p : Process)
           (l2 : list Process) (k : ResourceType) (amount : Z) : GameState :=
  mkGameState (level self)
              (released_pool (debited (resources self) k amount)
                             (granted p k amount))
              (l1 ++ finished (granted p k amount) :: l2)
              (game_log self ++ [finish_entry p; allocation_entry (id p) k amount])
              (moves self + 1) (max_moves self).

(** The five ways through [allocate_resource]. *)
Inductive outcome (self : GameState) (process_id : string)
          (k : ResourceType) (amount : Z) : bool * GameState -> Prop :=
| outcome_unknown :
    find_process (processes self) process_id = None ->
    outcome self process_id k amount (false, self)
| outcome_finished i p :
    find_process (processes self) process_id = Some (i, p) ->
    state p = FINISHED ->
    outcome self process_id k amount (false, self)
| outcome_unavailable i p :
    find_process (processes self) process_id = Some (i, p) ->
    state p <> FINISHED ->
    available (get (resources self) k) < amount ->
    outcome self process_id k amount (false, self)
| outcome_grant p l1 l2 :
    find_process (processes self) process_id = Some (length l1, p) ->
    processes self = l1 ++ p :: l2 ->
    state p <> FINISHED ->
    amount <= available (get (resources self) k) ->
    is_satisfied (granted p k amount) = false ->
    outcome self process_id k amount
            (true, after_grant self l1 p l2 k amount)
| outcome_finish p l1 l2 :
    find_process (processes self) process_id = Some (length l1, p) ->
    processes self = l1 ++ p :: l2 ->
    state p <> FINISHED ->
    amount <= available (get (resources self) k) ->
    is_satisfied (granted p k amount) = true ->
    outcome self process_id k amount
            (true, after_finish self l1 p l2 k amount).


(** ** A level 1 game, for the examples

    [random.sample] picks the templates 3, 0 and 1: P1 is "Impressão", P2
    "Editor de Texto" and P3 "Compilador". *)
Definition example_rng : RandomSource :=
  mkRandomSource [3%nat; 0%nat; 1%nat] (fun _ => 0).

Definition example_start : GameState :=
  mkGameState 1
    (mkEnumDict (mkResource CPU 4 4) (mkResource MEMORIA 4 4)
                (mkResource DISCO 3 3) (mkResource IMPRESSORA 2 2))
    [ mkProcess "P1" "Impressão" [(IMPRESSORA, 1); (MEMORIA, 1)]
                (mkEnumDict 0 0 0 0) WAITING;
      mkProcess "P2" "Editor de Texto" [(CPU, 1); (MEMORIA, 2)]
                (mkEnumDict 0 0 0 0) WAITING;
      mkProcess "P3" "Compilador" [(CPU, 2); (MEMORIA, 1); (DISCO, 1)]
                (mkEnumDict 0 0 0 0) WAITING ]
    [] 0 20.

(** The calls [calls] of [allocate_resource], one after the other. *)
Fixpoint play (self : GameState) (calls : list (string * ResourceType * Z))
  : GameState :=
  match calls with
  | [] => self
  | (process_id, k, amount) :: calls' =>
      play (snd (allocate_resource self process_id k amount)) calls'
  end.

(** The demands [required] are those of a template, [requirements], each
    with an offset of -1, 0 or 1, the offset being 0 up to level 2, and
    floored to 1. *)
Definition perturbed (level : Z) (requirements required : Dict Z) : Prop :=
  Forall2 (fun template_item item =>
             fst item = fst template_item /\
             exists offset,
               -1 <= offset <= 1 /\ (level <= 2 -> offset = 0) /\
               snd item = Z.max 1 (snd template_item + offset))
          requirements required.

(** What every template of the catalog has: distinct kinds, at least one,
    each with a demand of at least 1. *)
Definition template_ok (t : string * Dict Z) : Prop :=
  NoDup (map fst (snd t)) /\ snd t <> nil /\
  forall k v, In (k, v) (snd t) -> 1 <= v.

(** A process as [_generate_processes] makes it from the template [t]. *)
Definition generated_from (level : Z) (t : string * Dict Z) (p : Process)
  : Prop :=
  name p = fst t /\ perturbed level (snd t) (required_resources p) /\
  allocated_resources p = build (fun _ => 0) /\ state p = WAITING.


(** A process of a new level: waiting, holding nothing, and requiring at
    least one unit of at least one kind. *)
Definition fresh_process (p : Process) : Prop :=
  state p = WAITING /\ allocated_resources p = build (fun _ => 0) /\
  required_resources p <> nil /\
  forall k v, In (k, v) (required_resources p) -> 1 <= v.


(** ** Invariants of the runs *)

(** No kind has a negative availability or capacity. *)
Definition pool_not_negative (self : GameState) : Prop :=
  forall k, 0 <= available (get (resources self) k) /\
            0 <= total (get (resources self) k).

(** A process that is not Finished is not satisfied. *)
Definition waiting_unsatisfied (self : GameState) : Prop :=
  forall p, In p (processes self) -> state p <> FINISHED ->
            is_satisfied p = false.

(** No process holds a negative amount, and a Finished one holds nothing. *)
Definition holdings_not_negative (self : GameState) : Prop :=
  forall p, In p (processes self) ->
            forall k, 0 <= get (allocated_resources p) k /\
                      (state p = FINISHED -> get (allocated_resources p) k = 0).

(** No process holds more of a kind than it requires, and no requirement is
    negative. *)
Definition within_requirements (self : GameState) : Prop :=
  forall p k required,
    In p (processes self) ->
    Dict_ops.get (required_resources p) k = Some required ->
    get (allocated_resources p) k <= required /\ 0 <= required.


(** Some order of the processes of [l] lets them all finish one after the
    other from the availability [available]. *)
Definition safe_from (available : EnumDict Z) (l : list Process) : Prop :=
  exists order,
    Permutation order l /\ finish_in_order available order = true.

(** [self] with its process list replaced. *)
Definition with_processes (self : GameState) (l : list Process) : GameState :=
  mkGameState (level self) (resources self) l (game_log self) (moves self)
              (max_moves self).

(** The value of a binary64 number whose exponent is at least -55, in units
    of [2 ^ -55]. *)
Definition scaled (x : Binary64.float) : Z :=
  Binary64.mant x * 2 ^ (Binary64.expo x + 55).

(** ** The scenarios of the specification

    A pool with the given capacities, all available, and processes that
    hold nothing. *)
Definition scenario_pool (cpu memoria disco impressora : Z)
  : EnumDict Resource :=
  mkEnumDict (mkResource CPU cpu cpu) (mkResource MEMORIA memoria memoria)
             (mkResource DISCO disco disco)
             (mkResource IMPRESSORA impressora impressora).

Definition scenario_process (process_id : string) (required : Dict Z)
  : Process :=
  mkProcess process_id process_id required (build (fun _ => 0)) WAITING.

Definition scenario_1 : GameState :=
  mkGameState 1 (scenario_pool 2 0 0 0)
              [scenario_process "A" [(CPU, 1)];
               scenario_process "B" [(CPU, 1)]] [] 0 20.

Definition scenario_2 : GameState :=
  mkGameState 1 (scenario_pool 1 0 1 0)
              [scenario_process "A" [(CPU, 1); (DISCO, 1)];
               scenario_process "B" [(CPU, 1); (DISCO, 1)]] [] 0 20.

Definition scenario_3 : GameState :=
  mkGameState 1 (scenario_pool 2 0 1 0)
              [scenario_process "A" [(CPU, 1); (DISCO, 1)];
               scenario_process "B" [(CPU, 1)]] [] 0 1.

(** ** More of the engine and of its callers *)

From Stdlib Require DecimalPos DecimalZ.


(** The results of the calls [calls] of [allocate_resource], made one after
    the other from [self]. *)
Fixpoint results (self : GameState) (calls : list (string * ResourceType * Z))
  : list bool :=
  match calls with
  | [] => []
  | (process_id, k, amount) :: calls' =>
      fst (allocate_resource self process_id k amount)
      :: results (snd (allocate_resource self process_id k amount)) calls'
  end.

(** [l1] is the beginning of [l2]. *)
Definition prefix_of {A} (l1 l2 : list A) : Prop := exists l, l2 = l1 ++ l.

(** The identifiers are distinct and no process lists a kind twice among
    its requirements. *)
Definition distinct_ids (self : GameState) : Prop :=
  NoDup (map id (processes self)) /\
  forall p, In p (processes self) -> NoDup (map fst (required_resources p)).

(** *** The screen of the game ([DeadlockEscapeGame])

    The widgets are left out; what is kept is what the code decides: for
    which process and kind [update_processes_display] makes a "+" button,
    what a click on it calls, and which screen [update_game_display]
    schedules. *)

(** The inner loop of [update_processes_display], over
    [process.required_resources.items()]: a button for a kind of which the
    process holds less than it requires and some is available. *)
Fixpoint buttons_of_process (self : GameState) (process : Process)
         (items : Dict Z) : list (string * ResourceType) :=
  match items with
  | [] => []
  | (resource_type, required) :: items' =>
      let allocated := get (allocated_resources process) resource_type in
      if (allocated <? required)
         && (available (get (resources self) resource_type) >? 0)
      then (id process, resource_type)
           :: buttons_of_process self process items'
      else buttons_of_process self process items'
  end.

(** The outer loop, over [self.game_state.processes]: a Finished process is
    skipped. *)
Fixpoint buttons_loop (self : GameState) (processes : list Process)
  : list (string * ResourceType) :=
  match processes with
  | [] => []
  | process :: processes' =>
      if ProcessState_eqb (state process) FINISHED then
        buttons_loop self processes'
      else
        buttons_of_process self process (required_resources process)
        ++ buttons_loop self processes'
  end.

(** The buttons of the game screen: the arguments [pid] and [rt] of the
    call that each one makes. *)
Definition buttons (self : GameState) : list (string * ResourceType) :=
  buttons_loop self (processes self).

(** [DeadlockEscapeGame.allocate_resource], the command of a button: the
    call of the engine with the default amount of 1; [true] is for the
    warning "Recurso Indisponível". *)
Definition click (self : GameState) (process_id : string)
           (resource_type : ResourceType) : bool * GameState :=
  let '(ok, self) := allocate_resource self process_id resource_type 1 in
  (negb ok, self).

(** A click on a button of the screen. *)
Definition button_click (self : GameState) (process_id : string)
           (resource_type : ResourceType) (amount : Z) : Prop :=
  In (process_id, resource_type) (buttons self) /\ amount = 1.

(** The screens that [update_game_display] chooses between. *)
Inductive Screen : Type := GameScreen | VictoryScreen | GameOverScreen.

(** The end of [update_game_display]: the victory screen when the level is
    complete, otherwise the game over screen when the game is over. *)
Definition update_game_display (self : GameState) : Screen * GameState :=
  let '(complete, self) := is_level_complete self in
  if complete then (VictoryScreen, self)
  else
    let '(over, self) := is_game_over self in
    if over then (GameOverScreen, self) else (GameScreen, self).

(** The process needs more of some kind than is available. *)
Definition demands_too_much (available : EnumDict Z) (p : Process) : Prop :=
  exists k required,
    In (k, required) (required_resources p) /\
    get available k < required - get (allocated_resources p) k.

(** What a process still needs of a kind. *)
Definition need (p : Process) (k : ResourceType) : Z :=
  match Dict_ops.get (required_resources p) k with
  | Some required => required - get (allocated_resources p) k
  | None => 0
  end.

(** The clicks that give a process what it still needs, kind after kind and
    one unit a click. *)
Definition clicks_of (p : Process) (kinds : list ResourceType)
  : list (string * ResourceType * Z) :=
  flat_map (fun k => repeat (id p, k, 1) (Z.to_nat (need p k))) kinds.

Definition clicks_for (p : Process) : list (string * ResourceType * Z) :=
  clicks_of p ResourceType_members.

(** The clicks that complete the processes of [order] one after the
    other. *)
Definition completing_clicks (order : list Process)
  : list (string * ResourceType * Z) :=
  flat_map clicks_for order.

(** Each call of [calls], made one after the other from [self], is a click
    on a button that the screen shows at that moment. *)
Fixpoint clicks_on_buttons (self : GameState)
         (calls : list (string * ResourceType * Z)) : Prop :=
  match calls with
  | [] => True
  | (process_id, k, amount) :: calls' =>
      button_click self process_id k amount /\
      clicks_on_buttons (snd (allocate_resource self process_id k amount))
                        calls'
  end.

(** The units that a process still needs, all kinds together, and those
    that the processes that are not Finished still need. *)
Definition needs (p : Process) : Z :=
  fold_right Z.add 0 (map (need p) ResourceType_members).

Definition remaining (self : GameState) : Z :=
  fold_right Z.add 0 (map needs (unfinished self)).

(** A source of random numbers that picks six templates without
    "Navegador" and always draws 0. *)
Definition demanding_rng : RandomSource :=
  mkRandomSource [6; 7; 1; 0; 2; 4]%nat (fun _ => 0).

(** The level 4 game that it gives. *)
Definition demanding_start : GameState :=
  Eval vm_compute in
    match GameState_init 4 demanding_rng with
    | Ok self => self
    | Raise _ => example_start
    end.

(** A source of random numbers that picks the template "Navegador" first
    and always draws +1. *)
Definition unlucky_rng (level : Z) : RandomSource :=
  mkRandomSource
    (if level =? 3 then [5; 0; 1; 2; 3]%nat else [5; 0; 1; 2; 3; 4]%nat)
    (fun _ => 1).

(** A process holds nothing of a kind that it does not require. *)
Definition holds_only_required (self : GameState) : Prop :=
  forall p k, In p (processes self) ->
              ~ In k (map fst (required_resources p)) ->
              get (allocated_resources p) k = 0.
(** * Proofs *)

(** ** Dictionaries and lists *)

Section EnumDict_facts.
Context {V : Type}.
Implicit Types (d : EnumDict V) (k : ResourceType).

Lemma get_set_same d k v : get (set d k v) k = v.
Proof. destruct k; reflexivity. Qed.

Lemma get_set_other d k k' v : k <> k' -> get (set d k v) k' = get d k'.
Proof. destruct k, k'; intros H; try reflexivity; contradiction H; reflexivity. Qed.

Lemma get_build (f : ResourceType -> V) k : get (build f) k = f k.
Proof. destruct k; reflexivity. Qed.

Lemma set_get_same d k : set d k (get d k) = d.
Proof. destruct d, k; reflexivity. Qed.

Lemma EnumDict_ext d d' : (forall k, get d k = get d' k) -> d = d'.
Proof.
  intros H. destruct d, d'.
  pose proof (H CPU) as H1. pose proof (H MEMORIA) as H2.
  pose proof (H DISCO) as H3. pose proof (H IMPRESSORA) as H4.
  simpl in *. congruence.
Qed.
End EnumDict_facts.

Lemma ResourceType_eqb_eq a b : ResourceType_eqb a b = true <-> a = b.
Proof. destruct a, b; simpl; split; intros H; try reflexivity; discriminate H. Qed.

Lemma ResourceType_eq_dec (a b : ResourceType) : {a = b} + {a <> b}.
Proof. decide equality. Qed.

Lemma ProcessState_eqb_eq a b : ProcessState_eqb a b = true <-> a = b.
Proof. destruct a, b; simpl; split; intros H; try reflexivity; discriminate H. Qed.

Lemma not_finished_eqb p :
  ProcessState_eqb (state p) FINISHED = false <-> state p <> FINISHED.
Proof.
  destruct (state p); simpl; split; intros H; try reflexivity;
    try discriminate; try (intros E; discriminate E).
  contradiction H. reflexivity.
Qed.

Lemma list_set_app {A} (l1 l2 : list A) (x y : A) :
  list_set (l1 ++ x :: l2) (length l1) y = l1 ++ y :: l2.
Proof. induction l1 as [|a l1 IH]; simpl; [reflexivity | now rewrite IH]. Qed.

Lemma find_process_split l process_id i p :
  find_process l process_id = Some (i, p) ->
  exists l1 l2,
    l = l1 ++ p :: l2 /\ length l1 = i /\ id p = process_id /\
    (forall q, In q l1 -> id q <> process_id).
Proof.
  revert i. induction l as [|a l IH]; simpl; intros i H; [discriminate|].
  destruct (String.eqb (id a) process_id) eqn:E.
  - inversion H; subst. exists [], l. apply String.eqb_eq in E.
    repeat split; [exact E | intros q []].
  - destruct (find_process l process_id) as [[j q]|] eqn:F; [|discriminate].
    inversion H; subst. destruct (IH j eq_refl) as (l1 & l2 & -> & Hl & Hid & Hn).
    exists (a :: l1), l2. simpl. repeat split; [now rewrite Hl | exact Hid |].
    intros q [<- | Hq]; [now apply String.eqb_neq | now apply Hn].
Qed.

(** ** The loops over the four kinds *)

Lemma give_back_loop_items p available :
  give_back_loop (items (allocated_resources p)) available
  = give_back p available.
Proof. destruct available. reflexivity. Qed.

Lemma release_loop_items resources p :
  release_loop (items (allocated_resources p)) resources
               (allocated_resources p)
  = (released_pool resources p, allocated_resources (finished p)).
Proof.
  unfold released_pool, finished, items, build. simpl.
  destruct (allocated_resources p) as [a b c d], resources as [ra rb rc rd].
  simpl.
  destruct (a >? 0), (b >? 0), (c >? 0), (d >? 0); reflexivity.
Qed.

Lemma _finish_process_eq self i p :
  _finish_process self i p
  = mkGameState (level self) (released_pool (resources self) p)
                (list_set (processes self) i (finished p))
                (game_log self ++ [finish_entry p])
                (moves self) (max_moves self).
Proof.
  unfold _finish_process. rewrite release_loop_items. reflexivity.
Qed.

(** ** allocate_resource, case by case *)

Lemma allocate_resource_outcome self process_id k amount :
  outcome self process_id k amount
          (allocate_resource self process_id k amount).
Proof.
  unfold allocate_resource.
  destruct (find_process (processes self) process_id) as [[i p]|] eqn:F;
    [|now apply outcome_unknown].
  destruct (ProcessState_eqb (state p) FINISHED) eqn:S.
  - apply ProcessState_eqb_eq in S. now apply outcome_finished with i p.
  - apply not_finished_eqb in S.
    unfold Resource_allocate.
    destruct (available (get (resources self) k) >=? amount) eqn:A.
    + apply Z.geb_le in A.
      destruct (find_process_split _ _ _ _ F) as (l1 & l2 & Hl & Hi & _).
      subst i.
      fold (granted p k amount). fold (debited (resources self) k amount).
      destruct (is_satisfied (granted p k amount)) eqn:Sat.
      * rewrite _finish_process_eq. simpl.
        rewrite Hl, !list_set_app, <- app_assoc. simpl.
        replace (finish_entry (granted p k amount)) with (finish_entry p)
          by reflexivity.
        now apply outcome_finish.
      * simpl. rewrite Hl, list_set_app.
        now apply outcome_grant.
    + rewrite Z.geb_leb in A. apply Z.leb_gt in A.
      now apply outcome_unavailable with i p.
Qed.

(** The case analysis of a call, with the names the proofs below use: [F]
    for the lookup, [S] for the state of the process, [A] for the
    availability, [Hl] for the place of the process in the list and [Sat]
    for the test of [is_satisfied]. *)
Ltac outcome_cases self process_id k amount :=
  destruct (allocate_resource_outcome self process_id k amount)
    as [F | i p F S | i p F S A | p l1 l2 F Hl S A Sat
        | p l1 l2 F Hl S A Sat].

(** ** The example game *)

Lemma example_valid_random :
  valid_random example_rng (length process_templates) (Z.min (2 + 1) 6).
Proof.
  unfold valid_random, example_rng. simpl.
  split; [reflexivity|]. split; [|split].
  - repeat constructor; simpl; intuition discriminate.
  - intros i [<- | [<- | [<- | []]]]; lia.
  - intros _. lia.
Qed.

Lemma example_start_init : GameState_init 1 example_rng = Ok example_start.
Proof. vm_compute. reflexivity. Qed.

Lemma example_start_created : created example_start.
Proof.
  exists 1, example_rng. split; [lia|].
  split; [exact example_valid_random | exact example_start_init].
Qed.

Lemma play_reachable allowed start self calls :
  reachable_by allowed start self ->
  (forall s process_id k amount, In (process_id, k, amount) calls ->
                                 allowed s process_id k amount) ->
  reachable_by allowed start (play self calls).
Proof.
  revert self. induction calls as [|[[process_id k] amount] calls IH];
    simpl; intros self R H; [exact R|].
  apply IH; [|intros; apply H; now right].
  apply reachable_allocate; [exact R | apply H; now left].
Qed.


(** ** Level creation: the processes *)

Lemma Dict_set_fresh {V} (d : Dict V) k (v : V) :
  ~ In k (map fst d) -> Dict_ops.set d k v = d ++ [(k, v)].
Proof.
  induction d as [|[k' v'] d IH]; simpl; intros H; [reflexivity|].
  destruct (ResourceType_eqb k' k) eqn:E.
  - apply ResourceType_eqb_eq in E. contradiction H. now left.
  - rewrite IH; [reflexivity | intros I; apply H; now right].
Qed.

Lemma vary_loop_perturbed level rng items acc calls :
  (forall c, -1 <= randint_values rng c <= 1) ->
  NoDup (map fst items) ->
  (forall k, In k (map fst items) -> ~ In k (map fst acc)) ->
  exists required,
    fst (vary_loop level rng items acc calls) = acc ++ required /\
    perturbed level items required.
Proof.
  intros Hr. revert acc calls.
  induction items as [|[k a] items IH]; simpl; intros acc calls ND Fresh.
  - exists []. split; [now rewrite app_nil_r | constructor].
  - inversion ND as [|? ? Hk ND']; subst.
    set (draw := if level >? 2 then (randint_values rng calls, S calls)
                 else (0, calls)).
    assert (Hd : -1 <= fst draw <= 1 /\ (level <= 2 -> fst draw = 0)).
    { unfold draw. destruct (level >? 2) eqn:L; simpl.
      - split; [apply Hr | intros; apply Z.gtb_lt in L; lia].
      - split; [lia | reflexivity]. }
    destruct draw as [variation calls'] eqn:D. simpl in Hd.
    rewrite Dict_set_fresh by (apply Fresh; now left).
    destruct (IH (acc ++ [(k, Z.max 1 (a + variation))]) calls' ND')
      as (required & E & P).
    { intros k' I. rewrite map_app, in_app_iff. simpl.
      intros [J | [<- | []]]; [|contradiction].
      apply (Fresh k'); [now right | exact J]. }
    exists ((k, Z.max 1 (a + variation)) :: required). split.
    + rewrite E, <- app_assoc. reflexivity.
    + constructor; [|exact P]. simpl. split; [reflexivity|].
      exists variation. intuition.
Qed.

Lemma perturbed_positive level requirements required :
  perturbed level requirements required ->
  forall k v, In (k, v) required -> 1 <= v.
Proof.
  induction 1 as [|t x ts xs (_ & o & _ & _ & E) _ IH]; intros k v I;
    [contradiction|].
  destruct I as [I | I]; [subst x; simpl in E; lia | now apply (IH k)].
Qed.

Lemma perturbed_unchanged level requirements required :
  level <= 2 -> (forall k v, In (k, v) requirements -> 1 <= v) ->
  perturbed level requirements required ->
  required = requirements.
Proof.
  intros L Pos P. induction P as [|[k a] [k' v] ts xs (K & o & _ & Z0 & E) _ IH];
    [reflexivity|].
  simpl in *. rewrite (Z0 L) in E.
  assert (1 <= a) by (apply (Pos k); now left).
  rewrite IH by (intros k0 v0 I; apply (Pos k0); now right).
  f_equal. f_equal; [exact K | lia].
Qed.

Lemma pick_In {A} (population : list A) positions x :
  In x (pick population positions) -> In x population.
Proof.
  induction positions as [|i positions IH]; simpl; [contradiction|].
  destruct (nth_error population i) eqn:E; [|exact IH].
  intros [<- | I]; [now apply nth_error_In with i | now apply IH].
Qed.

Lemma pick_length {A} (population : list A) positions :
  (forall i, In i positions -> (i < length population)%nat) ->
  length (pick population positions) = length positions.
Proof.
  induction positions as [|i positions IH]; simpl; intros H; [reflexivity|].
  destruct (nth_error population i) eqn:E.
  - simpl. rewrite IH; [reflexivity | intros; apply H; now right].
  - apply nth_error_None in E. specialize (H i (or_introl eq_refl)). lia.
Qed.

Lemma process_templates_ok : Forall template_ok process_templates.
Proof.
  unfold process_templates.
  repeat constructor; simpl; try discriminate;
    try (intuition discriminate);
    try (intros k v I; repeat destruct I as [I | I];
         try contradiction; inversion I; lia).
Qed.

Lemma generate_loop_spec level rng i selected calls :
  (forall c, -1 <= randint_values rng c <= 1) ->
  Forall template_ok selected ->
  Forall2 (generated_from level) selected
          (generate_loop level rng i selected calls).
Proof.
  intros Hr. revert i calls.
  induction selected as [|[name requirements] selected IH]; simpl;
    intros i calls Ok; [constructor|].
  inversion Ok as [|? ? (ND & _ & _) Ok']; subst.
  destruct (vary_loop_perturbed level rng requirements [] calls Hr ND)
    as (required & E & P); [intros k _ []|].
  destruct (vary_loop level rng requirements [] calls) as [varied calls'].
  simpl in E. subst varied.
  constructor; [|now apply IH].
  repeat split. exact P.
Qed.

Lemma _generate_processes_spec level rng :
  1 <= level ->
  valid_random rng (length process_templates) (Z.min (2 + level) 6) ->
  _generate_processes level rng
  = Ok (generate_loop level rng 0
                      (pick process_templates (sample_positions rng)) O) /\
  Forall2 (generated_from level)
          (pick process_templates (sample_positions rng))
          (generate_loop level rng 0
                         (pick process_templates (sample_positions rng)) O).
Proof.
  intros L (_ & _ & _ & Hr). split.
  - unfold _generate_processes, random_sample. simpl length.
    replace (Z.min (Z.min (2 + level) 6) (Z.of_nat 8) <? 0) with false
      by (symmetry; apply Z.ltb_ge; lia).
    replace (Z.of_nat 8 <? Z.min (Z.min (2 + level) 6) (Z.of_nat 8)) with false
      by (symmetry; apply Z.ltb_ge; lia).
    reflexivity.
  - apply generate_loop_spec; [exact Hr|].
    apply Forall_forall. intros t I. apply pick_In in I.
    revert t I. apply Forall_forall. exact process_templates_ok.
Qed.

Lemma generated_from_fresh level t p :
  template_ok t -> generated_from level t p -> fresh_process p.
Proof.
  intros (_ & NE & _) (_ & P & A & S). repeat split; try assumption.
  - intros E. rewrite E in P. inversion P; subst. now apply NE.
  - now apply (perturbed_positive level (snd t)).
Qed.

Lemma Forall2_Forall_r {A B} (R : A -> B -> Prop) (P : A -> Prop)
      (Q : B -> Prop) l l' :
  (forall a b, P a -> R a b -> Q b) ->
  Forall P l -> Forall2 R l l' -> Forall Q l'.
Proof.
  intros H F R2. induction R2; [constructor|].
  inversion F; subst. constructor; eauto.
Qed.

(** ** Level creation: the pool *)

Lemma initial_resource_spec m k b r :
  initial_resource m k b = Ok r ->
  type r = k /\ available r = total r /\ 2 <= total r.
Proof.
  unfold initial_resource, bind.
  destruct (Binary64.of_int b); [|discriminate].
  intros E. inversion E; subst. simpl. repeat split. lia.
Qed.

Lemma _initialize_resources_spec level resources :
  _initialize_resources level = Ok resources ->
  forall k, type (get resources k) = k /\
            available (get resources k) = total (get resources k) /\
            2 <= total (get resources k).
Proof.
  unfold _initialize_resources, bind.
  destruct (multiplier level) as [m|]; [|discriminate].
  destruct (initial_resource m CPU _) as [r1|] eqn:E1; [|discriminate].
  destruct (initial_resource m MEMORIA _) as [r2|] eqn:E2; [|discriminate].
  destruct (initial_resource m DISCO _) as [r3|] eqn:E3; [|discriminate].
  destruct (initial_resource m IMPRESSORA _) as [r4|] eqn:E4; [|discriminate].
  intros E. inversion E; subst.
  intros []; simpl; eapply initial_resource_spec; eassumption.
Qed.

(** ** A new level *)

Lemma created_facts self :
  created self ->
  (forall k, available (get (resources self) k) = total (get (resources self) k)
             /\ 2 <= total (get (resources self) k)) /\
  Forall fresh_process (processes self) /\
  game_log self = [] /\ moves self = 0 /\ max_moves self = 20.
Proof.
  intros (level & rng & L & V & I).
  unfold GameState_init, bind in I.
  destruct (_initialize_resources level) as [res|] eqn:R; [|discriminate].
  destruct (_generate_processes_spec level rng L V) as (G & F).
  rewrite G in I. inversion I; subst. simpl.
  split; [|split; [|repeat split]].
  - intros k. now destruct (_initialize_resources_spec _ _ R k) as (_ & ? & ?).
  - eapply Forall2_Forall_r; [| |exact F].
    + intros t p T GF. exact (generated_from_fresh level t p T GF).
    + apply Forall_forall. intros t I'. apply pick_In in I'.
      revert t I'. apply Forall_forall. exact process_templates_ok.
Qed.

(** C9. For every level from 1 and whatever [random] returns,
    [_generate_processes] returns its processes, it does not raise; each
    process has the demands of its template with an offset of -1, 0 or 1,
    which is 0 up to level 2, floored to 1, so that every demand is at
    least 1, and it holds 0 of every kind; up to level 2 the demands are the
    template's. *)
Theorem generate_processes_demands level rng :
  1 <= level ->
  valid_random rng (length process_templates) (Z.min (2 + level) 6) ->
  let selected := pick process_templates (sample_positions rng) in
  exists generated,
    _generate_processes level rng = Ok generated /\
    Forall2 (fun t p => perturbed level (snd t) (required_resources p))
            selected generated /\
    Forall (fun p =>
              (forall k v, In (k, v) (required_resources p) -> 1 <= v) /\
              (forall k, get (allocated_resources p) k = 0))
           generated /\
    (level <= 2 -> map required_resources generated = map snd selected).
Proof.
  intros L V selected.
  destruct (_generate_processes_spec level rng L V) as (G & F).
  fold selected in G, F.
  assert (T : Forall template_ok selected).
  { apply Forall_forall. intros t I. apply pick_In in I.
    revert t I. apply Forall_forall. exact process_templates_ok. }
  exists (generate_loop level rng 0 selected O).
  split; [exact G|]. split; [|split].
  - clear G T. induction F as [|t p ts ps (_ & P & _) _ IH]; constructor; assumption.
  - eapply Forall2_Forall_r; [| exact T | exact F].
    intros t p Tt (_ & P & A & _). split.
    + now apply (perturbed_positive level (snd t)).
    + intros k. rewrite A. apply get_build.
  - intros L2. clear G.
    induction F as [|t p ts ps (_ & P & _) _ IH]; [reflexivity|].
    inversion T as [|? ? (_ & _ & Pos) T']; subst. simpl.
    rewrite IH by assumption.
    now rewrite (perturbed_unchanged level (snd t) _ L2 Pos P).
Qed.

Lemma generate_processes_demands_witness :
  exists generated,
    _generate_processes 1 example_rng = Ok generated /\
    Forall2 (fun t p => perturbed 1 (snd t) (required_resources p))
            (pick process_templates (sample_positions example_rng))
            generated /\
    Forall (fun p =>
              (forall k v, In (k, v) (required_resources p) -> 1 <= v) /\
              (forall k, get (allocated_resources p) k = 0))
           generated /\
    (1 <= 2 -> map required_resources generated
               = map snd (pick process_templates
                               (sample_positions example_rng))).
Proof.
  apply (generate_processes_demands 1 example_rng);
    [lia | exact example_valid_random].
Defined.

(** ** C4: what a call of allocate_resource does *)





(** ** Invariants of the runs *)

Lemma reachable_by_ind_inv allowed (Inv : GameState -> Prop) start :
  Inv start ->
  (forall s process_id k amount,
     Inv s -> allowed s process_id k amount ->
     Inv (snd (allocate_resource s process_id k amount))) ->
  forall s, reachable_by allowed start s -> Inv s.
Proof. intros I Step s R. induction R; [exact I | now apply Step]. Qed.

Lemma granted_state p k amount : state (granted p k amount) = state p.
Proof. reflexivity. Qed.

Lemma granted_zero p k : granted p k 0 = p.
Proof.
  destruct p as [i n r a s]. unfold granted. simpl.
  now rewrite Z.add_0_r, set_get_same.
Qed.

Lemma debited_zero resources k : debited resources k 0 = resources.
Proof.
  unfold debited. rewrite Z.sub_0_r.
  replace (mkResource _ _ _) with (get resources k)
    by (now destruct (get resources k)).
  apply set_get_same.
Qed.

Lemma debited_get resources k amount k' :
  total (get (debited resources k amount) k') = total (get resources k') /\
  available (get (debited resources k amount) k')
  = available (get resources k') - (if ResourceType_eq_dec k k' then amount else 0).
Proof.
  unfold debited. destruct (ResourceType_eq_dec k k') as [<- | N].
  - rewrite get_set_same. simpl. split; reflexivity.
  - rewrite get_set_other by assumption. split; [reflexivity | lia].
Qed.

Lemma granted_get p k amount k' :
  get (allocated_resources (granted p k amount)) k'
  = get (allocated_resources p) k'
    + (if ResourceType_eq_dec k k' then amount else 0).
Proof.
  unfold granted. simpl. destruct (ResourceType_eq_dec k k') as [<- | N].
  - now rewrite get_set_same.
  - rewrite get_set_other by assumption. lia.
Qed.

Lemma released_pool_get resources p k :
  total (get (released_pool resources p) k) = total (get resources k) /\
  available (get (released_pool resources p) k)
  = if get (allocated_resources p) k >? 0 then
      Z.min (total (get resources k))
            (available (get resources k) + get (allocated_resources p) k)
    else available (get resources k).
Proof.
  unfold released_pool. rewrite get_build.
  destruct (get (allocated_resources p) k >? 0); split; reflexivity.
Qed.

Lemma finished_get p k :
  get (allocated_resources (finished p)) k
  = if get (allocated_resources p) k >? 0 then 0
    else get (allocated_resources p) k.
Proof. unfold finished. simpl. apply get_build. Qed.

Lemma fresh_process_unsatisfied p : fresh_process p -> is_satisfied p = false.
Proof.
  intros (_ & A & NE & Pos). unfold is_satisfied.
  destruct (required_resources p) as [|[k v] rest]; [contradiction NE; reflexivity|].
  simpl. rewrite A, get_build.
  assert (1 <= v) by (apply (Pos k); now left).
  replace (0 <? v) with true by (symmetry; apply Z.ltb_lt; lia). reflexivity.
Qed.

(** *** Whatever the amounts *)

Lemma pool_not_negative_step self process_id k amount :
  pool_not_negative self ->
  pool_not_negative (snd (allocate_resource self process_id k amount)).
Proof.
  intros P.
  outcome_cases self process_id k amount; try exact P; intros k'; simpl.
  - destruct (debited_get (resources self) k amount k') as (T & Av).
    rewrite T, Av. destruct (P k'), (ResourceType_eq_dec k k'); subst; lia.
  - destruct (released_pool_get (debited (resources self) k amount)
                                (granted p k amount) k') as (T & Av).
    destruct (debited_get (resources self) k amount k') as (T' & Av').
    rewrite T, Av, T', Av'.
    destruct (get (allocated_resources (granted p k amount)) k' >? 0) eqn:G;
      [apply Z.gtb_lt in G|];
      destruct (P k'), (ResourceType_eq_dec k k'); subst; lia.
Qed.

Lemma waiting_unsatisfied_step self process_id k amount :
  waiting_unsatisfied self ->
  waiting_unsatisfied (snd (allocate_resource self process_id k amount)).
Proof.
  intros W.
  outcome_cases self process_id k amount; try exact W; intros q I NF; simpl in I;
    apply in_app_iff in I; destruct I as [I | [<- | I]];
    try (apply W; [rewrite Hl; apply in_app_iff; simpl; tauto | exact NF]).
  exact Sat.
Qed.

Lemma created_any_invariants start self :
  created start -> reachable_by any_call start self ->
  pool_not_negative self /\ waiting_unsatisfied self.
Proof.
  intros C R. destruct (created_facts _ C) as (Pool & Fresh & _).
  revert self R.
  apply (reachable_by_ind_inv any_call
           (fun s => pool_not_negative s /\ waiting_unsatisfied s)).
  - split.
    + intros k. destruct (Pool k). lia.
    + intros p I _. apply fresh_process_unsatisfied.
      revert p I. now apply Forall_forall.
  - intros s process_id k amount (P & W) _. split;
      [now apply pool_not_negative_step | now apply waiting_unsatisfied_step].
Qed.

(** ** C10: a request for nothing *)

Lemma zero_request self process_id k i p :
  pool_not_negative self -> waiting_unsatisfied self ->
  find_process (processes self) process_id = Some (i, p) ->
  state p <> FINISHED ->
  allocate_resource self process_id k 0
  = (true,
     mkGameState (level self) (resources self) (processes self)
                 (game_log self ++ [allocation_entry process_id k 0])
                 (moves self + 1) (max_moves self)).
Proof.
  intros P W F NF.
  destruct (find_process_split _ _ _ _ F) as (l1' & l2' & Hl' & _ & Hid & _).
  assert (Sat : is_satisfied p = false).
  { apply W; [rewrite Hl'; apply in_app_iff; simpl; tauto | exact NF]. }
  destruct (allocate_resource_outcome self process_id k 0)
    as [F' | j q F' S' | j q F' S' A' | q l1 l2 F' Hl S' A' Sat'
        | q l1 l2 F' Hl S' A' Sat'];
    try (rewrite F in F'; inversion F'; subst i q); try congruence.
  - destruct (P k). lia.
  - unfold after_grant. now rewrite granted_zero, debited_zero, <- Hl, Hid.
  - rewrite granted_zero in Sat'. congruence.
Qed.

(** [n] requests for nothing, one after the other. *)
Lemma zero_requests self process_id k i p n :
  pool_not_negative self -> waiting_unsatisfied self ->
  find_process (processes self) process_id = Some (i, p) ->
  state p <> FINISHED ->
  play self (repeat (process_id, k, 0) n)
  = mkGameState (level self) (resources self) (processes self)
                (game_log self ++ repeat (allocation_entry process_id k 0) n)
                (moves self + Z.of_nat n) (max_moves self).
Proof.
  intros P W F NF. revert self P W F.
  induction n as [|n IH]; intros self P W F.
  - simpl. rewrite app_nil_r, Z.add_0_r. now destruct self.
  - cbn [repeat play]. rewrite (zero_request self process_id k i p P W F NF).
    cbn [snd]. rewrite IH; try assumption. cbn [level resources processes game_log moves max_moves].
    rewrite <- app_assoc. f_equal. lia.
Qed.

(** C10. In every game state that calls of [allocate_resource] lead to
    from a new level, a request for 0 units for a process that exists and is
    not Finished returns true, adds one to the move counter and one entry to
    the log, and leaves the pool and every process as they were; so [n] such
    requests in a row add [n] to the move counter and move no resource. *)
Theorem zero_amount_request start self process_id k i p :
  created start -> reachable_by any_call start self ->
  find_process (processes self) process_id = Some (i, p) ->
  state p <> FINISHED ->
  allocate_resource self process_id k 0
  = (true,
     mkGameState (level self) (resources self) (processes self)
                 (game_log self ++ [allocation_entry process_id k 0])
                 (moves self + 1) (max_moves self)) /\
  forall n,
    play self (repeat (process_id, k, 0) n)
    = mkGameState (level self) (resources self) (processes self)
                  (game_log self ++ repeat (allocation_entry process_id k 0) n)
                  (moves self + Z.of_nat n) (max_moves self).
Proof.
  intros C R F NF.
  destruct (created_any_invariants start self C R) as (P & W).
  split; [now apply zero_request with i p|].
  intros n. now apply zero_requests with i p.
Qed.

Lemma zero_amount_request_witness :
  allocate_resource example_start "P1" CPU 0
  = (true,
     mkGameState (level example_start) (resources example_start)
                 (processes example_start)
                 (game_log example_start ++ [allocation_entry "P1" CPU 0])
                 (moves example_start + 1) (max_moves example_start)) /\
  forall n,
    play example_start (repeat ("P1", CPU, 0) n)
    = mkGameState (level example_start) (resources example_start)
                  (processes example_start)
                  (game_log example_start
                   ++ repeat (allocation_entry "P1" CPU 0) n)
                  (moves example_start + Z.of_nat n) (max_moves example_start).
Proof.
  apply (zero_amount_request example_start example_start "P1" CPU 0%nat
           (mkProcess "P1" "Impressão" [(IMPRESSORA, 1); (MEMORIA, 1)]
                      (mkEnumDict 0 0 0 0) WAITING)).
  - exact example_start_created.
  - apply reachable_start.
  - reflexivity.
  - discriminate.
Defined.

(** *** With amounts that are not negative *)

Lemma held_app k l1 l2 : held k (l1 ++ l2) = held k l1 + held k l2.
Proof.
  unfold held. rewrite filter_app, map_app.
  induction (map _ (filter _ l1)) as [|x xs IH]; simpl; lia.
Qed.

Lemma held_cons k p l :
  held k (p :: l)
  = (if ProcessState_eqb (state p) FINISHED then 0
     else get (allocated_resources p) k) + held k l.
Proof.
  unfold held. simpl.
  destruct (ProcessState_eqb (state p) FINISHED); simpl; lia.
Qed.

Lemma held_not_negative k l :
  (forall p, In p l -> 0 <= get (allocated_resources p) k) ->
  0 <= held k l.
Proof.
  induction l as [|p l IH]; intros H; [unfold held; simpl; lia|].
  rewrite held_cons.
  assert (0 <= held k l) by (apply IH; intros; apply H; now right).
  assert (0 <= get (allocated_resources p) k) by (apply H; now left).
  destruct (ProcessState_eqb (state p) FINISHED); lia.
Qed.

Lemma holdings_not_negative_step self process_id k amount :
  0 <= amount ->
  holdings_not_negative self ->
  holdings_not_negative (snd (allocate_resource self process_id k amount)).
Proof.
  intros NN H.
  outcome_cases self process_id k amount; try exact H; intros q I k'; simpl in I;
    apply in_app_iff in I; destruct I as [I | [<- | I]];
    try (apply H; rewrite Hl; apply in_app_iff; simpl; tauto);
    assert (Hp : 0 <= get (allocated_resources p) k')
      by (apply H; rewrite Hl; apply in_app_iff; simpl; tauto).
  - rewrite granted_get, granted_state. split; [|contradiction].
    destruct (ResourceType_eq_dec k k'); lia.
  - rewrite finished_get, granted_get.
    destruct (_ >? 0) eqn:G; [lia|].
    rewrite Z.gtb_ltb in G. apply Z.ltb_ge in G.
    destruct (ResourceType_eq_dec k k'); lia.
Qed.

Lemma conservation_step self process_id k amount :
  0 <= amount ->
  holdings_not_negative self -> conservation self ->
  conservation (snd (allocate_resource self process_id k amount)).
Proof.
  intros NN H C.
  outcome_cases self process_id k amount; try exact C; intros k'; simpl;
    specialize (C k'); rewrite Hl, held_app, held_cons in C;
    apply not_finished_eqb in S; rewrite S in C;
    rewrite held_app, held_cons.
  - rewrite granted_state, S, granted_get.
    destruct (debited_get (resources self) k amount k') as (-> & ->). lia.
  - simpl.
    destruct (released_pool_get (debited (resources self) k amount)
                                (granted p k amount) k') as (-> & ->).
    rewrite granted_get.
    destruct (debited_get (resources self) k amount k') as (-> & ->).
    assert (0 <= held k' l1).
    { apply held_not_negative. intros q I. apply H. rewrite Hl.
      apply in_app_iff. now left. }
    assert (0 <= held k' l2).
    { apply held_not_negative. intros q I. apply H. rewrite Hl.
      apply in_app_iff. right. now right. }
    assert (0 <= get (allocated_resources p) k').
    { apply H. rewrite Hl. apply in_app_iff. right. now left. }
    destruct (_ >? 0) eqn:G; [lia|].
    rewrite Z.gtb_ltb in G. apply Z.ltb_ge in G.
    destruct (ResourceType_eq_dec k k'); lia.
Qed.

Lemma total_step self process_id k amount k' :
  total (get (resources (snd (allocate_resource self process_id k amount))) k')
  = total (get (resources self) k').
Proof.
  outcome_cases self process_id k amount; try reflexivity; simpl.
  - apply debited_get.
  - destruct (released_pool_get (debited (resources self) k amount)
                                (granted p k amount) k') as (-> & _).
    apply debited_get.
Qed.

Lemma created_nonnegative_invariants start self :
  created start -> reachable_by nonnegative_amount start self ->
  holdings_not_negative self /\ conservation self.
Proof.
  intros C R. destruct (created_facts _ C) as (Pool & Fresh & _).
  revert self R.
  apply (reachable_by_ind_inv nonnegative_amount
           (fun s => holdings_not_negative s /\ conservation s)).
  - assert (Z0 : forall p, In p (processes start) ->
                           forall k, get (allocated_resources p) k = 0).
    { intros p I k. rewrite Forall_forall in Fresh.
      destruct (Fresh p I) as (_ & -> & _). apply get_build. }
    split.
    + intros p I k. rewrite (Z0 p I k). split; [lia | reflexivity].
    + intros k. destruct (Pool k) as (-> & _).
      assert (held k (processes start) = 0); [|lia].
      clear Fresh. induction (processes start) as [|p l IH]; [reflexivity|].
      rewrite held_cons, IH by (intros; apply Z0; now right).
      rewrite (Z0 p) by now left.
      now destruct (ProcessState_eqb _ _).
  - intros s process_id k amount (H & Co) NN. split;
      [now apply holdings_not_negative_step | now apply conservation_step].
Qed.

(** ** C2: conservation *)

(** C2, as the code has it. From a new level, [total[kind]] never changes,
    whatever the calls of [allocate_resource]; and as long as no call has a
    negative amount, [available[kind]] plus what the processes that are not
    Finished hold of the kind is [total[kind]]. *)
Theorem conservation_invariant start self :
  created start ->
  (reachable_by any_call start self ->
   forall k, total (get (resources self) k) = total (get (resources start) k))
  /\
  (reachable_by nonnegative_amount start self -> conservation self).
Proof.
  intros C. split.
  - intros R k. revert self R.
    apply (reachable_by_ind_inv any_call
             (fun s => total (get (resources s) k)
                       = total (get (resources start) k)));
      [reflexivity|].
    intros s process_id k' amount E _. now rewrite total_step.
  - intros R. now apply (created_nonnegative_invariants start self C R).
Qed.

Lemma conservation_invariant_witness :
  (forall k,
     total (get (resources (play example_start [("P2", MEMORIA, 2);
                                                 ("P2", CPU, 1)])) k)
     = total (get (resources example_start) k)) /\
  conservation (play example_start [("P2", MEMORIA, 2); ("P2", CPU, 1)]).
Proof.
  destruct (conservation_invariant
              example_start
              (play example_start [("P2", MEMORIA, 2); ("P2", CPU, 1)])
              example_start_created) as (T & Co).
  split; [apply T | apply Co]; apply play_reachable;
    try apply reachable_start.
  - intros. exact I.
  - intros s process_id k amount [E | [E | []]]; inversion E;
      unfold nonnegative_amount; lia.
Defined.

(** C2 as it is stated fails when a call has a negative amount: P1 is
    "granted" -1 CPU, which makes five CPU available out of four; P2 then
    completes, and the release of its CPU is capped at the capacity. Four
    CPU are available and P1 holds -1: three, not the four of the
    capacity. *)
Lemma conservation_invariant_counterexample :
  let self := play example_start
                   [("P1", CPU, -1); ("P2", MEMORIA, 2); ("P2", CPU, 1)] in
  created example_start /\
  reachable_by any_call example_start self /\
  available (get (resources self) CPU) + held CPU (processes self) = 3 /\
  total (get (resources self) CPU) = 4 /\
  ~ conservation self.
Proof.
  intros self. split; [exact example_start_created|].
  split; [apply play_reachable; [apply reachable_start | intros; exact I]|].
  split; [reflexivity|]. split; [reflexivity|].
  intros Co. specialize (Co CPU). vm_compute in Co. discriminate Co.
Qed.

(** ** C5: a process that finishes releases what it holds *)

(** C5, as the code has it. From a new level and as long as no call has a
    negative amount: no Finished process holds anything; and a call that is
    not declined and satisfies its process leaves it Finished, holding 0 of
    every kind, with what it held and what it was just granted added to
    what was available before the call. *)
Theorem finish_releases start self :
  created start -> reachable_by nonnegative_amount start self ->
  (forall p k, In p (processes self) -> state p = FINISHED ->
               get (allocated_resources p) k = 0) /\
  (forall process_id k amount i p,
     0 <= amount ->
     find_process (processes self) process_id = Some (i, p) ->
     state p <> FINISHED ->
     amount <= available (get (resources self) k) ->
     is_satisfied (granted p k amount) = true ->
     let r := allocate_resource self process_id k amount in
     fst r = true /\
     exists q,
       nth_error (processes (snd r)) i = Some q /\
       state q = FINISHED /\
       (forall k', get (allocated_resources q) k' = 0) /\
       (forall k', available (get (resources (snd r)) k')
                   = available (get (resources self) k')
                     + get (allocated_resources p) k')).
Proof.
  intros C R.
  destruct (created_nonnegative_invariants start self C R) as (H & Co).
  split; [intros p k I; now apply H|].
  intros process_id k amount i p NN F NF A Sat r. subst r.
  destruct (allocate_resource_outcome self process_id k amount)
    as [F' | j q F' S' | j q F' S' A' | q l1 l2 F' Hl S' A' Sat'
        | q l1 l2 F' Hl S' A' Sat'];
    try (rewrite F in F'; inversion F'; subst i q); try congruence; try lia.
  split; [reflexivity|].
  exists (finished (granted p k amount)).
  unfold after_finish. cbn [snd processes resources].
  assert (P0 : forall k', 0 <= get (allocated_resources p) k').
  { intros k'. apply H. rewrite Hl. apply in_app_iff. right. now left. }
  split; [|split; [reflexivity|split]].
  - rewrite nth_error_app2, Nat.sub_diag by lia. reflexivity.
  - intros k'. rewrite finished_get, granted_get.
    specialize (P0 k'). destruct (_ >? 0) eqn:G; [reflexivity|].
    rewrite Z.gtb_ltb in G. apply Z.ltb_ge in G.
    destruct (ResourceType_eq_dec k k'); lia.
  - intros k'.
    destruct (released_pool_get (debited (resources self) k amount)
                                (granted p k amount) k') as (_ & ->).
    rewrite granted_get.
    destruct (debited_get (resources self) k amount k') as (-> & ->).
    specialize (Co k'). rewrite Hl, held_app, held_cons in Co.
    apply not_finished_eqb in NF. rewrite NF in Co.
    assert (0 <= held k' l1).
    { apply held_not_negative. intros x I. apply H. rewrite Hl.
      apply in_app_iff. now left. }
    assert (0 <= held k' l2).
    { apply held_not_negative. intros x I. apply H. rewrite Hl.
      apply in_app_iff. right. now right. }
    specialize (P0 k'). destruct (_ >? 0) eqn:G; [lia|].
    rewrite Z.gtb_ltb in G. apply Z.ltb_ge in G.
    destruct (ResourceType_eq_dec k k'); lia.
Qed.

Lemma finish_releases_witness :
  let self := play example_start [("P2", MEMORIA, 2)] in
  let p := mkProcess "P2" "Editor de Texto" [(CPU, 1); (MEMORIA, 2)]
                     (mkEnumDict 0 2 0 0) WAITING in
  let r := allocate_resource self "P2" CPU 1 in
  fst r = true /\
  exists q,
    nth_error (processes (snd r)) 1 = Some q /\
    state q = FINISHED /\
    (forall k', get (allocated_resources q) k' = 0) /\
    (forall k', available (get (resources (snd r)) k')
                = available (get (resources self) k')
                  + get (allocated_resources p) k').
Proof.
  intros self p.
  assert (R : reachable_by nonnegative_amount example_start self).
  { apply play_reachable; [apply reachable_start|].
    intros s process_id k amount [E | []]. inversion E.
    unfold nonnegative_amount. lia. }
  apply (proj2 (finish_releases example_start self example_start_created R)
               "P2" CPU 1 1%nat p).
  - lia.
  - reflexivity.
  - discriminate.
  - vm_compute. discriminate.
  - reflexivity.
Defined.

(** C5 as it is stated fails when a call has a negative amount: P2 is
    "granted" -1 unit of disk and then what it requires. It is Finished and
    still holds -1 unit of disk, and four units of disk are available out of
    three. *)
Lemma finish_releases_counterexample :
  let self := play example_start
                   [("P2", DISCO, -1); ("P2", MEMORIA, 2); ("P2", CPU, 1)] in
  created example_start /\
  reachable_by any_call example_start self /\
  exists p,
    nth_error (processes self) 1 = Some p /\ state p = FINISHED /\
    get (allocated_resources p) DISCO = -1 /\
    available (get (resources self) DISCO) = 4 /\
    total (get (resources self) DISCO) = 3.
Proof.
  intros self. split; [exact example_start_created|].
  split; [apply play_reachable; [apply reachable_start | intros; exact I]|].
  eexists. split; [reflexivity|]. repeat split.
Qed.

(** ** C3: allocated and required *)

Lemma Dict_get_In {V} (d : Dict V) k (v : V) :
  Dict_ops.get d k = Some v -> In (k, v) d.
Proof.
  induction d as [|[k' v'] d IH]; simpl; [discriminate|].
  destruct (ResourceType_eqb k' k) eqn:E.
  - apply ResourceType_eqb_eq in E. intros H. inversion H; subst. now left.
  - intros H. right. now apply IH.
Qed.

Lemma within_requirements_step self process_id k amount :
  within_need self process_id k amount ->
  within_requirements self ->
  within_requirements (snd (allocate_resource self process_id k amount)).
Proof.
  intros N W.
  outcome_cases self process_id k amount; try exact W; intros q k' r I G;
    simpl in I; apply in_app_iff in I; destruct I as [I | [<- | I]];
    try (apply W; [rewrite Hl; apply in_app_iff; simpl; tauto | exact G]);
    simpl in G;
    destruct (W p k' r) as (Le & Pos);
    try (rewrite Hl; apply in_app_iff; simpl; tauto); try exact G;
    (split; [|exact Pos]).
  - rewrite granted_get. destruct (ResourceType_eq_dec k k') as [<- | _]; [|lia].
    specialize (N _ _ _ F G). lia.
  - rewrite finished_get, granted_get.
    destruct (_ >? 0) eqn:E; [lia|].
    destruct (ResourceType_eq_dec k k') as [<- | _]; [|lia].
    specialize (N _ _ _ F G). lia.
Qed.

(** C3, as the code has it. [allocate_resource] neither rejects nor caps an
    amount that exceeds what the process still needs. From a new level, as
    long as every call for a kind that its process requires has an amount
    of at most [required[kind] - allocated[kind]], every process holds at
    most what it requires of every kind it requires. *)
Theorem allocation_bound start self :
  created start -> reachable_by within_need start self ->
  forall p k required,
    In p (processes self) ->
    Dict_ops.get (required_resources p) k = Some required ->
    get (allocated_resources p) k <= required.
Proof.
  intros C R.
  assert (W : within_requirements self).
  { destruct (created_facts _ C) as (_ & Fresh & _). revert self R.
    apply (reachable_by_ind_inv within_need within_requirements).
    - intros p k r I G. rewrite Forall_forall in Fresh.
      destruct (Fresh p I) as (_ & A & _ & Pos).
      rewrite A, get_build. apply Dict_get_In, Pos in G. lia.
    - intros s process_id k amount W N.
      now apply within_requirements_step. }
  intros p k r I G. now apply (W p k r).
Qed.

Lemma allocation_bound_witness :
  get (allocated_resources
         (mkProcess "P2" "Editor de Texto" [(CPU, 1); (MEMORIA, 2)]
                    (mkEnumDict 0 1 0 0) WAITING)) MEMORIA <= 2.
Proof.
  apply (allocation_bound example_start
                          (play example_start [("P2", MEMORIA, 1)])).
  - exact example_start_created.
  - apply (reachable_allocate within_need example_start example_start
                              "P2" MEMORIA 1); [apply reachable_start|].
    intros i p required F G. vm_compute in F. inversion F; subst.
    vm_compute in G. inversion G; subst. vm_compute. discriminate.
  - right. left. reflexivity.
  - reflexivity.
Defined.

(** C3 as it is stated fails: P2 requires one CPU, and a call for two is
    granted as it is. P2 is not Finished (it has no memory yet) and holds
    two CPU. *)
Lemma allocation_bound_counterexample :
  let self := play example_start [("P2", CPU, 2)] in
  created example_start /\
  reachable_by any_call example_start self /\
  exists p,
    In p (processes self) /\ state p = WAITING /\
    Dict_ops.get (required_resources p) CPU = Some 1 /\
    get (allocated_resources p) CPU = 2.
Proof.
  intros self. split; [exact example_start_created|].
  split; [apply play_reachable; [apply reachable_start | intros; exact I]|].
  eexists. split; [right; left; reflexivity|]. repeat split.
Qed.

(** ** detect_deadlock: the loop *)

Lemma item_eqb_refl a : Dict_ops.item_eqb a a = true.
Proof.
  unfold Dict_ops.item_eqb. rewrite Z.eqb_refl, andb_true_r.
  now apply ResourceType_eqb_eq.
Qed.

Lemma item_eqb_eq a b : Dict_ops.item_eqb a b = true -> a = b.
Proof.
  destruct a, b. unfold Dict_ops.item_eqb. simpl. intros H.
  apply andb_prop in H as (K & V).
  apply ResourceType_eqb_eq in K. apply Z.eqb_eq in V. congruence.
Qed.

Lemma has_item_In d a : Dict_ops.has_item d a = true <-> In a d.
Proof.
  unfold Dict_ops.has_item. rewrite existsb_exists. split.
  - intros (b & I & E). apply item_eqb_eq in E. now subst.
  - intros I. exists a. split; [exact I | apply item_eqb_refl].
Qed.

Lemma Dict_eqb_items d1 d2 :
  Dict_ops.eqb d1 d2 = true <-> (forall a, In a d1 <-> In a d2).
Proof.
  unfold Dict_ops.eqb. rewrite andb_true_iff, !forallb_forall. split.
  - intros (H1 & H2) a. split; intros I; apply has_item_In; auto.
  - intros H. split; intros a I; apply has_item_In, H, I.
Qed.

Lemma EnumDict_Z_eqb_eq a b : EnumDict_Z_eqb a b = true <-> a = b.
Proof.
  unfold EnumDict_Z_eqb. rewrite forallb_forall. split.
  - intros H. apply EnumDict_ext. intros k. apply Z.eqb_eq, H.
    destruct k; simpl; tauto.
  - intros -> k _. apply Z.eqb_refl.
Qed.

Lemma Process_eq_refl p : Process_eq p p = true.
Proof.
  unfold Process_eq. rewrite !String.eqb_refl. simpl.
  replace (Dict_ops.eqb _ _) with true
    by (symmetry; apply Dict_eqb_items; tauto).
  replace (EnumDict_Z_eqb _ _) with true
    by (symmetry; now apply EnumDict_Z_eqb_eq).
  simpl. now apply ProcessState_eqb_eq.
Qed.

Lemma can_finish_loop_forall allocated available items :
  can_finish_loop allocated available items = true <->
  forall k required,
    In (k, required) items -> required - get allocated k <= get available k.
Proof.
  induction items as [|[k r] items IH]; simpl.
  - split; [intros _ k r [] | reflexivity].
  - destruct (r - get allocated k >? get available k) eqn:E.
    + split; [discriminate|]. intros H.
      specialize (H k r (or_introl eq_refl)).
      apply Z.gtb_lt in E. lia.
    + rewrite IH. rewrite Z.gtb_ltb in E. apply Z.ltb_ge in E. split.
      * intros H k' r' [I | I]; [inversion I; subst; exact E | now apply H].
      * intros H k' r' I. apply H. now right.
Qed.

(** Processes that the equality of the dataclass identifies can finish
    from the same availabilities. *)
Lemma can_finish_Process_eq p q available :
  Process_eq p q = true -> can_finish p available = can_finish q available.
Proof.
  unfold Process_eq. rewrite !andb_true_iff.
  intros ((((_ & _) & D) & A) & _).
  apply EnumDict_Z_eqb_eq in A. unfold can_finish. rewrite <- A.
  rewrite Dict_eqb_items in D.
  apply eq_true_iff_eq. rewrite !can_finish_loop_forall.
  split; intros H k r I; apply H, D, I.
Qed.

Lemma list_remove_length x l :
  In x l -> S (length (list_remove x l)) = length l.
Proof.
  induction l as [|y l IH]; simpl; [contradiction|].
  destruct (Process_eq y x) eqn:E; [reflexivity|].
  intros [-> | I]; [now rewrite Process_eq_refl in E|].
  simpl. now rewrite IH.
Qed.

(** What the [for] loop does with the part [copy] of the list that it has
    still to scan: it stops at the first process that can finish. *)
Lemma for_loop_spec copy fr :
  (exists before p after,
     copy = before ++ p :: after /\
     (forall q, In q before -> can_finish q (frame_available fr) = false) /\
     can_finish p (frame_available fr) = true /\
     for_loop copy fr
     = mkFrame (frame_self fr) (give_back p (frame_available fr))
               (list_remove p (unfinished_processes fr)) true (passes fr)
               (checks fr + S (length before))) \/
  ((forall q, In q copy -> can_finish q (frame_available fr) = false) /\
   for_loop copy fr
   = mkFrame (frame_self fr) (frame_available fr) (unfinished_processes fr)
             (changed fr) (passes fr) (checks fr + length copy)).
Proof.
  revert fr. induction copy as [|p copy IH]; intros fr.
  - right. split; [intros q []|]. simpl. rewrite Nat.add_0_r. now destruct fr.
  - cbn [for_loop frame_available frame_self unfinished_processes changed
         passes checks].
    destruct (can_finish p (frame_available fr)) eqn:E.
    + left. exists [], p, copy. rewrite give_back_loop_items.
      repeat split; [intros q [] | exact E |]. simpl. now rewrite Nat.add_1_r.
    + set (fr1 := mkFrame _ _ _ _ _ (S (checks fr))).
      destruct (IH fr1) as [(before & q & after & -> & B & C & ->) | (N & ->)];
        subst fr1;
        cbn [frame_available frame_self unfinished_processes changed
             passes checks] in *.
      * left. exists (p :: before), q, after. repeat split; try assumption.
        -- intros x [<- | I]; [exact E | now apply B].
        -- simpl. f_equal. lia.
      * right. split; [intros x [<- | I]; [exact E | now apply N]|].
        simpl. f_equal. lia.
Qed.

(** An iteration of the [while] loop either removes one process from
    [unfinished_processes] or leaves the list as it is and [changed] false. *)
Lemma while_body_progress fr :
  (changed (while_body fr) = true /\
   S (length (unfinished_processes (while_body fr)))
   = length (unfinished_processes fr)) \/
  (changed (while_body fr) = false /\
   unfinished_processes (while_body fr) = unfinished_processes fr).
Proof.
  unfold while_body.
  set (fr1 := mkFrame _ _ _ false _ _).
  destruct (for_loop_spec (unfinished_processes fr) fr1)
    as [(before & p & after & E & _ & _ & ->) | (_ & ->)]; subst fr1; simpl.
  - left. split; [reflexivity|]. apply list_remove_length.
    rewrite E. apply in_app_iff. right. now left.
  - right. split; reflexivity.
Qed.

Lemma while_body_counts fr :
  frame_self (while_body fr) = frame_self fr /\
  passes (while_body fr) = S (passes fr) /\
  (checks (while_body fr) <= checks fr + length (unfinished_processes fr))%nat.
Proof.
  unfold while_body.
  set (fr1 := mkFrame _ _ _ false _ _).
  destruct (for_loop_spec (unfinished_processes fr) fr1)
    as [(before & p & after & E & _ & _ & ->) | (_ & ->)]; subst fr1; simpl.
  - repeat split. rewrite E, length_app. simpl. lia.
  - repeat split. lia.
Qed.

Lemma while_loop_stop fuel fr :
  changed fr && negb (is_empty (unfinished_processes fr)) = false ->
  while_loop fuel fr = Some fr.
Proof. intros C. destruct fuel; simpl; rewrite C; reflexivity. Qed.

Lemma while_loop_step fuel fr :
  changed fr && negb (is_empty (unfinished_processes fr)) = true ->
  while_loop (S fuel) fr = while_loop fuel (while_body fr).
Proof. intros C. simpl. rewrite C. reflexivity. Qed.

(** The loop ends within as many iterations as there are processes in
    [unfinished_processes], whatever fuel it is given beyond that. *)
Lemma while_loop_ends fr :
  exists fr',
    (forall fuel, (length (unfinished_processes fr) <= fuel)%nat ->
                  while_loop fuel fr = Some fr') /\
    frame_self fr' = frame_self fr /\
    (passes fr' <= passes fr + length (unfinished_processes fr))%nat /\
    (checks fr' <= checks fr + length (unfinished_processes fr)
                               * length (unfinished_processes fr))%nat.
Proof.
  remember (length (unfinished_processes fr)) as n eqn:Hn.
  revert fr Hn. induction n as [|n IH]; intros fr Hn.
  - exists fr. split; [|repeat split; lia].
    intros fuel _. apply while_loop_stop.
    destruct (unfinished_processes fr); [|discriminate].
    apply andb_false_r.
  - destruct (changed fr && negb (is_empty (unfinished_processes fr))) eqn:C.
    + destruct (while_body_counts fr) as (Hs & Hp & Hc).
      destruct (while_body_progress fr) as [(Ch & L) | (Ch & L)].
      * destruct (IH (while_body fr)) as (fr' & Run & S' & P' & C');
          [lia|].
        exists fr'. split; [|repeat split; try congruence; nia].
        intros [|fuel] Hf; [lia|]. rewrite while_loop_step by exact C.
        apply Run. lia.
      * exists (while_body fr). split; [|repeat split; try assumption; nia].
        intros [|fuel] Hf; [lia|]. rewrite while_loop_step by exact C.
        apply while_loop_stop. now rewrite Ch.
    + exists fr. split; [|repeat split; lia].
      intros fuel _. now apply while_loop_stop.
Qed.

Lemma unfinished_length self :
  (length (unfinished self) <= length (processes self))%nat.
Proof. apply filter_length_le. Qed.

Lemma detect_deadlock_frame_ends self :
  exists fr,
    (forall fuel, (length (unfinished self) <= fuel)%nat ->
                  detect_deadlock_frame fuel self = Some fr) /\
    frame_self fr = self /\
    (passes fr <= length (unfinished self))%nat /\
    (checks fr <= length (unfinished self) * length (unfinished self))%nat.
Proof.
  unfold detect_deadlock_frame.
  destruct (is_empty (unfinished self)) eqn:E.
  - eexists. split; [intros fuel _; reflexivity|]. simpl. repeat split; lia.
  - destruct (while_loop_ends (enter_loop self)) as (fr & Run & S & P & C).
    exists fr. simpl in *. repeat split; assumption.
Qed.

Lemma detect_deadlock_eq self fr :
  (forall fuel, (length (unfinished self) <= fuel)%nat ->
                detect_deadlock_frame fuel self = Some fr) ->
  detect_deadlock self
  = ((0 <? length (unfinished_processes fr))%nat, frame_self fr).
Proof.
  intros Run. unfold detect_deadlock, detect_deadlock_within.
  now rewrite (Run _ (unfinished_length self)).
Qed.

(** With enough fuel the bounded run is the call. *)
Lemma detect_deadlock_within_enough self fuel :
  (length (unfinished self) <= fuel)%nat ->
  detect_deadlock_within fuel self = Some (detect_deadlock self).
Proof.
  intros Hf. destruct (detect_deadlock_frame_ends self) as (fr & Run & _).
  rewrite (detect_deadlock_eq self fr Run).
  unfold detect_deadlock_within. now rewrite (Run fuel Hf).
Qed.

Lemma detect_deadlock_self self : snd (detect_deadlock self) = self.
Proof.
  destruct (detect_deadlock_frame_ends self) as (fr & Run & S & _).
  now rewrite (detect_deadlock_eq self fr Run).
Qed.

(** ** C7: detect_deadlock terminates *)

(** C7. Every iteration of the loop of [detect_deadlock] either removes a
    process from [unfinished_processes] or leaves [changed] false. With [n]
    processes that are not Finished, the call returns after at most [n]
    iterations (the condition of the loop is tested at most [n + 1] times)
    and at most [n * n] calls of [can_finish], whatever bound of at least
    [n] iterations the run is given; and with no such process it returns
    false at once, without entering the loop. *)
Theorem detect_deadlock_terminates self :
  let n := length (unfinished self) in
  (forall fr,
     (changed (while_body fr) = true /\
      S (length (unfinished_processes (while_body fr)))
      = length (unfinished_processes fr)) \/
     (changed (while_body fr) = false /\
      unfinished_processes (while_body fr) = unfinished_processes fr)) /\
  (exists fr,
     (forall fuel, (n <= fuel)%nat ->
                   detect_deadlock_frame fuel self = Some fr /\
                   detect_deadlock_within fuel self
                   = Some (detect_deadlock self)) /\
     detect_deadlock self
     = ((0 <? length (unfinished_processes fr))%nat, self) /\
     (passes fr <= n)%nat /\
     (checks fr <= n * n)%nat /\
     (checks fr <= length (processes self) * length (processes self))%nat) /\
  (n = 0%nat ->
   detect_deadlock self = (false, self) /\
   forall fuel, exists fr,
     detect_deadlock_frame fuel self = Some fr /\ passes fr = 0%nat /\
     checks fr = 0%nat).
Proof.
  intros n. split; [exact while_body_progress|]. split.
  - destruct (detect_deadlock_frame_ends self) as (fr & Run & S & P & C).
    fold n in Run, P, C. exists fr. split; [|split; [|repeat split]].
    + intros fuel Hf. split; [now apply Run|].
      now apply detect_deadlock_within_enough.
    + rewrite (detect_deadlock_eq self fr Run). now rewrite S.
    + exact P.
    + exact C.
    + pose proof (unfinished_length self). fold n in H. nia.
  - intros Z0. subst n. apply length_zero_iff_nil in Z0.
    unfold detect_deadlock, detect_deadlock_within, detect_deadlock_frame.
    rewrite Z0. simpl. split; [reflexivity|].
    intros fuel. eexists. repeat split.
Qed.

Lemma detect_deadlock_terminates_witness :
  detect_deadlock (mkGameState 1 (resources example_start) [] [] 0 20)
  = (false, mkGameState 1 (resources example_start) [] [] 0 20).
Proof.
  apply (proj2 (proj2 (detect_deadlock_terminates
                         (mkGameState 1 (resources example_start) [] [] 0 20)))).
  reflexivity.
Defined.

(** ** C6: the queries change nothing *)

Lemma run_query_self q self : snd (run_query q self) = self.
Proof. destruct q; [apply detect_deadlock_self | reflexivity]. Qed.

(** C6. Whatever calls of [detect_deadlock] and [is_level_complete] are
    made one after the other, in any number and order, the game state after
    them (pool, processes, move counter, log) is the one before them, and
    every call returns what the same query returns on that state: each call
    of a query returns the same as its first call. *)
Theorem queries_change_nothing self qs :
  snd (run_queries qs self) = self /\
  fst (run_queries qs self) = map (fun q => fst (run_query q self)) qs.
Proof.
  induction qs as [|q qs (IH1 & IH2)]; [split; reflexivity|].
  simpl. pose proof (run_query_self q self) as S.
  destruct (run_query q self) as [b self1]. simpl in S. subst self1.
  destruct (run_queries qs self) as [bs self2]. simpl in *. subst.
  split; reflexivity.
Qed.

(** ** C1: detect_deadlock and the orders in which the processes can finish *)

Lemma can_finish_forall p available :
  can_finish p available = true <->
  forall k required,
    In (k, required) (required_resources p) ->
    required - get (allocated_resources p) k <= get available k.
Proof. apply can_finish_loop_forall. Qed.

Lemma can_finish_monotone p available available' :
  (forall k, get available k <= get available' k) ->
  can_finish p available = true -> can_finish p available' = true.
Proof.
  rewrite !can_finish_forall. intros Le H k r I.
  specialize (H k r I). specialize (Le k). lia.
Qed.

Lemma give_back_comm p q available :
  give_back p (give_back q available) = give_back q (give_back p available).
Proof.
  apply EnumDict_ext. intros k. unfold give_back.
  rewrite !get_build. lia.
Qed.

Lemma give_back_grows p available :
  (forall k, 0 <= get (allocated_resources p) k) ->
  forall k, get available k <= get (give_back p available) k.
Proof.
  intros H k. unfold give_back. rewrite get_build. specialize (H k). lia.
Qed.

(** A process that can finish now and holds no negative amount can be moved
    to the front of an order in which all finish. *)
Lemma finish_in_order_front p o1 o2 available :
  (forall k, 0 <= get (allocated_resources p) k) ->
  finish_in_order available (o1 ++ p :: o2) = true ->
  finish_in_order (give_back p available) (o1 ++ o2) = true.
Proof.
  intros Hp. revert available.
  induction o1 as [|q o1 IH]; simpl; intros available H.
  - now apply andb_prop in H as (_ & H).
  - apply andb_prop in H as (Hq & H). apply andb_true_intro. split.
    + eapply can_finish_monotone; [|exact Hq]. now apply give_back_grows.
    + rewrite give_back_comm. now apply IH.
Qed.

Lemma safe_from_after_finish p before after available :
  (forall k, 0 <= get (allocated_resources p) k) ->
  safe_from available (before ++ p :: after) ->
  safe_from (give_back p available) (before ++ after).
Proof.
  intros Hp (order & Perm & Fin).
  assert (I : In p order).
  { apply Permutation_in with (before ++ p :: after);
      [now apply Permutation_sym | apply in_app_iff; right; now left]. }
  apply in_split in I as (o1 & o2 & ->).
  exists (o1 ++ o2). split.
  - now apply Permutation_app_inv with p.
  - now apply finish_in_order_front.
Qed.

Lemma list_remove_first p before after available :
  (forall q, In q before -> can_finish q available = false) ->
  can_finish p available = true ->
  list_remove p (before ++ p :: after) = before ++ after.
Proof.
  intros B C. induction before as [|q before IH]; simpl.
  - now rewrite Process_eq_refl.
  - destruct (Process_eq q p) eqn:E.
    + apply can_finish_Process_eq with (available := available) in E.
      rewrite (B q), C in E by now left. discriminate.
    + rewrite IH; [reflexivity | intros; apply B; now right].
Qed.

(** The loop empties [unfinished_processes] exactly when some order lets
    all its processes finish. *)
Lemma while_loop_safe n fr fr' :
  length (unfinished_processes fr) = n ->
  changed fr = true ->
  while_loop n fr = Some fr' ->
  (unfinished_processes fr' = [] ->
   safe_from (frame_available fr) (unfinished_processes fr)) /\
  ((forall p k, In p (unfinished_processes fr) ->
                0 <= get (allocated_resources p) k) ->
   safe_from (frame_available fr) (unfinished_processes fr) ->
   unfinished_processes fr' = []).
Proof.
  revert fr. induction n as [|n IH]; intros fr Hn Ch Run.
  - apply length_zero_iff_nil in Hn.
    rewrite while_loop_stop in Run by (rewrite Hn; apply andb_false_r).
    inversion Run; subst fr'. split; [|intros _ _; exact Hn].
    intros _. rewrite Hn. exists []. split; [constructor | reflexivity].
  - assert (C : changed fr && negb (is_empty (unfinished_processes fr)) = true).
    { rewrite Ch. destruct (unfinished_processes fr); [discriminate | reflexivity]. }
    rewrite while_loop_step in Run by exact C.
    unfold while_body in *.
    set (fr1 := mkFrame _ _ _ false _ _) in *.
    destruct (for_loop_spec (unfinished_processes fr) fr1)
      as [(before & p & after & E & B & Cp & W) | (N & W)];
      rewrite W in Run; subst fr1;
      cbn [frame_available frame_self unfinished_processes changed
           passes checks] in *.
    + rewrite E in *. rewrite (list_remove_first p before after _ B Cp) in Run.
      assert (L : length (before ++ after) = n).
      { rewrite length_app in *. simpl in Hn. lia. }
      apply IH in Run; [|exact L|reflexivity]. destruct Run as (IH1 & IH2).
      cbn [frame_available unfinished_processes] in IH1, IH2.
      split.
      * intros Emp. destruct (IH1 Emp) as (order & Perm & Fin).
        exists (p :: order). split.
        -- now apply Permutation_cons_app.
        -- simpl. now rewrite Cp, Fin.
      * intros NN Safe. apply IH2.
        -- intros q k I. apply NN. apply in_app_iff in I.
           apply in_app_iff. simpl. tauto.
        -- apply safe_from_after_finish; [|exact Safe].
           intros k. apply NN. apply in_app_iff. right. now left.
    + rewrite while_loop_stop in Run by reflexivity.
      inversion Run; subst fr'.
      cbn [frame_available unfinished_processes]. split.
      * intros Emp. rewrite Emp in Hn. discriminate.
      * intros _ (order & Perm & Fin). exfalso.
        destruct order as [|q order].
        -- apply Permutation_nil in Perm. rewrite Perm in Hn. discriminate.
        -- simpl in Fin. apply andb_prop in Fin as (Cq & _).
           rewrite N in Cq; [discriminate|].
           apply Permutation_in with (q :: order); [exact Perm | now left].
Qed.

Lemma detect_deadlock_safe self :
  (fst (detect_deadlock self) = false -> safe self) /\
  (holds_no_negative self -> safe self -> fst (detect_deadlock self) = false).
Proof.
  destruct (detect_deadlock_frame_ends self) as (fr & Run & _).
  rewrite (detect_deadlock_eq self fr Run). cbn [fst].
  specialize (Run _ (le_n _)). unfold detect_deadlock_frame in Run.
  unfold safe, holds_no_negative.
  destruct (unfinished self) as [|p l] eqn:U.
  - simpl in Run. inversion Run; subst fr. simpl. split; [|reflexivity].
    intros _. exists []. split; [constructor | reflexivity].
  - cbn [is_empty] in Run.
    apply while_loop_safe in Run;
      [|unfold enter_loop; cbn [unfinished_processes]; now rewrite U
       |reflexivity].
    destruct Run as (H1 & H2).
    unfold enter_loop in H1, H2.
    cbn [frame_available unfinished_processes] in H1, H2.
    rewrite U in H1, H2. split.
    + intros Z0. apply H1. destruct (unfinished_processes fr); [reflexivity|].
      discriminate Z0.
    + intros NN Safe. rewrite H2; [reflexivity | | exact Safe].
      intros q k I. now apply NN.
Qed.

Lemma Permutation_filter_compat {A} (f : A -> bool) l l' :
  Permutation l l' -> Permutation (filter f l) (filter f l').
Proof.
  induction 1 as [|x l l' _ IH|x y l|l l' l'' _ IH1 _ IH2]; simpl.
  - constructor.
  - destruct (f x); [now constructor | assumption].
  - destruct (f x), (f y); try apply Permutation_refl. constructor.
  - now apply Permutation_trans with (filter f l').
Qed.

(** C1, as the code has it. In a game state in which no process that is not
    Finished holds a negative amount, [detect_deadlock] returns false if and
    only if some order lets all the processes that are not Finished finish
    one after the other from the current availability, each returning its
    full allocation before the next is checked; and the result is the same
    for any reordering of the process list. *)
Theorem detect_deadlock_sound self :
  holds_no_negative self ->
  (fst (detect_deadlock self) = false <-> safe self) /\
  (forall reordered,
     Permutation reordered (processes self) ->
     fst (detect_deadlock (with_processes self reordered))
     = fst (detect_deadlock self)).
Proof.
  intros NN.
  assert (Iff : forall s, holds_no_negative s ->
                          (fst (detect_deadlock s) = false <-> safe s)).
  { intros s Hs. destruct (detect_deadlock_safe s) as (H1 & H2).
    split; [exact H1 | now apply H2]. }
  split; [now apply Iff|].
  intros reordered Perm.
  set (s' := with_processes self reordered).
  assert (PU : Permutation (unfinished s') (unfinished self)).
  { unfold unfinished, s'. simpl. now apply Permutation_filter_compat. }
  assert (NN' : holds_no_negative s').
  { intros p k I. apply NN. now apply Permutation_in with (unfinished s'). }
  assert (S : safe s' <-> safe self).
  { unfold safe. replace (get_available_resources s')
      with (get_available_resources self) by reflexivity.
    split; intros (order & P & F); exists order; split; try assumption.
    - now apply Permutation_trans with (unfinished s').
    - apply Permutation_trans with (unfinished self);
        [assumption | now apply Permutation_sym]. }
  pose proof (Iff self NN) as I1. pose proof (Iff s' NN') as I2.
  destruct (fst (detect_deadlock s')) eqn:D1,
           (fst (detect_deadlock self)) eqn:D2; try reflexivity.
  - assert (H : safe self) by now apply I1.
    apply S, I2 in H. discriminate H.
  - assert (H : safe s') by now apply I2.
    apply S, I1 in H. discriminate H.
Qed.

Lemma detect_deadlock_sound_witness :
  let self := play example_start [("P2", CPU, 1); ("P3", CPU, 2)] in
  (fst (detect_deadlock self) = false <-> safe self) /\
  (forall reordered,
     Permutation reordered (processes self) ->
     fst (detect_deadlock (with_processes self reordered))
     = fst (detect_deadlock self)).
Proof.
  intros self. apply (detect_deadlock_sound self).
  intros p k I. vm_compute in I.
  destruct I as [<- | [<- | [<- | []]]]; destruct k; vm_compute; discriminate.
Defined.

(** C1 as it is stated fails in a game state in which a process holds a
    negative amount. P1 is "granted" -1 CPU, P3 four CPU and P2 three units
    of disk: one CPU is available. The scan takes P1 first, which takes the
    available CPU away, and then neither P2 (one CPU short) nor P3 (one unit
    of disk short) can finish: the result is true. Yet P2, P1, P3 is an
    order in which all finish, and with P2 first in the process list the
    result is false. *)
Lemma detect_deadlock_sound_counterexample :
  let self := play example_start
                   [("P1", CPU, -1); ("P3", CPU, 4); ("P2", DISCO, 3)] in
  created example_start /\
  reachable_by any_call example_start self /\
  fst (detect_deadlock self) = true /\
  safe self /\
  exists reordered,
    Permutation reordered (processes self) /\
    fst (detect_deadlock (with_processes self reordered)) = false.
Proof.
  intros self. split; [exact example_start_created|].
  split; [apply play_reachable; [apply reachable_start | intros; exact I]|].
  split; [reflexivity|].
  assert (E : exists p1 p2 p3, processes self = [p1; p2; p3]).
  { do 3 eexists. reflexivity. }
  destruct E as (p1 & p2 & p3 & E).
  assert (U : unfinished self = [p1; p2; p3]).
  { rewrite <- E. reflexivity. }
  split.
  - exists [p2; p1; p3]. split.
    + rewrite U. apply perm_swap.
    + vm_compute in E. inversion E; subst. reflexivity.
  - exists [p2; p1; p3]. split.
    + rewrite E. apply perm_swap.
    + vm_compute in E. inversion E; subst. reflexivity.
Qed.

(** As long as no call has a negative amount, no process holds a negative
    amount: C1 applies to every such state of a game. *)
Lemma reachable_holds_no_negative start self :
  created start -> reachable_by nonnegative_amount start self ->
  holds_no_negative self.
Proof.
  intros C R p k I.
  destruct (created_nonnegative_invariants start self C R) as (H & _).
  apply H. unfold unfinished in I. apply filter_In in I. tauto.
Qed.

(** ** Binary64: rounding keeps the order with the numbers of 53 bits *)

Lemma pow2_add a b : 0 <= a -> 0 <= b -> 2 ^ (a + b) = 2 ^ a * 2 ^ b.
Proof. intros. now apply Z.pow_add_r. Qed.

Lemma pow2_le a b : 0 <= a <= b -> 2 ^ a <= 2 ^ b.
Proof. intros. apply Z.pow_le_mono_r; lia. Qed.

Lemma digits_bounds m :
  0 < m -> 2 ^ (Binary64.digits m - 1) <= m < 2 ^ Binary64.digits m.
Proof.
  intros H. unfold Binary64.digits.
  replace (m =? 0) with false by (symmetry; apply Z.eqb_neq; lia).
  rewrite Z.abs_eq by lia.
  replace (Z.log2 m + 1 - 1) with (Z.log2 m) by lia.
  replace (Z.log2 m + 1) with (Z.succ (Z.log2 m)) by lia.
  now apply Z.log2_spec.
Qed.

(** The parts of a rounding that drops [s] bits of a positive mantissa. *)
Lemma round_positive m e :
  0 < m -> 0 < Binary64.digits m - 53 ->
  let s := Binary64.digits m - 53 in
  exists q',
    Binary64.round (Binary64.mkFloat m e) = Binary64.mkFloat q' (e + s) /\
    m / 2 ^ s <= q' <= m / 2 ^ s + 1 /\
    (m mod 2 ^ s = 0 -> q' = m / 2 ^ s) /\
    q' * 2 ^ s <= m + 2 ^ (s - 1) /\
    2 ^ 52 <= m / 2 ^ s.
Proof.
  intros Hm Hs s. unfold Binary64.round. simpl. fold s.
  replace (s <=? 0) with false by (symmetry; apply Z.leb_gt; lia).
  rewrite Z.abs_eq, Z.sgn_pos by lia.
  assert (P : 0 < 2 ^ s) by (apply Z.pow_pos_nonneg; lia).
  assert (Hh : 2 ^ s = 2 * 2 ^ (s - 1)).
  { replace s with (1 + (s - 1)) at 1 by lia. rewrite pow2_add by lia.
    reflexivity. }
  pose proof (Z.div_mod m (2 ^ s) ltac:(lia)) as DM.
  pose proof (Z.mod_pos_bound m (2 ^ s) P) as MB.
  set (q := m / 2 ^ s) in *. set (r := m mod 2 ^ s) in *.
  set (half := 2 ^ (s - 1)) in *.
  assert (Q52 : 2 ^ 52 <= q).
  { destruct (digits_bounds m Hm) as (Lo & _).
    replace (Binary64.digits m - 1) with (52 + s) in Lo by (unfold s; lia).
    rewrite pow2_add in Lo by lia.
    apply Z.div_le_lower_bound; [exact P | lia]. }
  eexists. split; [rewrite Z.mul_1_l; reflexivity|].
  destruct ((half <? r) || ((r =? half) && Z.odd q)) eqn:Up.
  - assert (half <= r).
    { apply orb_prop in Up as [Up | Up].
      - apply Z.ltb_lt in Up. lia.
      - apply andb_prop in Up as (Up & _). apply Z.eqb_eq in Up. lia. }
    repeat split; try lia; nia.
  - repeat split; try lia; nia.
Qed.

(** Rounding does not go below a number of 53 bits that the exact value
    reaches. *)
Lemma round_lower x mc ec :
  0 < mc < 2 ^ 53 -> -55 <= ec -> -55 <= Binary64.expo x ->
  mc * 2 ^ (ec + 55) <= scaled x ->
  mc * 2 ^ (ec + 55) <= scaled (Binary64.round x) /\
  -55 <= Binary64.expo (Binary64.round x).
Proof.
  destruct x as [m e]. unfold scaled. simpl. intros Hmc Hec He Le.
  assert (PE : 0 < 2 ^ (e + 55)) by (apply Z.pow_pos_nonneg; lia).
  assert (PC : 0 < 2 ^ (ec + 55)) by (apply Z.pow_pos_nonneg; lia).
  assert (Hm : 0 < m) by nia.
  destruct (Z_le_gt_dec (Binary64.digits m - 53) 0) as [S0 | S1].
  - unfold Binary64.round. simpl.
    replace (Binary64.digits m - 53 <=? 0) with true
      by (symmetry; apply Z.leb_le; lia).
    simpl. split; assumption.
  - destruct (round_positive m e Hm ltac:(lia))
      as (q' & -> & (Q1 & Q2) & _ & _ & Q52).
    set (s := Binary64.digits m - 53) in *. simpl.
    split; [|lia].
    assert (PS : 0 < 2 ^ s) by (apply Z.pow_pos_nonneg; lia).
    replace (e + s + 55) with ((e + 55) + s) by lia.
    rewrite (pow2_add (e + 55) s) by lia.
    destruct (Z_le_gt_dec (e + s) ec) as [Big | Small].
    + replace (ec + 55) with ((ec - e - s) + ((e + 55) + s)) in * by lia.
      rewrite (pow2_add (ec - e - s) (e + 55 + s)) in * by lia.
      rewrite (pow2_add (e + 55) s) in * by lia.
      assert (PK : 0 < 2 ^ (ec - e - s)) by (apply Z.pow_pos_nonneg; lia).
      set (K := mc * 2 ^ (ec - e - s)) in *.
      assert (K * 2 ^ s <= m) by nia.
      assert (K <= m / 2 ^ s) by (apply Z.div_le_lower_bound; lia).
      nia.
    + assert (2 ^ (ec + 55 + 1) <= 2 ^ (e + 55 + s)) by (apply pow2_le; lia).
      rewrite (pow2_add (ec + 55) 1) in H by lia.
      rewrite (pow2_add (e + 55) s) in H by lia.
      change (2 ^ 1) with 2 in H. change (2 ^ 53) with (2 * 2 ^ 52) in Hmc.
      nia.
Qed.

(** Rounding does not go above a number of 53 bits that the exact value
    does not exceed. *)
Lemma round_upper x mc ec :
  0 < mc < 2 ^ 53 -> -55 <= ec -> -55 <= Binary64.expo x ->
  scaled x <= mc * 2 ^ (ec + 55) ->
  scaled (Binary64.round x) <= mc * 2 ^ (ec + 55) /\
  -55 <= Binary64.expo (Binary64.round x).
Proof.
  destruct x as [m e]. unfold scaled. simpl. intros Hmc Hec He Le.
  assert (PE : 0 < 2 ^ (e + 55)) by (apply Z.pow_pos_nonneg; lia).
  assert (PC : 0 < 2 ^ (ec + 55)) by (apply Z.pow_pos_nonneg; lia).
  destruct (Z_le_gt_dec (Binary64.digits m - 53) 0) as [S0 | S1].
  - unfold Binary64.round. simpl.
    replace (Binary64.digits m - 53 <=? 0) with true
      by (symmetry; apply Z.leb_le; lia).
    simpl. split; assumption.
  - destruct (Z_le_gt_dec m 0) as [Neg | Hm].
    + unfold Binary64.round. simpl.
      replace (Binary64.digits m - 53 <=? 0) with false
        by (symmetry; apply Z.leb_gt; lia).
      simpl. split; [|lia].
      set (s := Binary64.digits m - 53) in *.
      assert (0 < 2 ^ (e + s + 55)) by (apply Z.pow_pos_nonneg; lia).
      assert (0 <= Z.abs m / 2 ^ s).
      { apply Z.div_pos; [lia | apply Z.pow_pos_nonneg; lia]. }
      assert (Z.sgn m <= 0) by lia.
      destruct (_ || _); nia.
    + destruct (round_positive m e ltac:(lia) ltac:(lia))
        as (q' & -> & (Q1 & Q2) & Q0 & _ & Q52).
      set (s := Binary64.digits m - 53) in *. simpl.
      split; [|lia].
      assert (PS : 0 < 2 ^ s) by (apply Z.pow_pos_nonneg; lia).
      pose proof (Z.div_mod m (2 ^ s) ltac:(lia)) as DM.
      pose proof (Z.mod_pos_bound m (2 ^ s) PS) as MB.
      replace (e + s + 55) with ((e + 55) + s) by lia.
      rewrite (pow2_add (e + 55) s) by lia.
      destruct (Z_le_gt_dec (e + s) ec) as [Big | Small].
      * replace (ec + 55) with ((ec - e - s) + ((e + 55) + s)) in * by lia.
        rewrite (pow2_add (ec - e - s) (e + 55 + s)) in * by lia.
        rewrite (pow2_add (e + 55) s) in * by lia.
        assert (PK : 0 < 2 ^ (ec - e - s)) by (apply Z.pow_pos_nonneg; lia).
        set (K := mc * 2 ^ (ec - e - s)) in *.
        assert (m <= K * 2 ^ s) by nia.
        assert (q' <= K); [|nia].
        destruct (Z.eq_dec (m mod 2 ^ s) 0) as [R0 | R1].
        -- rewrite (Q0 R0). apply Z.div_le_upper_bound; lia.
        -- assert (m / 2 ^ s < K); [|lia].
           apply Z.div_lt_upper_bound; [lia|].
           assert (m <> K * 2 ^ s); [|lia].
           intros EqK. apply R1. rewrite EqK. apply Z.mod_mul. lia.
      * exfalso.
        assert (2 ^ (ec + 55 + 1) <= 2 ^ (e + 55 + s)) by (apply pow2_le; lia).
        rewrite (pow2_add (ec + 55) 1) in H by lia.
      rewrite (pow2_add (e + 55) s) in H by lia.
        change (2 ^ 1) with 2 in H. change (2 ^ 53) with (2 * 2 ^ 52) in Hmc.
        nia.
Qed.

(** An [int] below [2^1024 - 2^970] converts: its rounding is below
    [2^1024]. *)
Lemma of_int_ok n :
  0 <= n < 2 ^ 1024 - 2 ^ 970 ->
  Binary64.of_int n = Ok (Binary64.round (Binary64.mkFloat n 0)) /\
  0 <= Binary64.expo (Binary64.round (Binary64.mkFloat n 0)).
Proof.
  intros (Lo & Hi). unfold Binary64.of_int.
  assert (B : 2 ^ 1024 = 2 ^ 970 * 2 ^ 54) by (rewrite <- pow2_add; [reflexivity | lia | lia]).
  assert (T : 0 < 2 ^ 970) by (apply Z.pow_pos_nonneg; lia).
  change (2 ^ 54) with 18014398509481984 in B.
  set (big := 2 ^ 1024) in *. set (t := 2 ^ 970) in *.
  destruct (Z_le_gt_dec (Binary64.digits n - 53) 0) as [S0 | S1].
  - unfold Binary64.round. simpl Binary64.mant.
    replace (Binary64.digits n - 53 <=? 0) with true
      by (symmetry; apply Z.leb_le; lia).
    simpl. rewrite Z.mul_1_r, Z.abs_eq by lia.
    replace (big <=? n) with false by (symmetry; apply Z.leb_gt; lia).
    split; [reflexivity | lia].
  - assert (Hn : 0 < n).
    { destruct (Z.eq_dec n 0) as [-> | ]; [|lia]. discriminate S1. }
    destruct (round_positive n 0 Hn ltac:(lia))
      as (q' & -> & (Q1 & Q2) & _ & Q3 & Q52).
    set (s := Binary64.digits n - 53) in *. simpl.
    assert (s - 1 <= 970).
    { destruct (digits_bounds n Hn) as (L & _).
      assert (2 ^ (Binary64.digits n - 1) < 2 ^ 1024) by (fold big; lia).
      apply Z.pow_lt_mono_r_iff in H; lia. }
    assert (2 ^ (s - 1) <= t) by (apply pow2_le; lia).
    assert (0 < 2 ^ s) by (apply Z.pow_pos_nonneg; lia).
    rewrite Z.abs_eq by nia.
    replace (big <=? q' * 2 ^ s) with false
      by (symmetry; apply Z.leb_gt; lia).
    split; [reflexivity | lia].
Qed.

Lemma ltb_scaled x y :
  -55 <= Binary64.expo x -> -55 <= Binary64.expo y ->
  Binary64.ltb x y = (scaled x <? scaled y).
Proof.
  destruct x as [mx ex], y as [my ey]. unfold Binary64.ltb, scaled. simpl.
  intros Hx Hy. set (e := Z.min ex ey).
  assert (P : 0 < 2 ^ (e + 55)) by (apply Z.pow_pos_nonneg; lia).
  replace (ex + 55) with ((ex - e) + (e + 55)) by lia.
  replace (ey + 55) with ((ey - e) + (e + 55)) by lia.
  rewrite (pow2_add (ex - e)), (pow2_add (ey - e)) by lia.
  destruct (Z.ltb_spec (mx * 2 ^ (ex - e)) (my * 2 ^ (ey - e)));
    symmetry; [apply Z.ltb_lt | apply Z.ltb_ge]; nia.
Qed.

(** From level 5 the multiplier is [0.7]. *)
Lemma multiplier_high level :
  5 <= level < 2 ^ 1024 - 2 ^ 970 -> multiplier level = Ok Binary64.lit_0_7.
Proof.
  intros (Lo & Hi). unfold multiplier.
  destruct (of_int_ok level ltac:(lia)) as (-> & E0). simpl bind. f_equal.
  set (l := Binary64.round (Binary64.mkFloat level 0)) in *.
  (* the level as a float is at least 5 *)
  assert (L5 : 5 * 2 ^ (0 + 55) <= scaled l).
  { apply (round_lower (Binary64.mkFloat level 0) 5 0); simpl; try lia.
    unfold scaled. simpl. assert (0 < 2 ^ 55) by reflexivity. nia. }
  (* its product with 0.1 is at least 0.5 *)
  assert (Y : 1 * 2 ^ (-1 + 55) <= scaled (Binary64.mul l Binary64.lit_0_1) /\
              -55 <= Binary64.expo (Binary64.mul l Binary64.lit_0_1)).
  { unfold Binary64.mul. apply round_lower; simpl; try lia.
    unfold scaled in *. simpl.
    replace (Binary64.expo l + -55 + 55) with (Binary64.expo l) by lia.
    rewrite (pow2_add (Binary64.expo l) 55) in L5 by lia.
    change (2 ^ (0 + 55)) with (2 ^ 55) in L5.
    change (2 ^ (-1 + 55)) with 18014398509481984.
    assert (0 < 2 ^ 55) by reflexivity. nia. }
  destruct Y as (Y & Ey).
  set (y := Binary64.mul l Binary64.lit_0_1) in *.
  (* 1.2 minus that is at most 0.7 *)
  assert (X : scaled (Binary64.sub Binary64.lit_1_2 y)
              <= 3152519739159347 * 2 ^ (-52 + 55) /\
              -55 <= Binary64.expo (Binary64.sub Binary64.lit_1_2 y)).
  { unfold Binary64.sub. unfold Binary64.lit_1_2.
    cbn [Binary64.mant Binary64.expo].
    set (e := Z.min (-52) (Binary64.expo y)).
    assert (P : 0 < 2 ^ (e + 55)) by (apply Z.pow_pos_nonneg; lia).
    apply round_upper; cbn [Binary64.mant Binary64.expo]; try lia.
    unfold scaled in *. cbn [Binary64.mant Binary64.expo].
    rewrite Z.mul_sub_distr_r, <- !Z.mul_assoc, <- !pow2_add by lia.
    replace (-52 - e + (e + 55)) with 3 by lia.
    replace (Binary64.expo y - e + (e + 55)) with (Binary64.expo y + 55) by lia.
    change (2 ^ (-1 + 55)) with 18014398509481984 in Y.
    change (2 ^ 3) with 8. change (2 ^ (-52 + 55)) with 8. lia. }
  destruct X as (X & Ex).
  unfold Binary64.max. rewrite ltb_scaled by (simpl; lia).
  replace (_ <? _) with false; [reflexivity|].
  symmetry. apply Z.ltb_ge. exact X.
Qed.

(** ** C8: a new level *)

Lemma spec_total_high b level :
  5 <= level ->
  spec_total b level = Z.max 2 (Qfloor (inject_Z b * (7 # 10))).
Proof.
  intros L. unfold spec_total.
  assert (Q : (inject_Z 5 <= inject_Z level)%Q) by (now rewrite <- Zle_Qle).
  change (inject_Z 5) with (5 # 1) in Q.
  rewrite Q.max_l; [reflexivity|]. lra.
Qed.

Lemma initial_totals level :
  1 <= level < 2 ^ 1024 - 2 ^ 970 ->
  exists resources,
    _initialize_resources level = Ok resources /\
    forall k, total (get resources k) = spec_total (get base_amounts k) level /\
              available (get resources k)
              = spec_total (get base_amounts k) level.
Proof.
  intros (Lo & Hi).
  assert (C : level = 1 \/ level = 2 \/ level = 3 \/ level = 4 \/ 5 <= level)
    by lia.
  destruct C as [-> | [-> | [-> | [-> | L5]]]].
  - eexists. split; [vm_compute; reflexivity|].
    intros []; split; vm_compute; reflexivity.
  - eexists. split; [vm_compute; reflexivity|].
    intros []; split; vm_compute; reflexivity.
  - eexists. split; [vm_compute; reflexivity|].
    intros []; split; vm_compute; reflexivity.
  - eexists. split; [vm_compute; reflexivity|].
    intros []; split; vm_compute; reflexivity.
  - unfold _initialize_resources. rewrite multiplier_high by lia.
    eexists. split; [vm_compute; reflexivity|].
    intros []; rewrite spec_total_high by exact L5; split; vm_compute;
      reflexivity.
Qed.

Lemma generate_loop_length level rng i selected calls :
  length (generate_loop level rng i selected calls) = length selected.
Proof.
  revert i calls. induction selected as [|[name requirements] selected IH];
    intros i calls; [reflexivity|].
  simpl. destruct (vary_loop level rng requirements [] calls).
  simpl. now rewrite IH.
Qed.




(** ** The scenarios of the specification, run *)

(** Two processes that each need one of two CPU: both finish and the level
    is complete. *)
Example scenario_1_completes :
  let self := play scenario_1 [("A", CPU, 1); ("B", CPU, 1)] in
  fst (is_level_complete self) = true /\
  available (get (resources self) CPU) = 2 /\
  game_log self = ["Processo A (A) finalizado!"; "Alocado 1 CPU para A";
                   "Processo B (B) finalizado!"; "Alocado 1 CPU para B"].
Proof. repeat split. Qed.

(** Each of two processes holds what the other still needs: deadlock. *)
Example scenario_2_deadlocks :
  let self := play scenario_2 [("A", CPU, 1); ("B", DISCO, 1)] in
  fst (detect_deadlock self) = true /\
  fst (is_level_complete self) = false /\
  fst (allocate_resource self "A" DISCO 1) = false.
Proof. repeat split. Qed.

(** With a move limit of 1, one grant that neither completes a process nor
    deadlocks ends the game. *)
Example scenario_3_out_of_moves :
  let self := play scenario_3 [("A", CPU, 1)] in
  fst (detect_deadlock self) = false /\ fst (is_game_over self) = true /\
  fst (is_game_over scenario_3) = false.
Proof. repeat split. Qed.

Example str_examples : str 0 = "0" /\ str 12 = "12" /\ str (-3) = "-3".
Proof. repeat split. Qed.

(** The conversion of an [int] rounds to the nearest even at 53 bits and
    overflows from [2^1024 - 2^970]. *)
Example of_int_examples :
  Binary64.of_int 9007199254740993
  = Ok (Binary64.mkFloat 4503599627370496 1) /\
  Binary64.of_int 9007199254740995
  = Ok (Binary64.mkFloat 4503599627370498 1) /\
  Binary64.of_int (2 ^ 1024 - 2 ^ 970) = Raise OverflowError /\
  Binary64.of_int (2 ^ 1024 - 2 ^ 970 - 1)
  = Ok (Binary64.mkFloat (2 ^ 53 - 1) 971).
Proof. repeat split; vm_compute; reflexivity. Qed.

(** [max(0.7, 1.2 - level * 0.1)] at the first levels: 1.0999999999999999,
    1.0, 0.8999999999999999, 0.7999999999999999 and 0.7. *)
Example multiplier_examples :
  multiplier 1 = Ok (Binary64.mkFloat 4953959590107545 (-52)) /\
  multiplier 2 = Ok (Binary64.mkFloat 9007199254740992 (-53)) /\
  multiplier 3 = Ok (Binary64.mkFloat 8106479329266892 (-53)) /\
  multiplier 4 = Ok (Binary64.mkFloat 7205759403792793 (-53)) /\
  multiplier 5 = Ok Binary64.lit_0_7.
Proof. repeat split. Qed.

(** * More properties of the engine *)

(** ** Resource *)

(** X1. A successful [allocate] followed by a [release] of the same amount
    gives the resource back as it was, when it did not hold more than its
    capacity; and whatever the amount, [release] leaves the capacity as it
    is and never leaves more available than the capacity. *)
Theorem Resource_allocate_release r amount :
  (available r <= total r ->
   fst (Resource_allocate r amount) = true ->
   Resource_release (snd (Resource_allocate r amount)) amount = r) /\
  total (Resource_release r amount) = total r /\
  available (Resource_release r amount) <= total r /\
  (fst (Resource_allocate r amount) = false ->
   snd (Resource_allocate r amount) = r /\ available r < amount).
Proof.
  unfold Resource_allocate, Resource_release.
  destruct (Z.geb_spec (available r) amount) as [G | L]; simpl;
    repeat split; try lia; try discriminate.
  intros Le _. destruct r as [t tot av]. simpl in *. f_equal. lia.
Qed.

Lemma Resource_allocate_release_witness :
  Resource_release (snd (Resource_allocate (mkResource CPU 4 3) 2)) 2
  = mkResource CPU 4 3.
Proof.
  apply (proj1 (Resource_allocate_release (mkResource CPU 4 3) 2));
    [simpl; lia | reflexivity].
Defined.

(** ** Process *)

Lemma is_satisfied_loop_forall allocated items :
  is_satisfied_loop allocated items = true <->
  forall k required, In (k, required) items -> required <= get allocated k.
Proof.
  induction items as [|[k r] items IH]; simpl.
  - split; [intros _ k r [] | reflexivity].
  - destruct (Z.ltb_spec (get allocated k) r) as [L | G].
    + split; [discriminate|]. intros H.
      specialize (H k r (or_introl eq_refl)). lia.
    + rewrite IH. split.
      * intros H k' r' [I | I]; [inversion I; subst; exact G | now apply H].
      * intros H k' r' I. apply H. now right.
Qed.

(** X2. A process is satisfied exactly when it can finish with nothing
    available; a satisfied process can finish from any availability that is
    not negative; and a process that can finish still can when more is
    available. *)
Theorem can_finish_is_satisfied p :
  can_finish p (build (fun _ => 0)) = is_satisfied p /\
  (forall available,
     is_satisfied p = true -> (forall k, 0 <= get available k) ->
     can_finish p available = true) /\
  (forall available available',
     (forall k, get available k <= get available' k) ->
     can_finish p available = true -> can_finish p available' = true).
Proof.
  split; [|split].
  - apply eq_true_iff_eq. unfold is_satisfied.
    rewrite can_finish_forall, is_satisfied_loop_forall.
    split; intros H k r I; specialize (H k r I); rewrite ?get_build in *; lia.
  - intros available Sat Pos. apply can_finish_forall. intros k r I.
    unfold is_satisfied in Sat. rewrite is_satisfied_loop_forall in Sat.
    specialize (Sat k r I). specialize (Pos k). lia.
  - intros available available'. apply can_finish_monotone.
Qed.

Lemma can_finish_is_satisfied_witness :
  can_finish (mkProcess "P1" "Backup" [(DISCO, 2); (MEMORIA, 1)]
                        (mkEnumDict 0 1 2 0) WAITING)
             (mkEnumDict 0 0 1 0) = true.
Proof.
  apply (proj1 (proj2 (can_finish_is_satisfied
                         (mkProcess "P1" "Backup" [(DISCO, 2); (MEMORIA, 1)]
                                    (mkEnumDict 0 1 2 0) WAITING)))).
  - reflexivity.
  - intros []; simpl; lia.
Defined.

(** ** What a call of allocate_resource leaves alone *)

Lemma prefix_of_refl {A} (l : list A) : prefix_of l l.
Proof. exists []. now rewrite app_nil_r. Qed.

Lemma prefix_of_trans {A} (l1 l2 l3 : list A) :
  prefix_of l1 l2 -> prefix_of l2 l3 -> prefix_of l1 l3.
Proof.
  intros (a & ->) (b & ->). exists (a ++ b). now rewrite app_assoc.
Qed.

Lemma nth_error_replaced {A} (l1 l2 : list A) x y i q :
  nth_error (l1 ++ x :: l2) i = Some q -> q <> x \/ i <> length l1 ->
  i <> length l1 /\ nth_error (l1 ++ y :: l2) i = Some q.
Proof.
  intros N D.
  assert (Hi : i <> length l1).
  { destruct D as [D | D]; [|exact D]. intros ->.
    rewrite nth_error_app2, Nat.sub_diag in N by lia.
    simpl in N. inversion N; subst. now apply D. }
  split; [exact Hi|].
  destruct (Nat.lt_ge_cases i (length l1)) as [L | G].
  - rewrite nth_error_app1 in * by lia. exact N.
  - rewrite nth_error_app2 in * by lia.
    destruct (i - length l1)%nat as [|j] eqn:E; [lia | exact N].
Qed.

Lemma allocate_resource_keeps self process_id k amount :
  let self' := snd (allocate_resource self process_id k amount) in
  level self' = level self /\ max_moves self' = max_moves self /\
  (forall k', total (get (resources self') k')
              = total (get (resources self) k')) /\
  map id (processes self') = map id (processes self) /\
  map name (processes self') = map name (processes self) /\
  map required_resources (processes self')
  = map required_resources (processes self) /\
  (forall i q, nth_error (processes self) i = Some q ->
               id q <> process_id \/ state q = FINISHED ->
               nth_error (processes self') i = Some q) /\
  moves self <= moves self' /\
  prefix_of (game_log self) (game_log self').
Proof.
  intros self'. subst self'.
  assert (T := fun k' => total_step self process_id k amount k').
  revert T.
  outcome_cases self process_id k amount; cbn [snd]; intros T.
  1-3: repeat split; try reflexivity; try lia; try apply prefix_of_refl;
       intros; assumption.
  - unfold after_grant in *. cbn [level max_moves processes resources moves
                                  game_log] in *.
    rewrite Hl, !map_app. simpl.
    repeat split; try lia; try exact T; try (now eexists).
    intros i q N D.
    apply (nth_error_replaced l1 l2 p (granted p k amount)) in N;
      [tauto|].
    left. intros ->.
    destruct (find_process_split _ _ _ _ F) as (_ & _ & _ & _ & Hid & _).
    destruct D as [D | D]; [now apply D | contradiction].
  - unfold after_finish in *. cbn [level max_moves processes resources moves
                                   game_log] in *.
    rewrite Hl, !map_app. simpl.
    repeat split; try lia; try exact T; try (now eexists).
    intros i q N D.
    apply (nth_error_replaced l1 l2 p (finished (granted p k amount))) in N;
      [tauto|].
    left. intros ->.
    destruct (find_process_split _ _ _ _ F) as (_ & _ & _ & _ & Hid & _).
    destruct D as [D | D]; [now apply D | contradiction].
Qed.

(** X3. A call of [allocate_resource], whatever its arguments and its
    result, leaves the level, the move limit and the capacities as they
    are, the processes as many and in the same order with the same
    identifiers, names and requirements; it leaves every process with
    another identifier and every Finished process exactly as it was; it
    never lowers the move counter and only adds to the end of the log. *)
Theorem allocate_resource_frame self process_id k amount :
  let self' := snd (allocate_resource self process_id k amount) in
  level self' = level self /\ max_moves self' = max_moves self /\
  (forall k', total (get (resources self') k')
              = total (get (resources self) k')) /\
  map id (processes self') = map id (processes self) /\
  map name (processes self') = map name (processes self) /\
  map required_resources (processes self')
  = map required_resources (processes self) /\
  (forall i q, nth_error (processes self) i = Some q ->
               id q <> process_id \/ state q = FINISHED ->
               nth_error (processes self') i = Some q) /\
  moves self <= moves self' /\
  prefix_of (game_log self) (game_log self').
Proof. apply allocate_resource_keeps. Qed.

Lemma allocate_resource_frame_witness :
  nth_error (processes (snd (allocate_resource example_start "P2" CPU 1))) 0
  = Some (mkProcess "P1" "Impressão" [(IMPRESSORA, 1); (MEMORIA, 1)]
                    (mkEnumDict 0 0 0 0) WAITING).
Proof.
  apply (allocate_resource_frame example_start "P2" CPU 1).
  - reflexivity.
  - left. discriminate.
Defined.

(** ** The move counter and the log *)






(** ** A complete level *)

Lemma is_level_complete_all self :
  fst (is_level_complete self) = true <->
  forall p, In p (processes self) -> state p = FINISHED.
Proof.
  unfold is_level_complete. cbn [fst]. rewrite forallb_forall.
  split; intros H p I; apply ProcessState_eqb_eq; now apply H.
Qed.

Lemma unfinished_nil_iff self :
  unfinished self = [] <->
  forall p, In p (processes self) -> state p = FINISHED.
Proof.
  unfold unfinished. induction (processes self) as [|p l IH]; simpl.
  - split; [intros _ p [] | reflexivity].
  - destruct (ProcessState_eqb (state p) FINISHED) eqn:E; simpl.
    + apply ProcessState_eqb_eq in E. rewrite IH. split.
      * intros H q [<- | I]; [exact E | now apply H].
      * intros H q I. apply H. now right.
    + split; [discriminate|]. intros H.
      apply not_finished_eqb in E. contradiction E. apply H. now left.
Qed.

(** X5. Once the level is complete the engine is at rest: every call of
    [allocate_resource] returns false and changes nothing, there is no
    deadlock, and the game is over exactly when the moves are used up. *)
Theorem complete_level_at_rest self :
  fst (is_level_complete self) = true ->
  (forall process_id k amount,
     allocate_resource self process_id k amount = (false, self)) /\
  detect_deadlock self = (false, self) /\
  is_game_over self = (moves self >=? max_moves self, self).
Proof.
  intros C. rewrite is_level_complete_all in C.
  assert (D : detect_deadlock self = (false, self)).
  { pose proof (proj2 (unfinished_nil_iff self) C) as U.
    unfold detect_deadlock, detect_deadlock_within, detect_deadlock_frame.
    rewrite U. reflexivity. }
  split; [|split; [exact D|]].
  - intros process_id k amount.
    outcome_cases self process_id k amount; try reflexivity;
      exfalso; apply S, C; rewrite Hl; apply in_app_iff; right; now left.
  - unfold is_game_over. now rewrite D.
Qed.

Lemma complete_level_at_rest_witness :
  let self := play scenario_1 [("A", CPU, 1); ("B", CPU, 1)] in
  (forall process_id k amount,
     allocate_resource self process_id k amount = (false, self)) /\
  detect_deadlock self = (false, self) /\
  is_game_over self = (moves self >=? max_moves self, self).
Proof.
  intros self. apply (complete_level_at_rest self). reflexivity.
Defined.

(** ** The end of the game *)

Lemma is_game_over_spec self :
  is_game_over self
  = (fst (detect_deadlock self) || (moves self >=? max_moves self), self).
Proof.
  unfold is_game_over. pose proof (detect_deadlock_self self) as S.
  destruct (detect_deadlock self) as [d s]. simpl in S. subst s.
  now destruct d.
Qed.

Lemma play_frame self calls :
  max_moves (play self calls) = max_moves self /\
  moves self <= moves (play self calls) /\
  prefix_of (game_log self) (game_log (play self calls)) /\
  map id (processes (play self calls)) = map id (processes self) /\
  map required_resources (processes (play self calls))
  = map required_resources (processes self).
Proof.
  revert self. induction calls as [|[[process_id k] amount] calls IH];
    intros self.
  - simpl. split; [reflexivity|]. split; [lia|].
    split; [apply prefix_of_refl|]. split; reflexivity.
  - cbn [play].
    destruct (IH (snd (allocate_resource self process_id k amount)))
      as (A & B & C & D & E).
    destruct (allocate_resource_keeps self process_id k amount)
      as (_ & A' & _ & D' & _ & E' & _ & B' & C').
    split; [congruence|]. split; [lia|].
    split; [now apply prefix_of_trans with (2 := C)|].
    split; congruence.
Qed.

(** X6. [is_game_over] changes nothing, and a game that is over because the
    moves are used up stays over whatever calls of [allocate_resource]
    follow: the move limit does not change and the move counter never goes
    down. *)
Theorem out_of_moves_is_final self calls :
  snd (is_game_over self) = self /\
  (max_moves self <= moves self ->
   fst (is_game_over (play self calls)) = true).
Proof.
  split; [now rewrite is_game_over_spec|].
  intros H. rewrite is_game_over_spec. cbn [fst].
  destruct (play_frame self calls) as (A & B & _).
  replace (_ >=? _) with true; [apply orb_true_r|].
  symmetry. apply Z.geb_le. lia.
Qed.

Lemma out_of_moves_is_final_witness :
  fst (is_game_over (play (play scenario_3 [("A", CPU, 1)])
                          [("B", CPU, 1); ("A", DISCO, 1)])) = true.
Proof.
  apply (out_of_moves_is_final (play scenario_3 [("A", CPU, 1)])).
  simpl. lia.
Defined.

(** ** The identifiers and names of a level *)

Lemma str_inj a b : str a = str b -> a = b.
Proof.
  unfold str. intros E.
  assert (N : forall z, Z.to_int z <> Decimal.Pos Decimal.Nil /\
                        Z.to_int z <> Decimal.Neg Decimal.Nil).
  { intros [|p|p]; simpl; split; try discriminate; intros H;
      inversion H as [H'];
      now apply (DecimalPos.Unsigned.to_uint_nonnil p). }
  apply DecimalZ.to_int_inj.
  assert (Some (Z.to_int a) = Some (Z.to_int b)); [|congruence].
  rewrite <- (NilZero.isi (Z.to_int a)), <- (NilZero.isi (Z.to_int b));
    try apply N.
  now rewrite E.
Qed.

Lemma generate_loop_ids level rng i selected calls :
  map id (generate_loop level rng i selected calls)
  = map (fun j => ("P" ++ str (i + 1 + Z.of_nat j))%string)
        (seq 0 (length selected)).
Proof.
  revert i calls. induction selected as [|[nm requirements] selected IH];
    intros i calls; [reflexivity|].
  cbn [generate_loop].
  destruct (vary_loop level rng requirements [] calls) as [varied calls'].
  cbn [map length seq id]. rewrite Z.add_0_r. f_equal.
  rewrite IH, <- seq_shift, map_map. apply map_ext. intros j.
  do 2 f_equal. lia.
Qed.

Lemma pick_positions {A} (population : list A) positions y :
  In y (pick population positions) ->
  exists j, In j positions /\ nth_error population j = Some y.
Proof.
  induction positions as [|i positions IH]; simpl; [contradiction|].
  destruct (nth_error population i) eqn:E.
  - intros [<- | I]; [exists i; tauto|].
    destruct (IH I) as (j & Hj & N). exists j. tauto.
  - intros I. destruct (IH I) as (j & Hj & N). exists j. tauto.
Qed.

Lemma pick_NoDup {A B} (f : A -> B) (population : list A) positions :
  NoDup positions -> NoDup (map f population) ->
  NoDup (map f (pick population positions)).
Proof.
  intros NP NF. induction NP as [|i positions Hi NP IH]; simpl;
    [constructor|].
  destruct (nth_error population i) as [x|] eqn:E; [|exact IH].
  simpl. constructor; [|exact IH].
  intros I. apply in_map_iff in I as (y & Fy & Iy).
  apply pick_positions in Iy as (j & Hj & N).
  assert (i = j); [|congruence].
  apply (proj1 (NoDup_nth_error (map f population))) with (1 := NF).
  - apply nth_error_Some. rewrite nth_error_map, E. discriminate.
  - rewrite !nth_error_map, E, N. simpl. now rewrite Fy.
Qed.

Lemma perturbed_keys level requirements required :
  perturbed level requirements required ->
  map fst required = map fst requirements.
Proof.
  induction 1 as [|t x ts xs (K & _) _ IH]; [reflexivity|].
  simpl. now rewrite K, IH.
Qed.

Lemma Forall2_In_r {A B} (R : A -> B -> Prop) l l' y :
  Forall2 R l l' -> In y l' -> exists x, In x l /\ R x y.
Proof.
  induction 1 as [|a b l l' Rab _ IH]; intros I; [contradiction|].
  destruct I as [<- | I]; [exists a; split; [now left | exact Rab]|].
  destruct (IH I) as (x & Ix & Rx). exists x. split; [now right | exact Rx].
Qed.

Lemma created_identifiers self :
  created self ->
  map id (processes self)
  = map (fun j => ("P" ++ str (Z.of_nat j + 1))%string)
        (seq 0 (length (processes self))) /\
  NoDup (map id (processes self)) /\
  NoDup (map name (processes self)) /\
  (forall p, In p (processes self) ->
             In (name p) (map fst process_templates) /\
             NoDup (map fst (required_resources p))).
Proof.
  intros (level & rng & L & V & I).
  unfold GameState_init, bind in I.
  destruct (_initialize_resources level) as [res|]; [|discriminate].
  destruct (_generate_processes_spec level rng L V) as (G & F).
  rewrite G in I. inversion I; subst. cbn [processes]. clear I G.
  set (selected := pick process_templates (sample_positions rng)) in *.
  assert (Ids : map id (generate_loop level rng 0 selected 0)
                = map (fun j => ("P" ++ str (Z.of_nat j + 1))%string)
                      (seq 0 (length (generate_loop level rng 0 selected 0)))).
  { rewrite generate_loop_ids, generate_loop_length. apply map_ext.
    intros j. do 2 f_equal. lia. }
  split; [exact Ids|]. split; [|split].
  - rewrite Ids. apply Finite.Injective_map_NoDup; [|apply seq_NoDup].
    intros a b E. inversion E as [E']. apply str_inj in E'. lia.
  - replace (map name (generate_loop level rng 0 selected 0))
      with (map fst selected).
    + apply pick_NoDup; [apply V|].
      repeat constructor; simpl; intuition discriminate.
    + clear Ids. induction F as [|t p ts ps (N & _) _ IH]; [reflexivity|].
      simpl. now rewrite N, IH.
  - intros p Ip.
    destruct (Forall2_In_r _ _ _ _ F Ip) as (t & It & (N & P & _)).
    apply pick_In in It.
    pose proof (proj1 (Forall_forall _ _) process_templates_ok t It)
      as (ND & _).
    split.
    + rewrite N. now apply in_map.
    + now rewrite (perturbed_keys _ _ _ P).
Qed.

(** X7. The processes of a new level are identified "P1", "P2", ... in the
    order of the list; their identifiers are distinct, and so are their
    names, which are names of the catalog; and none lists a kind twice
    among its requirements. *)
Theorem level_identifiers self :
  created self ->
  map id (processes self)
  = map (fun j => ("P" ++ str (Z.of_nat j + 1))%string)
        (seq 0 (length (processes self))) /\
  NoDup (map id (processes self)) /\
  NoDup (map name (processes self)) /\
  (forall p, In p (processes self) ->
             In (name p) (map fst process_templates) /\
             NoDup (map fst (required_resources p))).
Proof. apply created_identifiers. Qed.

Lemma level_identifiers_witness :
  map id (processes example_start)
  = map (fun j => ("P" ++ str (Z.of_nat j + 1))%string)
        (seq 0 (length (processes example_start))) /\
  NoDup (map id (processes example_start)) /\
  NoDup (map name (processes example_start)) /\
  (forall p, In p (processes example_start) ->
             In (name p) (map fst process_templates) /\
             NoDup (map fst (required_resources p))).
Proof. apply (level_identifiers example_start example_start_created). Defined.

(** ** Invariants of every game *)

Lemma reachable_by_weaken (allowed allowed' : _ -> _ -> _ -> _ -> Prop)
      start s :
  (forall s process_id k amount,
     allowed s process_id k amount -> allowed' s process_id k amount) ->
  reachable_by allowed start s -> reachable_by allowed' start s.
Proof.
  intros W R. induction R; [apply reachable_start|].
  apply reachable_allocate; [assumption | now apply W].
Qed.

Lemma distinct_ids_step self process_id k amount :
  distinct_ids self ->
  distinct_ids (snd (allocate_resource self process_id k amount)).
Proof.
  destruct (allocate_resource_keeps self process_id k amount)
    as (_ & _ & _ & Ids & _ & Req & _).
  intros (N & R). split; [now rewrite Ids|].
  intros p I. apply (in_map required_resources) in I. rewrite Req in I.
  apply in_map_iff in I as (q & <- & Iq). now apply R.
Qed.

Lemma created_distinct_ids start self :
  created start -> reachable_by any_call start self -> distinct_ids self.
Proof.
  intros C R. revert self R.
  apply (reachable_by_ind_inv any_call distinct_ids).
  - destruct (created_identifiers start C) as (_ & N & _ & R).
    split; [exact N | intros p I; now apply R].
  - intros s process_id k amount D _. now apply distinct_ids_step.
Qed.

(** X8. As long as no call has a negative amount, every kind has between 0
    and its capacity available, and no process holds more of a kind than
    the capacity. *)
Theorem pool_bounds start self :
  created start -> reachable_by nonnegative_amount start self ->
  forall k,
    0 <= available (get (resources self) k) <= total (get (resources self) k)
    /\
    forall p, In p (processes self) ->
              0 <= get (allocated_resources p) k
              <= total (get (resources self) k).
Proof.
  intros C R k.
  destruct (created_nonnegative_invariants start self C R) as (H & Co).
  assert (R' : reachable_by any_call start self).
  { apply reachable_by_weaken with (2 := R). intros. exact I. }
  destruct (created_any_invariants start self C R') as (P & _).
  specialize (Co k). destruct (P k) as (A0 & _).
  assert (Hk : forall l, (forall p, In p l -> In p (processes self)) ->
                         0 <= held k l).
  { intros l Sub. apply held_not_negative. intros p I. now apply H, Sub. }
  split.
  - pose proof (Hk (processes self) (fun p I => I)). lia.
  - intros p I. split; [now apply H|].
    apply in_split in I as (l1 & l2 & E).
    rewrite E, held_app, held_cons in Co.
    assert (0 <= held k l1).
    { apply Hk. intros q Iq. rewrite E. apply in_app_iff. now left. }
    assert (0 <= held k l2).
    { apply Hk. intros q Iq. rewrite E. apply in_app_iff. right. now right. }
    destruct (ProcessState_eqb (state p) FINISHED) eqn:S; [|lia].
    apply ProcessState_eqb_eq in S.
    assert (get (allocated_resources p) k = 0).
    { apply H; [|exact S]. rewrite E. apply in_app_iff. right. now left. }
    lia.
Qed.

Lemma pool_bounds_witness :
  0 <= available (get (resources (play example_start [("P2", CPU, 3)])) CPU)
  <= total (get (resources (play example_start [("P2", CPU, 3)])) CPU)
  /\
  forall p, In p (processes (play example_start [("P2", CPU, 3)])) ->
            0 <= get (allocated_resources p) CPU
            <= total (get (resources (play example_start [("P2", CPU, 3)]))
                          CPU).
Proof.
  apply (pool_bounds example_start (play example_start [("P2", CPU, 3)])
                     example_start_created).
  apply play_reachable; [apply reachable_start|].
  intros s process_id k amount [E | []]. inversion E.
  unfold nonnegative_amount. lia.
Defined.

(** ** Deadlock when nobody holds anything *)

Lemma can_finish_false p available :
  can_finish p available = false <-> demands_too_much available p.
Proof.
  unfold can_finish, demands_too_much.
  induction (required_resources p) as [|[k r] items IH]; simpl.
  - split; [discriminate | intros (k & r & [] & _)].
  - destruct (Z.gtb_spec (r - get (allocated_resources p) k)
                         (get available k)) as [G | L].
    + split; [|reflexivity]. intros _. exists k, r. split; [now left | lia].
    + rewrite IH. split.
      * intros (k' & r' & I & D). exists k', r'. split; [now right | exact D].
      * intros (k' & r' & [I | I] & D); [inversion I; subst; lia|].
        exists k', r'. tauto.
Qed.

Lemma give_back_nothing p available :
  (forall k, get (allocated_resources p) k = 0) ->
  give_back p available = available.
Proof.
  intros Z0. apply EnumDict_ext. intros k. unfold give_back.
  rewrite get_build, Z0. lia.
Qed.

Lemma finish_in_order_idle available order :
  (forall p k, In p order -> get (allocated_resources p) k = 0) ->
  finish_in_order available order = true <->
  forall p, In p order -> can_finish p available = true.
Proof.
  intros Z0. induction order as [|p order IH]; simpl.
  - split; [intros _ p [] | reflexivity].
  - rewrite give_back_nothing by (intros k; apply Z0; now left).
    rewrite andb_true_iff, IH by (intros q k I; apply Z0; now right).
    split.
    + intros (Hp & H) q [<- | I]; [exact Hp | now apply H].
    + intros H. split; [apply H; now left | intros q I; apply H; now right].
Qed.

Lemma idle_deadlock self :
  (forall p k, In p (unfinished self) -> get (allocated_resources p) k = 0) ->
  fst (detect_deadlock self) = true <->
  exists p, In p (unfinished self) /\
            demands_too_much (get_available_resources self) p.
Proof.
  intros Z0.
  assert (NN : holds_no_negative self).
  { intros p k I. rewrite (Z0 p k I). lia. }
  destruct (detect_deadlock_safe self) as (D1 & D2).
  assert (S : safe self <->
              forall p, In p (unfinished self) ->
                        can_finish p (get_available_resources self) = true).
  { unfold safe. split.
    - intros (order & Perm & Fin) p I.
      rewrite finish_in_order_idle in Fin.
      + apply Fin. apply Permutation_in with (unfinished self);
          [now apply Permutation_sym | exact I].
      + intros q k Iq. apply Z0. now apply Permutation_in with order.
    - intros H. exists (unfinished self). split; [apply Permutation_refl|].
      now apply finish_in_order_idle. }
  split.
  - intros T.
    assert (E : exists p, In p (unfinished self) /\
                          can_finish p (get_available_resources self) = false).
    { destruct (existsb (fun p => negb (can_finish p (get_available_resources
                                                        self)))
                        (unfinished self)) eqn:X.
      - apply existsb_exists in X as (p & I & N). exists p.
        split; [exact I | now apply negb_true_iff].
      - exfalso. rewrite D2 in T; [discriminate | exact NN|].
        apply S. intros p I.
        destruct (can_finish p (get_available_resources self)) eqn:Cf;
          [reflexivity|].
        assert (existsb (fun p => negb (can_finish p (get_available_resources
                                                        self)))
                        (unfinished self) = true); [|congruence].
        apply existsb_exists. exists p. split; [exact I | now rewrite Cf]. }
    destruct E as (p & I & Cf). exists p. split; [exact I|].
    now apply can_finish_false.
  - intros (p & I & D).
    destruct (fst (detect_deadlock self)) eqn:T; [reflexivity|].
    pose proof (proj1 S (D1 eq_refl)) as Sf. apply can_finish_false in D.
    rewrite (Sf p I) in D. discriminate.
Qed.

(** X9. When no process that is not Finished holds anything, as at the
    start of a level, [detect_deadlock] returns true exactly when one of
    these processes requires more of some kind than is available. *)
Theorem deadlock_with_empty_hands self :
  (forall p k, In p (unfinished self) -> get (allocated_resources p) k = 0) ->
  fst (detect_deadlock self) = true <->
  exists p, In p (unfinished self) /\
            demands_too_much (get_available_resources self) p.
Proof. apply idle_deadlock. Qed.

Lemma deadlock_with_empty_hands_witness :
  fst (detect_deadlock example_start) = true <->
  exists p, In p (unfinished example_start) /\
            demands_too_much (get_available_resources example_start) p.
Proof.
  apply (deadlock_with_empty_hands example_start).
  intros p k I. vm_compute in I.
  destruct I as [<- | [<- | [<- | []]]]; destruct k; reflexivity.
Defined.

(** ** How a level starts *)

Lemma GameState_init_parts level rng self :
  1 <= level ->
  valid_random rng (length process_templates) (Z.min (2 + level) 6) ->
  GameState_init level rng = Ok self ->
  exists pool,
    _initialize_resources level = Ok pool /\
    self = mkGameState level pool
             (generate_loop level rng 0
                (pick process_templates (sample_positions rng)) O)
             [] 0 20.
Proof.
  intros L V I. unfold GameState_init, bind in I.
  destruct (_initialize_resources level) as [pool|]; [|discriminate].
  destruct (_generate_processes_spec level rng L V) as (G & _).
  rewrite G in I. inversion I; subst. now exists pool.
Qed.

Lemma templates_fit_base :
  Forall (fun t => forall k r, In (k, r) (snd t) -> r <= get base_amounts k)
         process_templates.
Proof.
  unfold process_templates.
  repeat constructor; simpl; intros k r I;
    repeat destruct I as [I | I]; try contradiction; inversion I; subst;
    simpl; lia.
Qed.

Lemma fresh_not_complete self :
  Forall fresh_process (processes self) -> processes self <> [] ->
  fst (is_level_complete self) = false /\
  (forall p k, In p (unfinished self) -> get (allocated_resources p) k = 0).
Proof.
  intros F NE. split.
  - unfold is_level_complete. cbn [fst].
    destruct (processes self) as [|p l]; [contradiction NE; reflexivity|].
    inversion F as [|? ? (W & _) _]; subst. simpl. now rewrite W.
  - intros p k I. unfold unfinished in I. apply filter_In in I as (I & _).
    rewrite Forall_forall in F. destruct (F p I) as (_ & -> & _).
    apply get_build.
Qed.

Lemma first_levels_start level rng self :
  level = 1 \/ level = 2 ->
  valid_random rng (length process_templates) (Z.min (2 + level) 6) ->
  GameState_init level rng = Ok self ->
  fst (detect_deadlock self) = false /\
  fst (is_game_over self) = false /\
  fst (update_game_display self) = GameScreen.
Proof.
  intros L V I.
  assert (C : created self)
    by (exists level, rng; split; [lia | split; assumption]).
  destruct (created_facts self C) as (Pool & Fresh & _ & M & MM).
  destruct (GameState_init_parts level rng self ltac:(lia) V I)
    as (pool & R & E).
  destruct (_generate_processes_spec level rng ltac:(lia) V) as (_ & F).
  assert (NE : processes self <> []).
  { rewrite E. cbn [processes]. intros Nil.
    apply (f_equal (@length _)) in Nil.
    rewrite generate_loop_length, pick_length in Nil by apply V.
    destruct V as (Len & _). simpl in Nil. lia. }
  destruct (fresh_not_complete self Fresh NE) as (NC & Idle).
  assert (D : fst (detect_deadlock self) = false).
  { destruct (fst (detect_deadlock self)) eqn:T; [|reflexivity]. exfalso.
    apply (idle_deadlock self Idle) in T as (p & Ip & k & r & Ir & Lt).
    unfold unfinished in Ip. apply filter_In in Ip as (Ip & _).
    rewrite (Idle p k) in Lt
      by (unfold unfinished; apply filter_In; split;
          [exact Ip | rewrite Forall_forall in Fresh;
                      destruct (Fresh p Ip) as (-> & _); reflexivity]).
    unfold get_available_resources, map_values in Lt.
    rewrite get_build in Lt. destruct (Pool k) as (Av & _). rewrite Av in Lt.
    rewrite E in Ip. cbn [processes] in Ip.
    destruct (Forall2_In_r _ _ _ _ F Ip) as (t & It & (_ & P & _)).
    apply pick_In in It.
    pose proof (proj1 (Forall_forall _ _) process_templates_ok t It)
      as (_ & _ & Pos).
    rewrite (perturbed_unchanged level (snd t) _ ltac:(lia) Pos P) in Ir.
    pose proof (proj1 (Forall_forall _ _) templates_fit_base t It k r Ir)
      as Fit.
    assert (T : total (get (resources self) k) = get base_amounts k).
    { rewrite E. cbn [resources].
      clear - L R.
      destruct L as [-> | ->]; vm_compute in R; inversion R; subst pool;
        destruct k; reflexivity. }
    lia. }
  split; [exact D|].
  assert (G : fst (is_game_over self) = false).
  { rewrite is_game_over_spec. cbn [fst]. rewrite D, M, MM. reflexivity. }
  split; [exact G|].
  unfold update_game_display.
  destruct (is_level_complete self) as [c s] eqn:Ec.
  pose proof (f_equal snd Ec) as Es. cbn in Es. subst s.
  cbn [fst] in NC. subst c.
  destruct (is_game_over self) as [o s] eqn:Eo.
  pose proof (f_equal snd Eo) as Es. rewrite is_game_over_spec in Es.
  cbn in Es. subst s. cbn [fst] in G. subst o. reflexivity.
Qed.

(** X10. A level 1 or 2 never starts lost: whatever [random] returns, the
    new game state is not deadlocked, the game is not over and
    [update_game_display] stays on the game screen. *)
Theorem first_levels_start_safe level rng self :
  level = 1 \/ level = 2 ->
  valid_random rng (length process_templates) (Z.min (2 + level) 6) ->
  GameState_init level rng = Ok self ->
  fst (detect_deadlock self) = false /\
  fst (is_game_over self) = false /\
  fst (update_game_display self) = GameScreen.
Proof. apply first_levels_start. Qed.

Lemma first_levels_start_safe_witness :
  fst (detect_deadlock example_start) = false /\
  fst (is_game_over example_start) = false /\
  fst (update_game_display example_start) = GameScreen.
Proof.
  apply (first_levels_start_safe 1 example_rng example_start).
  - now left.
  - exact example_valid_random.
  - exact example_start_init.
Defined.

Lemma vary_loop_level level level' rng items acc calls :
  2 < level -> 2 < level' ->
  vary_loop level rng items acc calls = vary_loop level' rng items acc calls.
Proof.
  intros L L'. revert acc calls.
  induction items as [|[k a] items IH]; intros acc calls; [reflexivity|].
  cbn [vary_loop].
  replace (level >? 2) with true by (symmetry; apply Z.gtb_lt; lia).
  replace (level' >? 2) with true by (symmetry; apply Z.gtb_lt; lia).
  apply IH.
Qed.

Lemma generate_loop_level level level' rng i selected calls :
  2 < level -> 2 < level' ->
  generate_loop level rng i selected calls
  = generate_loop level' rng i selected calls.
Proof.
  intros L L'. revert i calls.
  induction selected as [|[nm requirements] selected IH]; intros i calls;
    [reflexivity|].
  cbn [generate_loop]. rewrite (vary_loop_level level level') by assumption.
  destruct (vary_loop level' rng requirements [] calls). now rewrite IH.
Qed.

Lemma unlucky_rng_valid level :
  3 <= level ->
  valid_random (unlucky_rng level) (length process_templates)
               (Z.min (2 + level) 6).
Proof.
  intros L. unfold valid_random, unlucky_rng.
  destruct (Z.eqb_spec level 3) as [-> | N]; cbn [sample_positions
                                                   randint_values].
  - split; [reflexivity|]. split; [|split].
    + repeat constructor; simpl; intuition discriminate.
    + simpl. intros i I. repeat destruct I as [<- | I]; try lia;
        contradiction.
    + intros _. lia.
  - split; [replace (Z.min (2 + level) 6) with 6 by lia; reflexivity|].
    split; [|split].
    + repeat constructor; simpl; intuition discriminate.
    + simpl. intros i I. repeat destruct I as [<- | I]; try lia;
        contradiction.
    + intros _. lia.
Qed.

(** X11. From level 3 on a level can start lost: when [random] picks
    "Navegador" and draws +1 for its demands, the process requires 4 units
    of memory, more than the capacity, the new game state is deadlocked
    before the first move and [update_game_display] goes to the game over
    screen. *)
Theorem level_can_start_deadlocked level :
  3 <= level < 2 ^ 1024 - 2 ^ 970 ->
  exists self,
    valid_random (unlucky_rng level) (length process_templates)
                 (Z.min (2 + level) 6) /\
    GameState_init level (unlucky_rng level) = Ok self /\
    moves self = 0 /\
    fst (detect_deadlock self) = true /\
    fst (update_game_display self) = GameOverScreen.
Proof.
  intros (Lo & Hi).
  pose proof (unlucky_rng_valid level Lo) as V.
  destruct (initial_totals level ltac:(lia)) as (pool & R & T).
  destruct (_generate_processes_spec level (unlucky_rng level) ltac:(lia) V)
    as (G & _).
  set (self := mkGameState level pool
                 (generate_loop level (unlucky_rng level) 0
                    (pick process_templates
                          (sample_positions (unlucky_rng level))) O)
                 [] 0 20).
  assert (I : GameState_init level (unlucky_rng level) = Ok self).
  { unfold GameState_init. rewrite R, G. reflexivity. }
  exists self. split; [exact V|]. split; [exact I|].
  split; [reflexivity|].
  assert (C : created self)
    by (exists level, (unlucky_rng level); split; [lia | split; assumption]).
  destruct (created_facts self C) as (Pool & Fresh & _).
  set (p := mkProcess "P1" "Navegador" [(CPU, 3); (MEMORIA, 4)]
                      (build (fun _ => 0)) WAITING).
  assert (Ip : In p (processes self)).
  { unfold self. cbn [processes].
    rewrite (generate_loop_level level 3) by lia.
    unfold unlucky_rng.
    destruct (Z.eqb_spec level 3); left; reflexivity. }
  assert (NE : processes self <> []).
  { intros Nil. rewrite Nil in Ip. contradiction. }
  destruct (fresh_not_complete self Fresh NE) as (NC & Idle).
  assert (D : fst (detect_deadlock self) = true).
  { apply (idle_deadlock self Idle). exists p. split.
    - unfold unfinished. apply filter_In. split; [exact Ip | reflexivity].
    - exists MEMORIA, 4. split; [right; left; reflexivity|].
      unfold get_available_resources, map_values. rewrite get_build.
      destruct (Pool MEMORIA) as (-> & _).
      replace (total (get (resources self) MEMORIA))
        with (spec_total 4 level) by (symmetry; apply (T MEMORIA)).
      assert (Cs : level = 3 \/ level = 4 \/ 5 <= level) by lia.
      destruct Cs as [-> | [-> | L5]];
        [vm_compute; reflexivity | vm_compute; reflexivity|].
      rewrite spec_total_high by exact L5. vm_compute. reflexivity. }
  split; [exact D|].
  unfold update_game_display.
  destruct (is_level_complete self) as [c s] eqn:Ec.
  pose proof (f_equal snd Ec) as Es. cbn in Es. subst s.
  cbn [fst] in NC. subst c.
  rewrite is_game_over_spec, D. reflexivity.
Qed.

Lemma level_can_start_deadlocked_witness :
  exists self,
    valid_random (unlucky_rng 5) (length process_templates)
                 (Z.min (2 + 5) 6) /\
    GameState_init 5 (unlucky_rng 5) = Ok self /\
    moves self = 0 /\
    fst (detect_deadlock self) = true /\
    fst (update_game_display self) = GameOverScreen.
Proof.
  apply (level_can_start_deadlocked 5). split; [lia | reflexivity].
Defined.

(** ** From a level to the next *)





(** * The buttons of the game screen *)

Lemma buttons_of_process_In self p items pid k :
  In (pid, k) (buttons_of_process self p items) <->
  pid = id p /\
  exists r, In (k, r) items /\ get (allocated_resources p) k < r /\
            0 < available (get (resources self) k).
Proof.
  induction items as [|[k' r'] items IH]; simpl.
  - split; [intros [] | intros (_ & r & [] & _)].
  - destruct ((get (allocated_resources p) k' <? r')
              && (available (get (resources self) k') >? 0)) eqn:B.
    + apply andb_prop in B as (B1 & B2).
      apply Z.ltb_lt in B1. apply Z.gtb_lt in B2. simpl. rewrite IH. split.
      * intros [E | (E & r & I & H)].
        -- inversion E; subst. split; [reflexivity|]. exists r'.
           split; [now left | lia].
        -- split; [exact E|]. exists r. tauto.
      * intros (E & r & [I | I] & H).
        -- inversion I; subst. now left.
        -- right. split; [exact E|]. exists r. tauto.
    + rewrite IH. split.
      * intros (E & r & I & H). split; [exact E|]. exists r. tauto.
      * intros (E & r & [I | I] & H1 & H2).
        -- inversion I; subst. exfalso.
           apply andb_false_iff in B as [B | B].
           ++ apply Z.ltb_ge in B. lia.
           ++ rewrite Z.gtb_ltb in B. apply Z.ltb_ge in B. lia.
        -- split; [exact E|]. exists r. tauto.
Qed.

(** A button is for a process that is not Finished and a kind of which it
    holds less than it requires and some is available. *)
Lemma buttons_In self pid k :
  In (pid, k) (buttons self) <->
  exists p r,
    In p (processes self) /\ id p = pid /\ state p <> FINISHED /\
    In (k, r) (required_resources p) /\
    get (allocated_resources p) k < r /\
    0 < available (get (resources self) k).
Proof.
  unfold buttons. induction (processes self) as [|p l IH]; simpl.
  - split; [intros [] | intros (p & r & [] & _)].
  - destruct (ProcessState_eqb (state p) FINISHED) eqn:S.
    + apply ProcessState_eqb_eq in S. rewrite IH. split.
      * intros (q & r & I & H). exists q, r. tauto.
      * intros (q & r & [<- | I] & H); [tauto|]. exists q, r. tauto.
    + apply not_finished_eqb in S.
      rewrite in_app_iff, IH, buttons_of_process_In. split.
      * intros [(E & r & I & H) | (q & r & I & H)].
        -- exists p, r. subst. tauto.
        -- exists q, r. tauto.
      * intros (q & r & [<- | I] & E & NF & H).
        -- left. split; [now symmetry|]. exists r. tauto.
        -- right. exists q, r. tauto.
Qed.

Lemma find_process_unique l p :
  NoDup (map id l) -> In p l ->
  exists i, find_process l (id p) = Some (i, p).
Proof.
  induction l as [|q l IH]; simpl; intros N I; [contradiction|].
  inversion N as [|? ? Hq N']; subst.
  destruct (String.eqb_spec (id q) (id p)) as [E | D].
  - destruct I as [-> | I]; [now exists 0%nat|].
    exfalso. apply Hq. rewrite E. now apply in_map.
  - destruct I as [-> | I]; [contradiction D; reflexivity|].
    destruct (IH N' I) as (i & ->). now exists (S i).
Qed.

Lemma Dict_get_unique {V} (d : Dict V) k (v : V) :
  NoDup (map fst d) -> In (k, v) d -> Dict_ops.get d k = Some v.
Proof.
  induction d as [|[k' v'] d IH]; simpl; intros N I; [contradiction|].
  inversion N as [|? ? Hk N']; subst.
  destruct (ResourceType_eqb k' k) eqn:E.
  - apply ResourceType_eqb_eq in E. subst k'.
    destruct I as [I | I]; [now inversion I|].
    exfalso. apply Hk. now apply (in_map fst) in I.
  - destruct I as [I | I]; [|now apply IH].
    inversion I; subst. assert (ResourceType_eqb k k = true)
      by now apply ResourceType_eqb_eq.
    congruence.
Qed.

(** A click on a button is a call within what the process needs, and it
    is not declined. *)
Lemma button_click_within_need self pid k :
  distinct_ids self -> In (pid, k) (buttons self) ->
  within_need self pid k 1 /\ fst (allocate_resource self pid k 1) = true.
Proof.
  intros (N & R) B.
  apply buttons_In in B as (pb & r & I & <- & NF & Ir & Lt & Av).
  destruct (find_process_unique _ pb N I) as (i0 & Fp).
  split.
  - intros j q r' F' G. rewrite Fp in F'. inversion F'; subst j q.
    rewrite (Dict_get_unique _ k r (R pb I) Ir) in G. inversion G; subst. lia.
  - outcome_cases self (id pb) k 1; try reflexivity; exfalso;
      try congruence; lia.
Qed.

Lemma holds_only_required_step self process_id k amount :
  (forall i p, find_process (processes self) process_id = Some (i, p) ->
               In k (map fst (required_resources p))) ->
  holds_only_required self ->
  holds_only_required (snd (allocate_resource self process_id k amount)).
Proof.
  intros K H.
  outcome_cases self process_id k amount; try exact H; intros q k' I NR;
    simpl in I; apply in_app_iff in I; destruct I as [I | [<- | I]];
    try (apply H; [rewrite Hl; apply in_app_iff; simpl; tauto | exact NR]);
    simpl in NR;
    assert (Hp : get (allocated_resources p) k' = 0)
      by (apply H; [rewrite Hl; apply in_app_iff; simpl; tauto | exact NR]);
    assert (k <> k') by (intros ->; apply NR; now apply (K _ _ F)).
  - rewrite granted_get, Hp. destruct (ResourceType_eq_dec k k'); [contradiction | lia].
  - rewrite finished_get, granted_get, Hp.
    destruct (ResourceType_eq_dec k k'); [contradiction|].
    now destruct (_ >? _).
Qed.

Lemma button_click_invariants start self :
  created start -> reachable_by button_click start self ->
  distinct_ids self /\ within_requirements self /\
  holdings_not_negative self /\ conservation self /\
  holds_only_required self.
Proof.
  intros C R. revert self R.
  apply (reachable_by_ind_inv button_click
           (fun s => distinct_ids s /\ within_requirements s /\
                     holdings_not_negative s /\ conservation s /\
                     holds_only_required s)).
  - destruct (created_facts _ C) as (_ & Fresh & _).
    split; [apply (created_distinct_ids start start C), reachable_start|].
    split; [|split; [|split]].
    + intros p k r I G. rewrite Forall_forall in Fresh.
      destruct (Fresh p I) as (_ & A & _ & Pos).
      rewrite A, get_build. apply Dict_get_In, Pos in G. lia.
    + apply (created_nonnegative_invariants start start C), reachable_start.
    + apply (created_nonnegative_invariants start start C), reachable_start.
    + intros p k I _. rewrite Forall_forall in Fresh.
      destruct (Fresh p I) as (_ & -> & _). apply get_build.
  - intros s pid k amount (D & W & H & Co & O) (B & ->).
    destruct (button_click_within_need s pid k D B) as (N & _).
    split; [now apply distinct_ids_step|].
    split; [now apply within_requirements_step|].
    split; [apply holdings_not_negative_step; [lia | exact H]|].
    split; [apply conservation_step; [lia | exact H | exact Co]|].
    apply holds_only_required_step; [|exact O].
    intros i p F. apply buttons_In in B as (q & r & I & E & _ & Ir & _).
    destruct D as (ND & _).
    destruct (find_process_unique _ q ND I) as (j & F').
    rewrite E, F in F'. inversion F'; subst.
    now apply (in_map fst) in Ir.
Qed.

(** X13. In a game played with the buttons of the screen, from a new
    level: a click on a button is never declined, so the warning is never
    shown; every process holds between 0 and what it requires of each kind
    it requires and nothing of the other kinds; and what is available of a
    kind plus what the processes that are not Finished hold of it is its
    capacity. *)
Theorem button_game start self :
  created start -> reachable_by button_click start self ->
  (forall pid k, In (pid, k) (buttons self) ->
                 fst (click self pid k) = false) /\
  (forall p k r, In p (processes self) ->
                 In (k, r) (required_resources p) ->
                 0 <= get (allocated_resources p) k <= r) /\
  (forall p k, In p (processes self) ->
               ~ In k (map fst (required_resources p)) ->
               get (allocated_resources p) k = 0) /\
  conservation self.
Proof.
  intros C R.
  destruct (button_click_invariants start self C R)
    as ((N & Rq) & W & H & Co & O).
  split; [|split; [|split; [exact O | exact Co]]].
  - intros pid k B. unfold click.
    destruct (button_click_within_need self pid k (conj N Rq) B) as (_ & T).
    destruct (allocate_resource self pid k 1) as [ok s]. simpl in T.
    now subst ok.
  - intros p k r I Ir. split; [now apply H|].
    apply (W p k r I). now apply Dict_get_unique; [apply Rq|].
Qed.

Lemma button_game_witness :
  let self := play example_start [("P2", CPU, 1); ("P2", MEMORIA, 1)] in
  (forall pid k, In (pid, k) (buttons self) ->
                 fst (click self pid k) = false) /\
  (forall p k r, In p (processes self) ->
                 In (k, r) (required_resources p) ->
                 0 <= get (allocated_resources p) k <= r) /\
  (forall p k, In p (processes self) ->
               ~ In k (map fst (required_resources p)) ->
               get (allocated_resources p) k = 0) /\
  conservation self.
Proof.
  intros self. apply (button_game example_start self example_start_created).
  unfold self. cbn [play].
  apply reachable_allocate;
    [apply reachable_allocate; [apply reachable_start|]|];
    (split; [vm_compute; tauto | reflexivity]).
Defined.

Lemma is_satisfied_false p :
  is_satisfied p = false ->
  exists k r, In (k, r) (required_resources p) /\
              get (allocated_resources p) k < r.
Proof.
  unfold is_satisfied.
  induction (required_resources p) as [|[k r] items IH]; simpl;
    [discriminate|].
  destruct (Z.ltb_spec (get (allocated_resources p) k) r) as [L | G].
  - intros _. exists k, r. split; [now left | exact L].
  - intros H. destruct (IH H) as (k' & r' & I & L). exists k', r'.
    split; [now right | exact L].
Qed.

Lemma no_button_deadlock self :
  pool_not_negative self -> waiting_unsatisfied self ->
  buttons self = [] -> fst (is_level_complete self) = false ->
  fst (detect_deadlock self) = true.
Proof.
  intros P W B NC.
  destruct (fst (detect_deadlock self)) eqn:D; [reflexivity|]. exfalso.
  apply (proj1 (detect_deadlock_safe self)) in D
    as (order & Perm & Fin).
  destruct order as [|p order].
  - apply Permutation_nil in Perm.
    pose proof (proj1 (unfinished_nil_iff self) Perm) as All.
    pose proof (proj2 (is_level_complete_all self) All). congruence.
  - simpl in Fin. apply andb_prop in Fin as (Cf & _).
    assert (I : In p (unfinished self))
      by (apply Permutation_in with (p :: order); [exact Perm | now left]).
    unfold unfinished in I. apply filter_In in I as (I & NF).
    apply negb_true_iff, not_finished_eqb in NF.
    destruct (is_satisfied_false p (W p I NF)) as (k & r & Ir & Lt).
    rewrite can_finish_forall in Cf. specialize (Cf k r Ir).
    unfold get_available_resources, map_values in Cf.
    rewrite get_build in Cf.
    assert (In (id p, k) (buttons self)); [|rewrite B in *; contradiction].
    apply buttons_In. exists p, r. repeat split; try assumption. lia.
Qed.

(** X14. In every game state that calls of [allocate_resource] lead to from
    a new level, when [update_game_display] stays on the game screen there
    is a button to click: a screen without a button is the victory screen
    or the game over screen. *)
Theorem game_screen_has_a_button start self :
  created start -> reachable_by any_call start self ->
  fst (update_game_display self) = GameScreen ->
  buttons self <> [] /\
  fst (is_level_complete self) = false /\
  fst (detect_deadlock self) = false /\ moves self < max_moves self.
Proof.
  intros C R U. destruct (created_any_invariants start self C R) as (P & W).
  unfold update_game_display in U.
  destruct (is_level_complete self) as [c s] eqn:Ec.
  pose proof (f_equal snd Ec) as Es. cbn in Es. subst s.
  destruct c; [discriminate U|].
  rewrite is_game_over_spec in U.
  destruct (fst (detect_deadlock self)) eqn:D; [discriminate U|].
  destruct (Z.geb_spec (moves self) (max_moves self)) as [G | L];
    [discriminate U|].
  split; [|repeat split; try reflexivity; exact L].
  intros B. apply (no_button_deadlock self P W) in B; [congruence|].
  now rewrite Ec.
Qed.

Lemma game_screen_has_a_button_witness :
  buttons example_start <> [] /\
  fst (is_level_complete example_start) = false /\
  fst (detect_deadlock example_start) = false /\
  moves example_start < max_moves example_start.
Proof.
  apply (game_screen_has_a_button example_start example_start).
  - exact example_start_created.
  - apply reachable_start.
  - reflexivity.
Defined.

(** * Deadlock is final, and a safe state can still be won *)

Lemma unfinished_split self l1 p l2 :
  processes self = l1 ++ p :: l2 ->
  unfinished self
  = filter (fun p => negb (ProcessState_eqb (state p) FINISHED)) l1
    ++ (if ProcessState_eqb (state p) FINISHED then [] else [p])
    ++ filter (fun p => negb (ProcessState_eqb (state p) FINISHED)) l2.
Proof.
  intros E. unfold unfinished. rewrite E, filter_app. simpl.
  now destruct (ProcessState_eqb (state p) FINISHED).
Qed.

(** What is available after a process has finished: what was available
    before the call plus what the process held. *)
Lemma finish_available self l1 p l2 k amount :
  holdings_not_negative self -> conservation self -> 0 <= amount ->
  processes self = l1 ++ p :: l2 -> state p <> FINISHED ->
  get_available_resources (after_finish self l1 p l2 k amount)
  = give_back p (get_available_resources self).
Proof.
  intros H Co NN Hl NF. apply EnumDict_ext. intros k'.
  unfold get_available_resources, map_values, give_back, after_finish.
  cbn [resources]. rewrite !get_build.
  destruct (released_pool_get (debited (resources self) k amount)
                              (granted p k amount) k') as (_ & ->).
  rewrite granted_get.
  destruct (debited_get (resources self) k amount k') as (-> & ->).
  specialize (Co k'). rewrite Hl, held_app, held_cons in Co.
  apply not_finished_eqb in NF. rewrite NF in Co.
  assert (0 <= held k' l1).
  { apply held_not_negative. intros x I. apply H. rewrite Hl.
    apply in_app_iff. now left. }
  assert (0 <= held k' l2).
  { apply held_not_negative. intros x I. apply H. rewrite Hl.
    apply in_app_iff. right. now right. }
  assert (0 <= get (allocated_resources p) k').
  { apply H. rewrite Hl. apply in_app_iff. right. now left. }
  destruct (_ >? 0) eqn:G; [lia|].
  rewrite Z.gtb_ltb in G. apply Z.ltb_ge in G.
  destruct (ResourceType_eq_dec k k'); lia.
Qed.

(** An order in which all finish after a grant is one before it, with the
    process as it was before the grant. *)
Lemma finish_in_order_before_grant p k amount o1 o2 available available' :
  0 <= amount ->
  (forall j, get available j
             = get available' j + (if ResourceType_eq_dec k j then amount
                                   else 0)) ->
  finish_in_order available' (o1 ++ granted p k amount :: o2) = true ->
  finish_in_order available (o1 ++ p :: o2) = true.
Proof.
  intros NN. revert available available'.
  induction o1 as [|q o1 IH]; simpl; intros available available' Rel Fin;
    apply andb_prop in Fin as (Cf & Fin); apply andb_true_intro; split.
  - rewrite can_finish_forall in *. intros j r I.
    specialize (Cf j r I). cbn [granted required_resources] in Cf.
    rewrite granted_get in Cf. rewrite (Rel j). lia.
  - replace (give_back p available)
      with (give_back (granted p k amount) available'); [exact Fin|].
    apply EnumDict_ext. intros j. unfold give_back.
    rewrite !get_build, granted_get, (Rel j). lia.
  - eapply can_finish_monotone; [|exact Cf].
    intros j. rewrite (Rel j). destruct (ResourceType_eq_dec k j); lia.
  - apply (IH _ (give_back q available')); [|exact Fin].
    intros j. unfold give_back. rewrite !get_build, (Rel j). lia.
Qed.

Lemma safe_before_call self process_id k amount :
  pool_not_negative self -> holdings_not_negative self ->
  conservation self -> 0 <= amount ->
  safe (snd (allocate_resource self process_id k amount)) -> safe self.
Proof.
  intros P H Co NN.
  outcome_cases self process_id k amount; cbn [snd]; try (intros X; exact X);
    pose proof (proj2 (not_finished_eqb p) S) as Sb;
    intros (order & Perm & Fin); unfold safe;
    rewrite (unfinished_split self l1 p l2 Hl), Sb.
  - (* the grant does not complete the process *)
    rewrite (unfinished_split (after_grant self l1 p l2 k amount) l1
               (granted p k amount) l2 eq_refl) in Perm.
    rewrite granted_state, Sb in Perm.
    assert (I : In (granted p k amount) order).
    { apply Permutation_in with (1 := Permutation_sym Perm).
      apply in_app_iff. right. now left. }
    apply in_split in I as (o1 & o2 & ->).
    exists (o1 ++ p :: o2). split.
    + apply Permutation_elt. now apply Permutation_app_inv in Perm.
    + apply (finish_in_order_before_grant p k amount o1 o2 _
               (get_available_resources (after_grant self l1 p l2 k amount)));
        [exact NN | | exact Fin].
      intros j. unfold get_available_resources, map_values, after_grant.
      cbn [resources]. rewrite !get_build.
      destruct (debited_get (resources self) k amount j) as (_ & ->). lia.
  - (* the grant completes the process *)
    rewrite (unfinished_split (after_finish self l1 p l2 k amount) l1
               (finished (granted p k amount)) l2 eq_refl) in Perm.
    cbn [finished state ProcessState_eqb app] in Perm.
    exists (p :: order). split; [now apply Permutation_cons_app|].
    simpl. rewrite <- (finish_available self l1 p l2 k amount) by assumption.
    rewrite Fin, andb_true_r.
    apply can_finish_forall. intros j r I.
    unfold is_satisfied in Sat. rewrite is_satisfied_loop_forall in Sat.
    specialize (Sat j r I). cbn [granted allocated_resources] in Sat.
    change (set (allocated_resources p) k
                (get (allocated_resources p) k + amount))
      with (allocated_resources (granted p k amount)) in Sat.
    rewrite granted_get in Sat.
    unfold get_available_resources, map_values. rewrite get_build.
    destruct (P j) as (Pj & _).
    destruct (ResourceType_eq_dec k j) as [<- | _]; lia.
Qed.

Lemma complete_no_deadlock self :
  fst (is_level_complete self) = true -> fst (detect_deadlock self) = false.
Proof.
  intros C. rewrite is_level_complete_all in C.
  pose proof (proj2 (unfinished_nil_iff self) C) as U.
  unfold detect_deadlock, detect_deadlock_within, detect_deadlock_frame.
  rewrite U. reflexivity.
Qed.

Lemma deadlock_step start self process_id k amount :
  created start -> reachable_by nonnegative_amount start self ->
  0 <= amount -> fst (detect_deadlock self) = true ->
  fst (detect_deadlock (snd (allocate_resource self process_id k amount)))
  = true.
Proof.
  intros C R NN D.
  destruct (created_nonnegative_invariants start self C R) as (H & Co).
  assert (R' : reachable_by any_call start self).
  { apply reachable_by_weaken with (2 := R). intros. exact I. }
  destruct (created_any_invariants start self C R') as (P & _).
  destruct (fst (detect_deadlock (snd (allocate_resource self process_id k
                                                         amount)))) eqn:D';
    [reflexivity|].
  apply (proj1 (detect_deadlock_safe _)) in D'.
  apply (safe_before_call self process_id k amount P H Co NN) in D'.
  apply (proj2 (detect_deadlock_safe self)) in D'; [congruence|].
  now apply reachable_holds_no_negative with start.
Qed.

Lemma deadlock_play start self calls :
  created start -> reachable_by nonnegative_amount start self ->
  (forall process_id k amount,
     In (process_id, k, amount) calls -> 0 <= amount) ->
  fst (detect_deadlock self) = true ->
  fst (detect_deadlock (play self calls)) = true.
Proof.
  intros C. revert self.
  induction calls as [|[[process_id k] amount] calls IH]; intros self R NN D;
    [exact D|].
  cbn [play]. apply IH.
  - apply reachable_allocate; [exact R|].
    apply (NN process_id k amount). now left.
  - intros pid k' a I. apply (NN pid k' a). now right.
  - apply deadlock_step with start; try assumption.
    apply (NN process_id k amount). now left.
Qed.

(** X15. Deadlock is final. In a game whose calls have no negative amount,
    once [detect_deadlock] returns true it returns true after every
    further such call of [allocate_resource]: the level is never completed
    and the game stays over. *)
Theorem deadlock_is_final start self calls :
  created start -> reachable_by nonnegative_amount start self ->
  (forall process_id k amount,
     In (process_id, k, amount) calls -> 0 <= amount) ->
  fst (detect_deadlock self) = true ->
  fst (detect_deadlock (play self calls)) = true /\
  fst (is_level_complete (play self calls)) = false /\
  fst (is_game_over (play self calls)) = true.
Proof.
  intros C R NN D.
  pose proof (deadlock_play start self calls C R NN D) as F.
  split; [exact F|]. split.
  - destruct (fst (is_level_complete (play self calls))) eqn:L;
      [|reflexivity].
    apply complete_no_deadlock in L. congruence.
  - rewrite is_game_over_spec. cbn [fst]. now rewrite F.
Qed.

Lemma deadlock_is_final_witness :
  let self := play example_start
                   [("P2", IMPRESSORA, 2); ("P3", MEMORIA, 4);
                    ("P1", CPU, 4)] in
  let calls := [("P1", IMPRESSORA, 0); ("P3", DISCO, 1)] in
  fst (detect_deadlock (play self calls)) = true /\
  fst (is_level_complete (play self calls)) = false /\
  fst (is_game_over (play self calls)) = true.
Proof.
  intros self calls.
  apply (deadlock_is_final example_start self calls example_start_created).
  - apply play_reachable; [apply reachable_start|].
    intros s process_id k amount I. unfold nonnegative_amount.
    repeat destruct I as [I | I]; try contradiction; inversion I; lia.
  - intros process_id k amount I.
    repeat destruct I as [I | I]; try contradiction; inversion I; lia.
  - reflexivity.
Defined.


(** * A state that is not deadlocked can still be won *)

Lemma find_process_at l1 q l2 :
  (forall x, In x l1 -> id x <> id q) ->
  find_process (l1 ++ q :: l2) (id q) = Some (length l1, q).
Proof.
  induction l1 as [|x l1 IH]; simpl; intros D.
  - now rewrite String.eqb_refl.
  - destruct (String.eqb_spec (id x) (id q)) as [E | _].
    + contradiction (D x (or_introl eq_refl)).
    + rewrite IH; [reflexivity|]. intros y I. apply D. now right.
Qed.

Lemma app_same_length {A} (l1 l1' r r' : list A) :
  length l1 = length l1' -> l1 ++ r = l1' ++ r' -> l1 = l1' /\ r = r'.
Proof.
  revert l1'. induction l1 as [|x l1 IH]; intros [|y l1']; simpl;
    try discriminate; intros L E; [now split|].
  inversion E; subst. destruct (IH l1') as (-> & ->); auto.
Qed.

Lemma ids_before l1 (q : Process) l2 :
  NoDup (map id (l1 ++ q :: l2)) -> forall x, In x l1 -> id x <> id q.
Proof.
  rewrite map_app. simpl. intros N x I E.
  apply NoDup_remove_2 in N. apply N, in_app_iff. left.
  rewrite <- E. now apply in_map.
Qed.

(** A call for a waiting process that asks for no more than is available. *)
Lemma allocate_resource_at self before q after k amount :
  processes self = before ++ q :: after ->
  NoDup (map id (processes self)) ->
  state q <> FINISHED -> amount <= available (get (resources self) k) ->
  allocate_resource self (id q) k amount
  = (true, if is_satisfied (granted q k amount)
           then after_finish self before q after k amount
           else after_grant self before q after k amount).
Proof.
  intros E N NF Le.
  assert (Fq : find_process (processes self) (id q)
               = Some (length before, q)).
  { rewrite E. apply find_process_at. rewrite E in N.
    now apply ids_before with after. }
  outcome_cases self (id q) k amount; rewrite Fq in F;
    try discriminate; inversion F; subst; try contradiction; try lia;
    rewrite E in Hl;
    match goal with
    | L : length _ = length _ |- _ =>
        destruct (app_same_length _ _ _ _ L Hl) as (-> & Eq)
    end;
    inversion Eq; subst; now rewrite Sat.
Qed.

Lemma play_app self calls calls' :
  play self (calls ++ calls') = play (play self calls) calls'.
Proof.
  revert self. induction calls as [|[[process_id k] amount] calls IH];
    simpl; intros self; [reflexivity | apply IH].
Qed.

Lemma results_app self calls calls' :
  results self (calls ++ calls')
  = results self calls ++ results (play self calls) calls'.
Proof.
  revert self. induction calls as [|[[process_id k] amount] calls IH];
    simpl; intros self; [reflexivity | now rewrite IH].
Qed.

Lemma clicks_on_buttons_app self calls calls' :
  clicks_on_buttons self (calls ++ calls') <->
  clicks_on_buttons self calls /\ clicks_on_buttons (play self calls) calls'.
Proof.
  revert self. induction calls as [|[[process_id k] amount] calls IH];
    simpl; intros self; [tauto|]. rewrite IH. tauto.
Qed.

Lemma reachable_distinct_ids start self :
  created start -> reachable_by nonnegative_amount start self ->
  distinct_ids self /\ pool_not_negative self /\ waiting_unsatisfied self.
Proof.
  intros C R.
  assert (R' : reachable_by any_call start self).
  { apply reachable_by_weaken with (2 := R). intros. exact I. }
  split; [now apply created_distinct_ids with start|].
  now apply created_any_invariants with start.
Qed.

(** ** What a process needs *)

Lemma need_granted q k amount j :
  need (granted q k amount) j
  = match Dict_ops.get (required_resources q) j with
    | Some _ => need q j - (if ResourceType_eq_dec k j then amount else 0)
    | None => 0
    end.
Proof.
  unfold need. cbn [granted required_resources].
  destruct (Dict_ops.get (required_resources q) j); [|reflexivity].
  change (set (allocated_resources q) k
              (get (allocated_resources q) k + amount))
    with (allocated_resources (granted q k amount)).
  rewrite granted_get. lia.
Qed.

Lemma satisfied_no_need p :
  is_satisfied p = true -> forall k, need p k <= 0.
Proof.
  unfold is_satisfied. rewrite is_satisfied_loop_forall. intros H k.
  unfold need.
  destruct (Dict_ops.get (required_resources p) k) as [r|] eqn:G; [|lia].
  apply Dict_get_In in G. specialize (H k r G). lia.
Qed.

Lemma no_need_satisfied p :
  NoDup (map fst (required_resources p)) ->
  (forall k, need p k <= 0) -> is_satisfied p = true.
Proof.
  intros N H. unfold is_satisfied. apply is_satisfied_loop_forall.
  intros k r I. specialize (H k). unfold need in H.
  rewrite (Dict_get_unique _ k r N I) in H. lia.
Qed.

Lemma can_finish_need p available :
  (forall k, 0 <= get available k) ->
  can_finish p available = true -> forall k, need p k <= get available k.
Proof.
  intros P Cf k. rewrite can_finish_forall in Cf. unfold need.
  destruct (Dict_ops.get (required_resources p) k) as [r|] eqn:G;
    [|apply P].
  apply Dict_get_In in G. now apply Cf.
Qed.

(** The clicks for a process: none when it needs nothing, otherwise a
    click for a kind that it needs, followed by the clicks for the process
    with one more of it. *)
Lemma clicks_of_cons q k0 kinds :
  clicks_of q (k0 :: kinds)
  = repeat (id q, k0, 1) (Z.to_nat (need q k0)) ++ clicks_of q kinds.
Proof. reflexivity. Qed.

Lemma clicks_of_other q k0 amount kinds :
  ~ In k0 kinds -> clicks_of (granted q k0 amount) kinds = clicks_of q kinds.
Proof.
  induction kinds as [|k kinds IH]; intros NI; [reflexivity|].
  rewrite !clicks_of_cons, IH by (intros I; apply NI; now right).
  f_equal. cbn [granted id]. f_equal. f_equal.
  rewrite need_granted. unfold need.
  destruct (Dict_ops.get (required_resources q) k); [|reflexivity].
  destruct (ResourceType_eq_dec k0 k) as [<- | _]; [|lia].
  contradiction NI. now left.
Qed.

Lemma clicks_of_cases q kinds :
  NoDup kinds ->
  (clicks_of q kinds = [] /\ forall k, In k kinds -> need q k <= 0) \/
  exists k, 1 <= need q k /\
            clicks_of q kinds = (id q, k, 1) :: clicks_of (granted q k 1) kinds.
Proof.
  induction kinds as [|k0 kinds IH]; intros N.
  - left. split; [reflexivity | intros k []].
  - inversion N as [|? ? Hk N']; subst.
    destruct (Z_lt_le_dec (need q k0) 1) as [Lt | Ge].
    + assert (Z0 : Z.to_nat (need q k0) = 0%nat) by lia.
      destruct (IH N') as [(E & H) | (k & Hk1 & E)].
      * left. rewrite clicks_of_cons, Z0, E. split; [reflexivity|].
        intros k [<- | I]; [lia | now apply H].
      * right. exists k. split; [exact Hk1|].
        rewrite !clicks_of_cons, Z0.
        replace (Z.to_nat (need (granted q k 1) k0)) with 0%nat; [exact E|].
        rewrite need_granted.
        destruct (Dict_ops.get (required_resources q) k0); [|reflexivity].
        destruct (ResourceType_eq_dec k k0); lia.
    + right. exists k0. split; [exact Ge|].
      rewrite !clicks_of_cons.
      replace (Z.to_nat (need q k0)) with (S (Z.to_nat (need q k0 - 1)))
        by lia.
      cbn [repeat app]. f_equal.
      assert (Sm : Dict_ops.get (required_resources q) k0 <> None).
      { unfold need in Ge. destruct (Dict_ops.get _ k0); [discriminate|lia]. }
      f_equal.
      * rewrite need_granted.
        destruct (Dict_ops.get (required_resources q) k0);
          [|contradiction Sm; reflexivity].
        destruct (ResourceType_eq_dec k0 k0) as [_ | D];
          [reflexivity | contradiction D; reflexivity].
      * symmetry. now apply clicks_of_other.
Qed.

Lemma clicks_for_cases q :
  (clicks_for q = [] /\ forall k, need q k <= 0) \/
  exists k, 1 <= need q k /\
            clicks_for q = (id q, k, 1) :: clicks_for (granted q k 1).
Proof.
  destruct (clicks_of_cases q ResourceType_members) as [(E & H) | H].
  - repeat constructor; simpl; intuition discriminate.
  - left. split; [exact E|]. intros k. apply H. destruct k; simpl; tauto.
  - right. exact H.
Qed.

(** The clicks for a process that can finish: each one is on a button and
    is granted, the last one completes the process, and what is available
    afterwards is what was available before plus what the process held. *)
Lemma clicks_for_complete start before after :
  created start ->
  forall n self q,
    length (clicks_for q) = n ->
    reachable_by nonnegative_amount start self ->
    processes self = before ++ q :: after ->
    state q <> FINISHED ->
    (forall k, need q k <= available (get (resources self) k)) ->
    reachable_by nonnegative_amount start (play self (clicks_for q)) /\
    (exists q', processes (play self (clicks_for q)) = before ++ q' :: after
                /\ state q' = FINISHED) /\
    get_available_resources (play self (clicks_for q))
    = give_back q (get_available_resources self) /\
    Forall (eq true) (results self (clicks_for q)) /\
    clicks_on_buttons self (clicks_for q).
Proof.
  intros C. induction n as [|n IH]; intros self q Len R Hp NF Can;
    destruct (reachable_distinct_ids start self C R) as ((N & ND) & P & W);
    assert (Iq : In q (processes self))
      by (rewrite Hp; apply in_app_iff; right; now left);
    destruct (clicks_for_cases q) as [(E & H) | (k & K1 & E)];
    try (rewrite E in Len; discriminate Len).
  - (* no click is left: the process would be satisfied already *)
    exfalso. pose proof (W q Iq NF) as U.
    rewrite (no_need_satisfied q (ND q Iq) H) in U. discriminate.
  - rewrite E in Len |- *. cbn [length] in Len.
    apply eq_add_S in Len.
    assert (A : 1 <= available (get (resources self) k))
      by (specialize (Can k); lia).
    assert (B : button_click self (id q) k 1).
    { split; [|reflexivity]. apply buttons_In.
      unfold need in K1.
      destruct (Dict_ops.get (required_resources q) k) as [r|] eqn:G;
        [|lia].
      exists q, r. repeat split; try assumption; try lia.
      now apply Dict_get_In. }
    assert (R1 : reachable_by nonnegative_amount start
                   (snd (allocate_resource self (id q) k 1))).
    { apply reachable_allocate; [exact R|]. unfold nonnegative_amount. lia. }
    cbn [play results clicks_on_buttons].
    revert R1.
    rewrite (allocate_resource_at self before q after k 1 Hp N NF A).
    cbn [fst snd].
    destruct (is_satisfied (granted q k 1)) eqn:Sat; intros R1.
    + (* the click completes the process *)
      assert (E1 : clicks_for (granted q k 1) = []).
      { destruct (clicks_for_cases (granted q k 1)) as [(E1 & _) | (j & J & _)];
          [exact E1|].
        pose proof (satisfied_no_need _ Sat j). lia. }
      rewrite E1. cbn [play results clicks_on_buttons].
      split; [exact R1|]. split; [|split; [|split]].
      * exists (finished (granted q k 1)). split; reflexivity.
      * destruct (created_nonnegative_invariants start self C R) as (Hn & Co).
        apply (finish_available self before q after k 1 Hn Co);
          [lia | exact Hp | exact NF].
      * repeat constructor.
      * split; [exact B | exact I].
    + (* the click does not complete it yet *)
      destruct (IH (after_grant self before q after k 1) (granted q k 1))
        as (R2 & Fin & Av & Res & Btn).
      * exact Len.
      * exact R1.
      * reflexivity.
      * now rewrite granted_state.
      * intros j. rewrite need_granted.
        unfold after_grant. cbn [resources].
        destruct (debited_get (resources self) k 1 j) as (_ & ->).
        destruct (P j) as (Pj & _). specialize (Can j).
        destruct (Dict_ops.get (required_resources q) j) eqn:G.
        -- lia.
        -- destruct (ResourceType_eq_dec k j) as [<- | _]; [|lia].
           unfold need in K1. rewrite G in K1. lia.
      * split; [exact R2|]. split; [exact Fin|]. split; [|split].
        -- rewrite Av. apply EnumDict_ext. intros j. unfold give_back.
           rewrite !get_build, granted_get.
           unfold get_available_resources, map_values, after_grant.
           cbn [resources]. rewrite !get_build.
           destruct (debited_get (resources self) k 1 j) as (_ & ->). lia.
        -- constructor; [reflexivity | exact Res].
        -- split; [exact B | exact Btn].
Qed.

Lemma completing_clicks_complete start :
  created start ->
  forall order self,
    reachable_by nonnegative_amount start self ->
    Permutation order (unfinished self) ->
    finish_in_order (get_available_resources self) order = true ->
    clicks_on_buttons self (completing_clicks order) /\
    Forall (eq true) (results self (completing_clicks order)) /\
    fst (is_level_complete (play self (completing_clicks order))) = true.
Proof.
  intros C. induction order as [|p order IH]; intros self R Perm Fin.
  - split; [exact I|]. split; [constructor|].
    cbn [completing_clicks flat_map play].
    apply is_level_complete_all, unfinished_nil_iff.
    now apply Permutation_nil.
  - assert (Ip : In p (unfinished self)).
    { apply Permutation_in with (1 := Perm). now left. }
    apply filter_In in Ip as (Ip & NF).
    apply negb_true_iff, not_finished_eqb in NF.
    apply in_split in Ip as (before & after & Hp).
    simpl in Fin. apply andb_prop in Fin as (Cf & Fin).
    destruct (reachable_distinct_ids start self C R) as (_ & P & _).
    destruct (clicks_for_complete start before after C
                (length (clicks_for p)) self p eq_refl R Hp NF)
      as (R' & (q' & Hp' & Fq) & Av & Res & Btn).
    { intros k.
      pose proof (can_finish_need p (get_available_resources self)) as Cn.
      unfold get_available_resources, map_values in Cn.
      specialize (Cn (fun j => eq_ind_r (fun z => 0 <= z) (proj1 (P j))
                                        (get_build _ j)) Cf k).
      now rewrite get_build in Cn. }
    unfold completing_clicks. cbn [flat_map].
    fold (completing_clicks order).
    rewrite results_app, play_app, clicks_on_buttons_app.
    destruct (IH (play self (clicks_for p))) as (Btn' & Res' & Done).
    + exact R'.
    + rewrite (unfinished_split _ before q' after Hp').
      rewrite (unfinished_split self before p after Hp) in Perm.
      rewrite Fq. cbn [ProcessState_eqb app].
      apply not_finished_eqb in NF. rewrite NF in Perm.
      now apply Permutation_cons_app_inv in Perm.
    + now rewrite Av.
    + split; [now split|]. split; [|exact Done]. apply Forall_app. now split.
Qed.

(** X16. A state that is not a deadlock can still be won. In a game whose
    calls had no negative amount, when [detect_deadlock] returns false there
    is an order of the waiting processes such that clicking for each one in
    turn, one unit a click, what it still needs completes the level: every
    click is on a button that [update_processes_display] shows at that
    moment, every call of [allocate_resource] returns true, and at the end
    [is_level_complete] is true. The limit of moves is not part of
    [allocate_resource] and is not counted here. *)
Theorem safe_state_can_be_won start self :
  created start -> reachable_by nonnegative_amount start self ->
  fst (detect_deadlock self) = false ->
  exists order,
    Permutation order (unfinished self) /\
    clicks_on_buttons self (completing_clicks order) /\
    Forall (eq true) (results self (completing_clicks order)) /\
    fst (is_level_complete (play self (completing_clicks order))) = true.
Proof.
  intros C R D.
  destruct (proj1 (detect_deadlock_safe self) D) as (order & Perm & Fin).
  exists order. split; [exact Perm|].
  now apply completing_clicks_complete with start.
Qed.

Lemma safe_state_can_be_won_witness :
  let self := play example_start [("P2", CPU, 1); ("P3", MEMORIA, 1)] in
  exists order,
    Permutation order (unfinished self) /\
    clicks_on_buttons self (completing_clicks order) /\
    Forall (eq true) (results self (completing_clicks order)) /\
    fst (is_level_complete (play self (completing_clicks order))) = true.
Proof.
  intros self.
  apply (safe_state_can_be_won example_start self example_start_created).
  - apply play_reachable; [apply reachable_start|].
    intros s process_id k amount I. unfold nonnegative_amount.
    repeat destruct I as [I | I]; try contradiction; inversion I; lia.
  - reflexivity.
Defined.

(** * The first two levels can always be won *)

Lemma clicks_for_length p :
  length (clicks_for p)
  = (Z.to_nat (need p CPU) + Z.to_nat (need p MEMORIA)
     + Z.to_nat (need p DISCO) + Z.to_nat (need p IMPRESSORA))%nat.
Proof.
  unfold clicks_for, clicks_of, ResourceType_members. cbn [flat_map].
  rewrite !length_app, !repeat_length. cbn [length]. lia.
Qed.

Lemma template_clicks :
  Forall (fun t => forall p,
            required_resources p = snd t ->
            allocated_resources p = build (fun _ => 0) ->
            (length (clicks_for p) <= 5)%nat)
         process_templates.
Proof.
  unfold process_templates.
  repeat (apply Forall_cons;
          [intros p Rq Al; rewrite clicks_for_length; unfold need;
           rewrite Rq, Al; vm_compute; lia|]).
  apply Forall_nil.
Qed.

Lemma completing_clicks_length order :
  (forall p, In p order -> (length (clicks_for p) <= 5)%nat) ->
  (length (completing_clicks order) <= 5 * length order)%nat.
Proof.
  induction order as [|p order IH]; intros H; [simpl; lia|].
  unfold completing_clicks. cbn [flat_map]. fold (completing_clicks order).
  rewrite length_app. cbn [length].
  pose proof (H p (or_introl eq_refl)).
  assert ((length (completing_clicks order) <= 5 * length order)%nat).
  { apply IH. intros q I. apply H. now right. }
  lia.
Qed.

Lemma completing_clicks_unit order process_id k amount :
  In (process_id, k, amount) (completing_clicks order) -> amount = 1.
Proof.
  unfold completing_clicks, clicks_for, clicks_of. intros I.
  apply in_flat_map in I as (p & _ & I).
  apply in_flat_map in I as (j & _ & I).
  apply repeat_spec in I. now inversion I.
Qed.

Lemma moves_play self calls :
  Forall (eq true) (results self calls) ->
  moves (play self calls) = moves self + Z.of_nat (length calls).
Proof.
  revert self. induction calls as [|[[process_id k] amount] calls IH];
    intros self Res; [simpl; lia|].
  cbn [play results length] in *. inversion Res as [|? ? T Res']; subst.
  rewrite (IH _ Res'). revert T.
  outcome_cases self process_id k amount; cbn [fst snd];
    try discriminate; intros _; unfold after_grant, after_finish;
    cbn [moves]; lia.
Qed.

Lemma complete_declines self process_id k amount :
  fst (is_level_complete self) = true ->
  fst (allocate_resource self process_id k amount) = false.
Proof.
  intros C. rewrite is_level_complete_all in C.
  outcome_cases self process_id k amount; try reflexivity;
    contradiction S; apply C; rewrite Hl; apply in_app_iff; right; now left.
Qed.

Lemma update_game_display_spec self :
  fst (update_game_display self)
  = if fst (is_level_complete self) then VictoryScreen
    else if fst (is_game_over self) then GameOverScreen else GameScreen.
Proof.
  unfold update_game_display, is_level_complete. cbn [fst].
  destruct (forallb _ _); [reflexivity|].
  rewrite is_game_over_spec. cbn [fst].
  now destruct (_ || _).
Qed.

Lemma first_levels_demands level rng self :
  level = 1 \/ level = 2 ->
  valid_random rng (length process_templates) (Z.min (2 + level) 6) ->
  GameState_init level rng = Ok self ->
  (length (processes self) <= 4)%nat /\
  forall p, In p (processes self) -> (length (clicks_for p) <= 5)%nat.
Proof.
  intros L V I.
  destruct (GameState_init_parts level rng self ltac:(lia) V I)
    as (pool & _ & E).
  destruct (_generate_processes_spec level rng ltac:(lia) V) as (_ & F).
  rewrite E. cbn [processes]. split.
  - rewrite generate_loop_length, pick_length by apply V.
    destruct V as (Len & _). lia.
  - intros p Ip.
    destruct (Forall2_In_r _ _ _ _ F Ip) as (t & It & (_ & P & Al & _)).
    apply pick_In in It.
    pose proof (proj1 (Forall_forall _ _) process_templates_ok t It)
      as (_ & _ & Pos).
    apply (perturbed_unchanged level (snd t) _ ltac:(lia) Pos) in P.
    exact (proj1 (Forall_forall _ _) template_clicks t It p P Al).
Qed.

(** X17. A level 1 or 2 can always be won. Whatever [random] returns,
    there is a sequence of clicks, each on a button that
    [update_processes_display] shows at that moment, that takes the new
    game to the victory screen within the limit of moves, with
    [update_game_display] staying on the game screen after every click
    before the last. *)
Theorem first_levels_can_be_won level rng self :
  level = 1 \/ level = 2 ->
  valid_random rng (length process_templates) (Z.min (2 + level) 6) ->
  GameState_init level rng = Ok self ->
  exists calls,
    clicks_on_buttons self calls /\
    fst (update_game_display (play self calls)) = VictoryScreen /\
    moves (play self calls) <= max_moves self /\
    forall calls' rest,
      calls = calls' ++ rest -> rest <> [] ->
      fst (update_game_display (play self calls')) = GameScreen.
Proof.
  intros L V I.
  assert (C : created self)
    by (exists level, rng; split; [lia | split; assumption]).
  destruct (created_facts self C) as (_ & _ & _ & M & MM).
  destruct (first_levels_start level rng self L V I) as (D & _).
  destruct (first_levels_demands level rng self L V I) as (Count & Five).
  destruct (proj1 (detect_deadlock_safe self) D) as (order & Perm & Fin).
  destruct (completing_clicks_complete self C order self
              (reachable_start _ _) Perm Fin) as (Btn & Res & Done).
  assert (Len : (length (completing_clicks order) <= 20)%nat).
  { assert ((length (completing_clicks order) <= 5 * length order)%nat).
    { apply completing_clicks_length. intros p Ip. apply Five.
      apply (Permutation_in _ Perm) in Ip.
      unfold unfinished in Ip. now apply filter_In in Ip as (Ip & _). }
    assert ((length order <= length (processes self))%nat).
    { rewrite (Permutation_length Perm). apply filter_length_le. }
    lia. }
  exists (completing_clicks order). split; [exact Btn|]. split; [|split].
  - rewrite update_game_display_spec. now rewrite Done.
  - rewrite (moves_play _ _ Res), M, MM. lia.
  - intros calls' rest E NE.
    rewrite E, results_app in Res. apply Forall_app in Res as (Res1 & Res2).
    rewrite E, play_app in Done.
    assert (NC : fst (is_level_complete (play self calls')) = false).
    { destruct rest as [|[[process_id k] amount] rest];
        [contradiction NE; reflexivity|].
      cbn [results] in Res2. inversion Res2 as [|? ? T _]; subst.
      destruct (fst (is_level_complete (play self calls'))) eqn:Cp;
        [|reflexivity].
      rewrite (complete_declines _ process_id k amount Cp) in T.
      discriminate. }
    assert (Unit : forall process_id k amount,
               In (process_id, k, amount) (calls' ++ rest) -> 0 <= amount).
    { intros process_id k amount Ic. rewrite <- E in Ic.
      apply completing_clicks_unit in Ic. lia. }
    assert (ND : fst (detect_deadlock (play self calls')) = false).
    { destruct (fst (detect_deadlock (play self calls'))) eqn:Dp;
        [|reflexivity].
      apply (deadlock_play self (play self calls') rest C) in Dp.
      - apply complete_no_deadlock in Done. congruence.
      - apply play_reachable; [apply reachable_start|].
        intros s process_id k amount Ic. apply (Unit process_id k amount).
        apply in_app_iff. now left.
      - intros process_id k amount Ic. apply (Unit process_id k amount).
        apply in_app_iff. now right. }
    rewrite update_game_display_spec, NC, is_game_over_spec. cbn [fst].
    rewrite ND. cbn [orb].
    destruct (play_frame self calls') as (Mx & _). rewrite Mx, MM.
    rewrite (moves_play _ _ Res1), M.
    assert (Lr : (length (calls' ++ rest) <= 20)%nat) by now rewrite <- E.
    rewrite length_app in Lr.
    assert ((0 < length rest)%nat)
      by (destruct rest; [contradiction NE; reflexivity | simpl; lia]).
    destruct (Z.geb_spec (0 + Z.of_nat (length calls')) 20); [lia|].
    reflexivity.
Qed.

Lemma first_levels_can_be_won_witness :
  exists calls,
    clicks_on_buttons example_start calls /\
    fst (update_game_display (play example_start calls)) = VictoryScreen /\
    moves (play example_start calls) <= max_moves example_start /\
    forall calls' rest,
      calls = calls' ++ rest -> rest <> [] ->
      fst (update_game_display (play example_start calls')) = GameScreen.
Proof.
  apply (first_levels_can_be_won 1 example_rng example_start).
  - now left.
  - exact example_valid_random.
  - exact example_start_init.
Defined.

(** * The number of moves that a level takes *)

Lemma need_granted_required q k amount :
  Dict_ops.get (required_resources q) k <> None ->
  forall j, need (granted q k amount) j
            = need q j - (if ResourceType_eq_dec k j then amount else 0).
Proof.
  intros Sm j. rewrite need_granted.
  destruct (Dict_ops.get (required_resources q) j) eqn:G; [reflexivity|].
  destruct (ResourceType_eq_dec k j) as [<- | _]; [contradiction|].
  unfold need. rewrite G. lia.
Qed.

Lemma needs_granted q k amount :
  Dict_ops.get (required_resources q) k <> None ->
  needs (granted q k amount) = needs q - amount.
Proof.
  intros Sm. unfold needs, ResourceType_members. cbn [map fold_right].
  rewrite !(need_granted_required q k amount Sm).
  destruct k;
    repeat match goal with
           | |- context [ResourceType_eq_dec ?a ?b] =>
               destruct (ResourceType_eq_dec a b); try discriminate
           end;
    try congruence; lia.
Qed.

Lemma needs_bounds p :
  (forall k, 0 <= need p k) ->
  0 <= needs p /\ forall k, need p k <= needs p.
Proof.
  intros H. unfold needs, ResourceType_members. cbn [map fold_right].
  pose proof (H CPU). pose proof (H MEMORIA). pose proof (H DISCO).
  pose proof (H IMPRESSORA). split; [lia|]. intros k. destruct k; lia.
Qed.

Lemma need_not_negative self p k :
  within_requirements self -> In p (processes self) -> 0 <= need p k.
Proof.
  intros W I. unfold need.
  destruct (Dict_ops.get (required_resources p) k) as [r|] eqn:G; [|lia].
  destruct (W p k r I G). lia.
Qed.

Lemma remaining_split self l1 p l2 :
  processes self = l1 ++ p :: l2 ->
  remaining self
  = fold_right Z.add 0
      (map needs (filter (fun p => negb (ProcessState_eqb (state p) FINISHED))
                         l1))
    + (if ProcessState_eqb (state p) FINISHED then 0 else needs p)
    + fold_right Z.add 0
        (map needs (filter (fun p => negb (ProcessState_eqb (state p)
                                                           FINISHED)) l2)).
Proof.
  intros E. unfold remaining. rewrite (unfinished_split self l1 p l2 E).
  rewrite !map_app.
  assert (Sum : forall a b, fold_right Z.add 0 (a ++ b)
                            = fold_right Z.add 0 a + fold_right Z.add 0 b).
  { intros a b. induction a as [|x a IH]; simpl; lia. }
  rewrite !Sum. destruct (ProcessState_eqb (state p) FINISHED); simpl; lia.
Qed.

(** A click on a button: one move more, one unit less to give. *)
Lemma remaining_step self process_id k :
  distinct_ids self -> within_requirements self ->
  In (process_id, k) (buttons self) ->
  moves (snd (allocate_resource self process_id k 1))
  + remaining (snd (allocate_resource self process_id k 1))
  = moves self + remaining self.
Proof.
  intros (N & ND) W B.
  apply buttons_In in B as (q & r & Iq & <- & NF & Ir & Lt & Av).
  pose proof (Dict_get_unique _ k r (ND q Iq) Ir) as G.
  assert (Sm : Dict_ops.get (required_resources q) k <> None) by congruence.
  destruct (in_split _ _ Iq) as (before & after & Hp).
  rewrite (allocate_resource_at self before q after k 1 Hp N NF)
    by lia.
  cbn [snd].
  pose proof (proj2 (not_finished_eqb q) NF) as Sb.
  rewrite (remaining_split self before q after Hp), Sb.
  destruct (is_satisfied (granted q k 1)) eqn:Sat.
  - rewrite (remaining_split (after_finish self before q after k 1) before
               (finished (granted q k 1)) after eq_refl).
    cbn [finished state ProcessState_eqb after_finish moves].
    assert (needs (granted q k 1) = 0).
    { assert (Z0 : forall j, need (granted q k 1) j = 0).
      { intros j. pose proof (satisfied_no_need _ Sat j).
        rewrite (need_granted_required q k 1 Sm) in *.
        pose proof (need_not_negative self q j W Iq).
        destruct (ResourceType_eq_dec k j) as [<- | _]; [|lia].
        unfold need in *. rewrite G in *. lia. }
      unfold needs, ResourceType_members. cbn [map fold_right].
      rewrite !Z0. reflexivity. }
    rewrite (needs_granted q k 1 Sm) in *. lia.
  - rewrite (remaining_split (after_grant self before q after k 1) before
               (granted q k 1) after eq_refl).
    rewrite granted_state, Sb, (needs_granted q k 1 Sm).
    cbn [after_grant moves]. lia.
Qed.

Lemma remaining_zero self :
  distinct_ids self -> within_requirements self -> waiting_unsatisfied self ->
  0 <= remaining self /\
  (remaining self = 0 <-> fst (is_level_complete self) = true).
Proof.
  intros (_ & ND) W U.
  rewrite is_level_complete_all, <- unfinished_nil_iff.
  unfold remaining.
  assert (H : forall p, In p (unfinished self) -> 1 <= needs p).
  { intros p Ip. apply filter_In in Ip as (Ip & NF).
    apply negb_true_iff, not_finished_eqb in NF.
    destruct (is_satisfied_false p (U p Ip NF)) as (k & r & Ir & Lt).
    pose proof (Dict_get_unique _ k r (ND p Ip) Ir) as G.
    destruct (needs_bounds p (fun j => need_not_negative self p j W Ip))
      as (_ & Le).
    specialize (Le k). unfold need in Le at 1. rewrite G in Le. lia. }
  induction (unfinished self) as [|p l IH]; simpl.
  - split; [lia | tauto].
  - pose proof (H p (or_introl eq_refl)).
    destruct IH as (Pos & _); [intros q I; apply H; now right|].
    split; [lia|]. split; [lia | discriminate].
Qed.

Lemma button_moves start self :
  created start -> reachable_by button_click start self ->
  moves self + remaining self = remaining start.
Proof.
  intros C R.
  assert (Inv : (distinct_ids self /\ within_requirements self) /\
                moves self + remaining self = remaining start).
  { revert self R.
    apply (reachable_by_ind_inv button_click
             (fun s => (distinct_ids s /\ within_requirements s) /\
                       moves s + remaining s = remaining start)).
    - destruct (button_click_invariants start start C (reachable_start _ _))
        as (D & W & _).
      destruct (created_facts _ C) as (_ & _ & _ & M & _).
      split; [now split|]. rewrite M. lia.
    - intros s process_id k amount ((D & W) & E) (B & ->).
      destruct (button_click_within_need s process_id k D B) as (Wn & _).
      split; [split|].
      + now apply distinct_ids_step.
      + now apply within_requirements_step.
      + now rewrite (remaining_step s process_id k D W B). }
  apply Inv.
Qed.

Lemma button_moves_complete start self :
  created start -> reachable_by button_click start self ->
  moves self + remaining self = remaining start /\
  0 <= remaining self /\
  (fst (is_level_complete self) = true <-> moves self = remaining start).
Proof.
  intros C R.
  pose proof (button_moves start self C R) as E.
  destruct (button_click_invariants start self C R) as (D & W & _).
  assert (R' : reachable_by any_call start self).
  { apply reachable_by_weaken with (2 := R). intros. exact I. }
  destruct (created_any_invariants start self C R') as (_ & U).
  destruct (remaining_zero self D W U) as (Pos & Z0).
  split; [exact E|]. split; [exact Pos|].
  rewrite <- Z0. lia.
Qed.

(** X18. Winning takes as many moves as units are required. In a game
    played with the buttons of the screen, every click adds one move and
    takes one unit off what the waiting processes still need, so the move
    counter plus this remainder stays what the new level required in
    total; the level is complete exactly when the move counter has reached
    this total, in whatever order the buttons are clicked. *)
Theorem clicks_to_win start self :
  created start -> reachable_by button_click start self ->
  moves self + remaining self = remaining start /\
  0 <= remaining self /\
  (fst (is_level_complete self) = true <-> moves self = remaining start).
Proof. apply button_moves_complete. Qed.

Lemma clicks_to_win_witness :
  let self := play example_start [("P2", CPU, 1); ("P2", MEMORIA, 1)] in
  moves self + remaining self = remaining example_start /\
  0 <= remaining self /\
  (fst (is_level_complete self) = true <->
   moves self = remaining example_start).
Proof.
  intros self. apply (clicks_to_win example_start self example_start_created).
  unfold self. cbn [play].
  apply reachable_allocate;
    [apply reachable_allocate; [apply reachable_start|]|];
    (split; [vm_compute; tauto | reflexivity]).
Defined.

(** ** A level that requires more than the limit of moves *)

Lemma clicks_reachable start self calls :
  created start -> reachable_by button_click start self ->
  clicks_on_buttons self calls ->
  reachable_by button_click start (play self calls) /\
  Forall (eq true) (results self calls).
Proof.
  intros C. revert self.
  induction calls as [|[[process_id k] amount] calls IH]; intros self R B.
  - split; [exact R | constructor].
  - cbn [clicks_on_buttons play results] in *. destruct B as (B & Bs).
    destruct (IH _ (reachable_allocate _ _ _ _ _ _ R B) Bs) as (R' & Res).
    split; [exact R'|]. constructor; [|exact Res].
    destruct B as (B & ->).
    destruct (button_click_invariants start self C R) as (D & _).
    now destruct (button_click_within_need self process_id k D B) as (_ & ->).
Qed.

(** X19. A level that requires more units than the limit of moves cannot
    be won: every sequence of clicks on the buttons that reaches the
    victory screen has passed, some clicks before, a state at which
    [update_game_display] goes to the game over screen. *)
Theorem demand_over_limit_is_lost start calls :
  created start -> max_moves start < remaining start ->
  clicks_on_buttons start calls ->
  fst (update_game_display (play start calls)) = VictoryScreen ->
  exists calls' rest,
    calls = calls' ++ rest /\ rest <> [] /\
    fst (update_game_display (play start calls')) = GameOverScreen.
Proof.
  intros C Over B V.
  destruct (created_facts start C) as (_ & _ & _ & M & MM).
  destruct (clicks_reachable start start calls C (reachable_start _ _) B)
    as (R & Res).
  assert (Done : fst (is_level_complete (play start calls)) = true).
  { rewrite update_game_display_spec in V.
    destruct (fst (is_level_complete (play start calls))); [reflexivity|].
    destruct (fst (is_game_over (play start calls))); discriminate. }
  destruct (button_moves_complete start _ C R) as (_ & _ & Iff).
  apply Iff in Done. rewrite (moves_play _ _ Res), M in Done.
  exists (firstn 20 calls), (skipn 20 calls).
  split; [symmetry; apply firstn_skipn|].
  split.
  - intros Nil. apply (f_equal (@length _)) in Nil.
    rewrite length_skipn in Nil. simpl in Nil. lia.
  - rewrite <- (firstn_skipn 20 calls) in B.
    apply clicks_on_buttons_app in B as (B1 & _).
    destruct (clicks_reachable start start (firstn 20 calls) C
                (reachable_start _ _) B1) as (R1 & Res1).
    destruct (button_moves_complete start _ C R1) as (_ & _ & Iff1).
    assert (L20 : length (firstn 20 calls) = 20%nat)
      by (rewrite length_firstn; lia).
    assert (M20 : moves (play start (firstn 20 calls)) = 20)
      by (rewrite (moves_play _ _ Res1), M, L20; reflexivity).
    rewrite update_game_display_spec.
    destruct (fst (is_level_complete (play start (firstn 20 calls)))) eqn:Cp.
    + pose proof (proj1 Iff1 eq_refl). lia.
    + rewrite is_game_over_spec. cbn [fst].
      destruct (play_frame start (firstn 20 calls)) as (Mx & _).
      rewrite Mx, MM, M20. now rewrite orb_true_r.
Qed.

Lemma demanding_rng_valid level :
  4 <= level ->
  valid_random demanding_rng (length process_templates)
               (Z.min (2 + level) 6).
Proof.
  intros L. unfold valid_random, demanding_rng.
  cbn [sample_positions randint_values].
  split; [replace (Z.min (2 + level) 6) with 6 by lia; reflexivity|].
  split; [|split].
  - repeat constructor; simpl; intuition discriminate.
  - simpl. intros i I. repeat destruct I as [<- | I]; try lia; contradiction.
  - intros _. lia.
Qed.

Lemma demanding_start_created : created demanding_start.
Proof.
  exists 4, demanding_rng. split; [lia|].
  split; [apply demanding_rng_valid; lia | vm_compute; reflexivity].
Qed.

Lemma demand_over_limit_is_lost_witness :
  let calls := completing_clicks (processes demanding_start) in
  clicks_on_buttons demanding_start calls /\
  fst (update_game_display (play demanding_start calls)) = VictoryScreen /\
  exists calls' rest,
    calls = calls' ++ rest /\ rest <> [] /\
    fst (update_game_display (play demanding_start calls')) = GameOverScreen.
Proof.
  intros calls.
  assert (B : clicks_on_buttons demanding_start calls).
  { vm_compute. repeat split; tauto. }
  assert (V : fst (update_game_display (play demanding_start calls))
              = VictoryScreen) by reflexivity.
  split; [exact B|]. split; [exact V|].
  apply (demand_over_limit_is_lost demanding_start calls
           demanding_start_created); [reflexivity | exact B | exact V].
Defined.

(** X20. From level 4 on, a level can require more than the limit of
    moves: when [random] picks the six templates "Streaming",
    "Banco de Dados", "Compilador", "Editor de Texto", "Backup" and
    "Antivírus" and draws 0, the new game state is not deadlocked, and its
    processes require 23 units, more than [max_moves]. *)
Theorem level_can_need_too_many_moves level :
  4 <= level < 2 ^ 1024 - 2 ^ 970 ->
  exists self,
    valid_random demanding_rng (length process_templates)
                 (Z.min (2 + level) 6) /\
    GameState_init level demanding_rng = Ok self /\
    fst (detect_deadlock self) = false /\
    remaining self = 23 /\ max_moves self = 20.
Proof.
  intros (Lo & Hi).
  pose proof (demanding_rng_valid level Lo) as V.
  destruct (initial_totals level ltac:(lia)) as (pool & R & T).
  destruct (_generate_processes_spec level demanding_rng ltac:(lia) V)
    as (G & _).
  set (self := mkGameState level pool
                 (generate_loop level demanding_rng 0
                    (pick process_templates
                          (sample_positions demanding_rng)) O)
                 [] 0 20).
  assert (I : GameState_init level demanding_rng = Ok self).
  { unfold GameState_init. rewrite R, G. reflexivity. }
  exists self. split; [exact V|]. split; [exact I|].
  assert (C : created self)
    by (exists level, demanding_rng; split; [lia | split; assumption]).
  destruct (created_facts self C) as (Pool & Fresh & _).
  assert (Ep : processes self = processes demanding_start).
  { unfold self. cbn [processes].
    rewrite (generate_loop_level level 4) by lia. reflexivity. }
  assert (NE : processes self <> []) by (rewrite Ep; discriminate).
  destruct (fresh_not_complete self Fresh NE) as (_ & Idle).
  split; [|split; [|reflexivity]].
  - destruct (fst (detect_deadlock self)) eqn:D; [|reflexivity]. exfalso.
    apply (idle_deadlock self Idle) in D as (p & Ip & k & r & Ir & Lt).
    rewrite (Idle p k Ip) in Lt.
    unfold get_available_resources, map_values in Lt.
    rewrite get_build in Lt. destruct (Pool k) as (Av & T2).
    apply filter_In in Ip as (Ip & _). rewrite Ep in Ip.
    assert (r <= 2); [|lia].
    clear - Ip Ir. simpl in Ip.
    repeat destruct Ip as [<- | Ip]; try contradiction; simpl in Ir;
      repeat destruct Ir as [Ir | Ir]; try contradiction; inversion Ir; lia.
  - unfold remaining, unfinished. rewrite Ep. reflexivity.
Qed.

Lemma level_can_need_too_many_moves_witness :
  exists self,
    valid_random demanding_rng (length process_templates)
                 (Z.min (2 + 4) 6) /\
    GameState_init 4 demanding_rng = Ok self /\
    fst (detect_deadlock self) = false /\
    remaining self = 23 /\ max_moves self = 20.
Proof.
  apply (level_can_need_too_many_moves 4). split; [lia | reflexivity].
Defined.
